(** * Verification of the mini RAG application

    The development embeds the retrieval pipeline of [backend/retriever.py]
    ([_cosine], [mmr], [cohere_rerank], [retrieve]) and proves or refutes the
    properties stated about it.  It then covers the code around it:
    [upsert_points] and [search_vectors] of [backend/vectorstore.py],
    [_make_chunk_id], [_tokenize], [_detokenize], [chunk_text] and
    [embed_texts] of [backend/embeddings.py], the indexing and answering
    steps of [backend/app.py], [build_prompt_and_sources] of
    [backend/llm_answer.py] and [compute_recall] of [eval/evaluation.py].

    - Python floats are IEEE 754 binary64 numbers.  They are modelled by
      [spec_float] of the Standard Library with [prec = 53] and
      [emax = 1024]; every arithmetic operation is the correctly rounded
      (round to nearest, ties to even) one of [SpecFloat].  There is one
      NaN: the sign and the payload of a NaN are not modelled.
    - Python exceptions are modelled by an error monad ([outcome]); where
      the code treats all exceptions alike ([except Exception]), by
      [option], with [None] for "raises".
    - A Python [str] is modelled by [string], one character per item.
    - The collaborators (the Qdrant client, the Cohere client, the Gemini
      embedding service, tiktoken, [hashlib]) are parameters; calls made by
      the retrieval pipeline and [print] are recorded in a trace. *)

From Stdlib Require Import ZArith Bool Lia.
From Stdlib Require Import SpecFloat.
From stdpp Require Import base option list sorting gmap strings pretty.
From Equations Require Import Equations.

Open Scope Z_scope.

(** ** Binary64 arithmetic *)

Module B64.

Definition prec : Z := 53.
Definition emax : Z := 1024.

Definition float := spec_float.

Definition fadd : float -> float -> float := SFadd prec emax.
Definition fsub : float -> float -> float := SFsub prec emax.
Definition fmul : float -> float -> float := SFmul prec emax.
Definition fdiv : float -> float -> float := SFdiv prec emax.
Definition fsqrt : float -> float := SFsqrt prec emax.

(** [x < y] and [x > y] of Python: false as soon as one side is NaN. *)
Definition fltb (x y : float) : bool := SFltb x y.
Definition fgtb (x y : float) : bool := SFltb y x.

(** The float nearest to an integer ([float(n)] of Python). *)
Definition of_Z (n : Z) : float := binary_normalize prec emax n 0 false.

Definition pzero : float := S754_zero false.
(** [0.5] *)
Definition half : float := S754_finite false 4503599627370496 (-53).
(** [1.0] *)
Definition one : float := S754_finite false 4503599627370496 (-52).
(** [1e-8], the double nearest to 10^-8 *)
Definition eps : float := S754_finite false 6044629098073146 (-79).
(** [-1e9] *)
Definition sentinel : float := S754_finite true 8388608000000000 (-23).

Definition is_zero (x : float) : bool :=
  match x with S754_zero _ => true | _ => false end.

Definition is_nan (x : float) : bool :=
  match x with S754_nan => true | _ => false end.

Definition valid (x : float) : bool := valid_binary prec emax x.

(** Zero, positive, [+inf] or NaN: what a sum of squares can be. *)
Definition nonneg (x : float) : bool :=
  match x with
  | S754_nan => true
  | S754_zero s | S754_infinity s | S754_finite s _ _ => negb s
  end.

(** A rank that orders the floats other than NaN as [SFcompare] does:
    by class, then exponent, then mantissa. *)
Definition rank (x : float) : Z * Z * Z :=
  match x with
  | S754_infinity true => (-2, 0, 0)
  | S754_finite true m e => (-1, - e, - Z.pos m)
  | S754_zero _ | S754_nan => (0, 0, 0)
  | S754_finite false m e => (1, e, Z.pos m)
  | S754_infinity false => (2, 0, 0)
  end.

Definition rank_lt (r1 r2 : Z * Z * Z) : Prop :=
  let '(a1, b1, c1) := r1 in
  let '(a2, b2, c2) := r2 in
  a1 < a2 \/ (a1 = a2 /\ (b1 < b2 \/ (b1 = b2 /\ c1 < c2))).

(** Equal, or both a zero (of either sign): indistinguishable by
    comparisons. *)
Definition same_number (x y : float) : Prop :=
  x = y \/ (is_zero x = true /\ is_zero y = true).

End B64.

Import B64.

(** ** Python values and exceptions *)

Inductive exn :=
  | TypeError | ValueError | ZeroDivisionError | IndexError
  | ServiceError.

(** The result of running Python code that may raise. *)
Inductive outcome (A : Type) :=
  | Ok (a : A)
  | Raise (e : exn).
Arguments Ok {A} a.
Arguments Raise {A} e.

#[global] Instance outcome_ret : MRet outcome := @Ok.
#[global] Instance outcome_bind : MBind outcome :=
  fun A B f m => match m with Ok a => f a | Raise e => Raise e end.

(** [sum(xs)]: the accumulator starts at the integer [0], which the first
    addition converts to [0.0]; the additions go left to right (the plain
    loop of CPython before 3.12, without the later compensation term). *)
Definition py_sum (xs : list float) : float := fold_left fadd xs pzero.

(** [math.sqrt(x)]: a domain error for negative [x], NaN for NaN. *)
Definition math_sqrt (x : float) : outcome float :=
  if fltb x pzero then Raise ValueError else Ok (fsqrt x).

(** [x / y] on floats. *)
Definition py_truediv (x y : float) : outcome float :=
  if is_zero y then Raise ZeroDivisionError else Ok (fdiv x y).

(** [max(xs)]: the first item is kept until a later one compares greater;
    [ValueError] on an empty sequence. *)
Definition py_max (xs : list float) : outcome float :=
  match xs with
  | [] => Raise ValueError
  | x :: xs' => Ok (fold_left (fun m y => if fgtb y m then y else m) xs' x)
  end.

(** [l[i]] for a Python integer [i]: negative indices count from the end. *)
Definition py_index {A} (l : list A) (i : Z) : outcome A :=
  let n := Z.of_nat (length l) in
  let j := if i <? 0 then i + n else i in
  if (0 <=? j) && (j <? n) then
    match l !! Z.to_nat j with Some x => Ok x | None => Raise IndexError end
  else Raise IndexError.

(** [l[:n]] for a Python integer [n]. *)
Definition py_slice_to {A} (n : Z) (l : list A) : list A :=
  if n <? 0 then take (Z.to_nat (Z.of_nat (length l) + n)) l
  else take (Z.to_nat n) l.

(** The indices Python accepts for [l[i]]. *)
Definition in_range {A} (l : list A) (i : Z) : Prop :=
  - Z.of_nat (length l) <= i < Z.of_nat (length l).

(** The position in [l] that the index [i] stands for: negative indices
    count from the end. *)
Definition position {A} (l : list A) (i : Z) : Z :=
  if i <? 0 then i + Z.of_nat (length l) else i.

(** ** retriever.py *)

(** One entry of [candidates]: the dict that [retrieve] builds from a hit.
    [cand_score] is [None] when the dict has no ["score"] key,
    [cand_vector] is [None] when the value under ["vector"] is Python's
    [None].  The keys ["id"], ["vector"] and ["payload"] are always there, as
    in every dict that [retrieve] builds; a dict without the key ["vector"]
    (on which [c["vector"]] raises [KeyError]) is outside this type. *)
Record candidate := {
  cand_id : string;
  cand_score : option float;
  cand_vector : option (list float);
  cand_payload : gmap string string
}.

(** [_cosine(a, b)]; [zip] raises [TypeError] on [None]. *)
Definition _cosine (a b : option (list float)) : outcome float :=
  match a, b with
  | Some a, Some b =>
      let dot := py_sum (zip_with fmul a b) in
      na ← math_sqrt (py_sum (map (fun x => fmul x x) a));
      nb ← math_sqrt (py_sum (map (fun x => fmul x x) b));
      py_truediv dot (fadd (fmul na nb) eps)
  | _, _ => Raise TypeError
  end.

(** [c.get("score", 0.0)] *)
Definition sim_q (c : candidate) : float := default pzero (cand_score c).

(** [max(_cosine(c["vector"], s["vector"]) for s in selected) if selected
    else 0.0] *)
Definition sim_sel (selected : list candidate) (c : candidate) : outcome float :=
  match selected with
  | [] => Ok pzero
  | _ :: _ =>
      sims ← mapM (fun s => _cosine (cand_vector c) (cand_vector s)) selected;
      py_max sims
  end.

(** [lamb * sim_q - (1.0 - lamb) * sim_sel] *)
Definition mmr_value (lamb : float) (c : candidate) (s : float) : float :=
  fsub (fmul lamb (sim_q c)) (fmul (fsub one lamb) s).

(** [val] of the inner loop of [mmr]. *)
Definition mmr_val (lamb : float) (selected : list candidate) (c : candidate)
  : outcome float :=
  s ← sim_sel selected c;
  Ok (mmr_value lamb c s).

(** The [for i, c in enumerate(remaining)] loop, from position [i] on, with
    the current [best_idx] and [best_val]. *)
Fixpoint mmr_scan (lamb : float) (selected remaining : list candidate)
    (i : nat) (best_idx : option nat) (best_val : float)
  : outcome (option nat) :=
  match remaining with
  | [] => Ok best_idx
  | c :: rest =>
      val ← mmr_val lamb selected c;
      if fgtb val best_val
      then mmr_scan lamb selected rest (S i) (Some i) val
      else mmr_scan lamb selected rest (S i) best_idx best_val
  end.

(** [remaining.pop(best_idx)]: [TypeError] when [best_idx] is [None]. *)
Definition py_pop {A} (l : list A) (i : option nat) : outcome (A * list A) :=
  match i with
  | None => Raise TypeError
  | Some i =>
      match l !! i with
      | Some x => Ok (x, delete i l)
      | None => Raise IndexError
      end
  end.

(** One round of the [while] loop of [mmr]. *)
Definition mmr_round (lamb : float) (selected remaining : list candidate)
  : outcome (candidate * list candidate) :=
  best_idx ← mmr_scan lamb selected remaining 0 None sentinel;
  py_pop remaining best_idx.

Definition inspect {A} (a : A) : {b : A | a = b} := exist _ a eq_refl.

(** The [while len(selected) < k and remaining] loop. *)
Equations? mmr_loop (k : Z) (lamb : float) (selected remaining : list candidate)
  : outcome (list candidate) by wf (length remaining) lt :=
  mmr_loop k lamb selected remaining
    with (Z.of_nat (length selected) <? k) && negb (bool_decide (remaining = [])) => {
    | false := Ok selected;
    | true with inspect (mmr_round lamb selected remaining) => {
      | exist _ (Raise e) _ := Raise e;
      | exist _ (Ok (c, rest)) H := mmr_loop k lamb (selected ++ [c]) rest } }.
Proof.
  clear mmr_loop. unfold mmr_round in H.
  destruct (mmr_scan lamb selected remaining 0 None sentinel) as [[i|]|];
    simpl in H; try discriminate.
  destruct (remaining !! i) eqn:E; [|discriminate].
  injection H as <- <-. rewrite length_delete by eauto.
  apply lookup_lt_Some in E. lia.
Qed.

(** [mmr(candidates, k, lamb)] *)
Definition mmr (candidates : list candidate) (k : Z) (lamb : float)
  : outcome (list candidate) :=
  mmr_loop k lamb [] candidates.

(** Every candidate has a vector, and its value exceeds the [-1e9] that
    [best_val] starts from, both against an empty selection and against
    each candidate: no round of [mmr] can end with [best_idx] still [None].
    (A value that is NaN never exceeds anything.) *)
Definition above_sentinel (lamb : float) (candidates : list candidate) : bool :=
  forallb (fun c =>
    fgtb (mmr_value lamb c pzero) sentinel &&
    forallb (fun s =>
      match _cosine (cand_vector c) (cand_vector s) with
      | Ok v => fgtb (mmr_value lamb c v) sentinel
      | Raise _ => false
      end) candidates) candidates.

(** One item of [resp.results] of the rerank service. *)
Record rerank_result := { res_index : Z; res_score : float }.

(** The response object of [co.rerank]. *)
Record rerank_response := { results : list rerank_result }.

(** [sorted(xs, key=key, reverse=True)]: Python's sort is stable, also with
    [reverse=True], so items whose keys compare equal keep their order.
    For keys without NaN this fixes the result; it is computed here by
    insertion from the right.  With a NaN among the keys the comparisons are
    no order and the result of Python's merge sort is not this one: the
    theorems on the order of the reranked results assume that no score is
    NaN. *)
Fixpoint insert_desc {A} (key : A -> float) (x : A) (l : list A) : list A :=
  match l with
  | [] => [x]
  | y :: l' =>
      if fltb (key x) (key y) then y :: insert_desc key x l' else x :: y :: l'
  end.

Definition sorted_desc {A} (key : A -> float) (l : list A) : list A :=
  foldr (insert_desc key) [] l.

(** What a stable descending sort guarantees for [a] placed before [b]:
    [a]'s key is not less, and on a tie [a] came first ([pos a b]). *)
Definition ordered {A} (key : A -> float) (pos : A -> A -> Prop) (a b : A)
  : Prop :=
  fltb (key a) (key b) = false /\ (fltb (key b) (key a) = false -> pos a b).

(** The position and the value of the greatest key, the first one among
    equals. *)
Fixpoint argmax (ks : list float) : option (nat * float) :=
  match ks with
  | [] => None
  | k :: ks' =>
      match argmax ks' with
      | None => Some (0%nat, k)
      | Some (j, m) => if fltb k m then Some (S j, m) else Some (0%nat, k)
      end
  end.

(** The scan of [mmr] on bare keys. *)
Fixpoint scan_keys (ks : list float) (i : nat) (best_idx : option nat)
    (best_val : float) : option nat :=
  match ks with
  | [] => best_idx
  | k :: ks' =>
      if fgtb k best_val then scan_keys ks' (S i) (Some i) k
      else scan_keys ks' (S i) best_idx best_val
  end.

(** A hit of the vector search; a field is [None] when the attribute is
    missing (and, for [hit_vector], also when it is Python's [None], which is
    what the search returns unless vectors are asked for). *)
Record hit := {
  hit_id : option string;
  hit_score : option float;
  hit_vector : option (list float);
  hit_payload : option (gmap string string)
}.

(** What the pipeline does to the outside world, in order. *)
Inductive event :=
  | EvSearch (query_vector : list float) (limit : Z) (with_payload : bool)
  | EvRerank (model query : string) (documents : list string)
  | EvPrint (e : exn).

(** The collaborators and the configuration read from the environment:
    [client.search] of Qdrant behind [search_vectors], the module-level [co]
    ([None] unless [COHERE_API_KEY] is set, else the client's [rerank]) and
    [RERANK_MODEL]. *)
Record collaborators := {
  qdrant_search : list float -> Z -> bool -> outcome (list hit);
  co : option (string -> string -> list string -> outcome rerank_response);
  RERANK_MODEL : string
}.

(** [vectorstore.search_vectors(vector, top_k, with_payload)] *)
Definition search_vectors (env : collaborators) (vector : list float)
    (top_k : Z) (with_payload : bool) (tr : list event)
  : outcome (list hit) * list event :=
  (qdrant_search env vector top_k with_payload,
   tr ++ [EvSearch vector top_k with_payload]).

(** The body of the [try] block of [cohere_rerank], given the response. *)
Definition rerank_body (docs : list string) (top_k : Z) (resp : rerank_response)
  : outcome (list string * option rerank_response) :=
  let ranked := sorted_desc res_score (results resp) in
  let top := py_slice_to top_k ranked in
  ranked_docs ← mapM (fun r => py_index docs (res_index r)) top;
  Ok (ranked_docs, Some resp).

(** [cohere_rerank(query, docs, model, top_k)]; it never raises. *)
Definition cohere_rerank (env : collaborators) (query : string)
    (docs : list string) (model : string) (top_k : Z) (tr : list event)
  : (list string * option rerank_response) * list event :=
  match co env with
  | None => (([], None), tr)
  | Some rerank =>
      if bool_decide (docs = []) then (([], None), tr) else
      let tr1 := tr ++ [EvRerank model query docs] in
      match rerank model query docs ≫= rerank_body docs top_k with
      | Ok r => (r, tr1)
      | Raise e => (([], None), tr1 ++ [EvPrint e])
      end
  end.

(** The dict built from a hit in [retrieve]. *)
Definition candidate_of_hit (h : hit) : candidate :=
  {| cand_id := default "None" (hit_id h);
     cand_score := Some (default pzero (hit_score h));
     cand_vector := hit_vector h;
     cand_payload := default ∅ (hit_payload h) |}.

(** [c["payload"].get("text", "")] *)
Definition doc_text (c : candidate) : string :=
  default "" (cand_payload c !! "text").

(** The [try] block of [retrieve]: the survivors named by the best
    [rerank_topk] results. *)
Definition map_back (mmr_sel : list candidate) (rerank_topk : Z)
    (meta : rerank_response) : outcome (list candidate) :=
  let ranked_results := sorted_desc res_score (results meta) in
  mapM (fun r => py_index mmr_sel (res_index r))
       (py_slice_to rerank_topk ranked_results).

(** [retrieve(query_vector, query_text, topk, mmr_k, rerank_topk)] *)
Definition retrieve (env : collaborators) (query_vector : list float)
    (query_text : string) (topk mmr_k rerank_topk : Z) (tr : list event)
  : outcome (list candidate) * list event :=
  let '(r, tr1) := search_vectors env query_vector topk true tr in
  match r with
  | Raise e => (Raise e, tr1)
  | Ok hits =>
      if bool_decide (hits = []) then (Ok [], tr1) else
      let candidates := map candidate_of_hit hits in
      match mmr candidates mmr_k half with
      | Raise e => (Raise e, tr1)
      | Ok mmr_sel =>
          let docs := map doc_text mmr_sel in
          let '((reranked_docs, rerank_meta), tr2) :=
            cohere_rerank env query_text docs (RERANK_MODEL env) rerank_topk tr1 in
          let fallback := py_slice_to rerank_topk mmr_sel in
          match rerank_meta with
          | Some meta =>
              match map_back mmr_sel rerank_topk meta with
              | Ok top_items => (Ok top_items, tr2)
              | Raise _ => (Ok fallback, tr2)
              end
          | None => (Ok fallback, tr2)
          end
      end
  end.

(** ** Sample inputs *)

(** [0.9] and [0.8] *)
Definition f09 : float := S754_finite false 8106479329266893 (-53).
Definition f08 : float := S754_finite false 7205759403792794 (-53).

Definition mk_candidate (i : string) (s : float) (v : option (list float))
  : candidate :=
  {| cand_id := i; cand_score := Some s; cand_vector := v;
     cand_payload := {[ "text" := i ]} |}.

(** A hit as the search returns it when vectors are not asked for. *)
Definition mk_hit (i : string) (s : float) (v : option (list float)) : hit :=
  {| hit_id := Some i; hit_score := Some s; hit_vector := v;
     hit_payload := Some {[ "text" := i ]} |}.

(** Two hits without vectors and no rerank service. *)
Definition env_no_vectors : collaborators :=
  {| qdrant_search := fun _ _ _ => Ok [mk_hit "a" f09 None; mk_hit "b" f08 None];
     co := None;
     RERANK_MODEL := "rerank" |}.

Definition hits_ab : list hit :=
  [mk_hit "a" f09 (Some [one; pzero]); mk_hit "b" f08 (Some [one; one])].

(** Two hits with vectors and a rerank service that answers with the given
    results. *)
Definition env_rerank (rs : list rerank_result) : collaborators :=
  {| qdrant_search := fun _ _ _ => Ok hits_ab;
     co := Some (fun _ _ _ => Ok {| results := rs |});
     RERANK_MODEL := "rerank" |}.

(** ** Finite floats *)

(** A zero or a finite number: neither an infinity nor NaN. *)
Definition finite (x : float) : bool :=
  match x with
  | S754_zero _ | S754_finite _ _ _ => true
  | S754_infinity _ | S754_nan => false
  end.

(** [math.sqrt(sum(x*x for x in a))] without the domain check, which never
    fails on a sum of squares. *)
Definition norm (a : list float) : float :=
  fsqrt (py_sum (map (fun x => fmul x x) a)).

(** Two hits with vectors and no rerank service. *)
Definition env_search_only : collaborators :=
  {| qdrant_search := fun _ _ _ => Ok hits_ab;
     co := None;
     RERANK_MODEL := "rerank" |}.

(** A search that finds nothing. *)
Definition env_no_hits : collaborators :=
  {| qdrant_search := fun _ _ _ => Ok [];
     co := Some (fun _ _ _ => Raise ServiceError);
     RERANK_MODEL := "rerank" |}.

(** ** More of Python: ranges, slices, conversions *)

(** [range(n)] *)
Definition py_range (n : nat) : list Z := map Z.of_nat (seq 0 n).

(** [range(0, stop, step)]: [ValueError] for [step = 0] ([None] stands for
    the exception); otherwise [0, step, 2 * step, ...] as long as the number
    is below [stop] (for a positive [step]) or above it (for a negative
    one). *)
Definition py_range_step (stop step : Z) : option (list Z) :=
  if step =? 0 then None
  else if 0 <? step
  then Some (map (fun i => Z.of_nat i * step)
                 (seq 0 (Z.to_nat ((stop + step - 1) / step))))
  else Some (map (fun i => Z.of_nat i * step)
                 (seq 0 (Z.to_nat ((- stop - step - 1) / (- step))))).

(** [c.isspace()] for a character below 256: the characters that
    [str.strip()] removes. *)
Definition py_isspace (c : Ascii.ascii) : bool :=
  let n := Ascii.nat_of_ascii c in
  ((9 <=? n)%nat && (n <=? 13)%nat) || ((28 <=? n)%nat && (n <=? 32)%nat)
  || (n =? 133)%nat || (n =? 160)%nat.

(** [not s.strip()]: the string is empty or holds only whitespace. *)
Definition is_blank (s : string) : bool :=
  forallb py_isspace (String.list_ascii_of_string s).

(** The position that a slice bound [i] stands for in a sequence of length
    [len]: negative bounds count from the end, and every bound is clamped. *)
Definition py_clamp (len i : Z) : Z :=
  if i <? 0 then Z.max 0 (i + len) else Z.min i len.

(** [l[a:b]] for Python integers [a] and [b]. *)
Definition py_slice {A} (a b : Z) (l : list A) : list A :=
  let n := Z.of_nat (length l) in
  let a' := py_clamp n a in
  let b' := py_clamp n b in
  take (Z.to_nat (b' - a')) (drop (Z.to_nat a') l).

(** [s[a:b]] on a string. *)
Definition str_slice (a b : Z) (s : string) : string :=
  String.string_of_list_ascii (py_slice a b (String.list_ascii_of_string s)).

(** [str(n)] for an integer. *)
Definition py_str (n : Z) : string := pretty n.

(** The values stored in metadata and payload dicts. *)
Inductive pyval :=
  | VStr (s : string)
  | VInt (n : Z).

(** An integer as an exact (unrounded) binary number. *)
Definition exact (n : Z) : float :=
  match n with
  | Z0 => S754_zero false
  | Zpos p => S754_finite false p 0
  | Zneg p => S754_finite true p 0
  end.

(** [a / b] on integers: the correctly rounded quotient; it raises
    [ZeroDivisionError] for [b = 0] and [OverflowError] when the quotient is
    too large for a float.  [None] stands for the exception. *)
Definition py_int_truediv (a b : Z) : option float :=
  if b =? 0 then None else
  match fdiv (exact a) (exact b) with
  | S754_infinity _ => None
  | q => Some q
  end.

(** [float(n)] as done by [x * n] for a float [x] and an integer [n]:
    [OverflowError] when [n] is too large. *)
Definition float_of_int (n : Z) : option float :=
  match of_Z n with
  | S754_infinity _ => None
  | x => Some x
  end.

(** [int(x)]: truncation towards zero; it raises on infinities and NaN. *)
Definition float_to_int (x : float) : option Z :=
  match x with
  | S754_zero _ => Some 0
  | S754_finite s m e =>
      let a := if 0 <=? e then Z.shiftl (Z.pos m) e else Z.shiftr (Z.pos m) (- e) in
      Some (if s then - a else a)
  | S754_infinity _ | S754_nan => None
  end.

(** An exception is forgotten where the code only cares that there was one
    ([except Exception]). *)
Definition succeeded {A} (r : outcome A) : option A :=
  match r with Ok a => Some a | Raise _ => None end.

(** ** vectorstore.py: storing points *)

(** A [PointStruct]. *)
Record point := {
  point_id : string;
  point_vector : list float;
  point_payload : gmap string pyval
}.

(** The Qdrant client as [upsert_points] uses it: [get_client()], which
    builds the client on first use, and [client.upsert] on the configured
    collection. *)
Record qdrant_store (R : Type) := {
  get_client : outcome unit;
  client_upsert : list point -> outcome R
}.
Arguments get_client {R} _.
Arguments client_upsert {R} _ _.

(** [PointStruct(id=ids[i], vector=vectors[i], payload=payloads[i]) for i in
    range(len(ids))] *)
Definition points_of (ids : list string) (vectors : list (list float))
    (payloads : list (gmap string pyval)) : outcome (list point) :=
  mapM (fun i =>
          id ← py_index ids i;
          vector ← py_index vectors i;
          payload ← py_index payloads i;
          Ok {| point_id := id; point_vector := vector; point_payload := payload |})
       (py_range (length ids)).

(** [upsert_points(ids, vectors, payloads)] *)
Definition upsert_points {R} (store : qdrant_store R) (ids : list string)
    (vectors : list (list float)) (payloads : list (gmap string pyval))
  : outcome R :=
  _ ← get_client store;
  points ← points_of ids vectors payloads;
  client_upsert store points.

(** ** embeddings.py *)

(** The tiktoken encoding; [None] stands for an exception. *)
Record encoding := {
  enc_encode : string -> option (list Z);
  enc_decode : list Z -> option string
}.

(** What [embed_texts] looks for in a response: a list of floats or some
    other object. *)
Inductive embed_value :=
  | EList (vec : list float)
  | ENotList.

(** The shapes of a response of [genai.embed_content] that [embed_texts]
    tells apart: a dict, with or without the keys ["embedding"] and
    ["data"] (a list of dicts, each with or without ["embedding"]), or an
    object, with or without the attribute [embedding]. *)
Inductive embed_response :=
  | RDict (embedding : option embed_value) (data : option (list (option embed_value)))
  | RObject (embedding : option embed_value).

(** The module-level state and the collaborators of [embeddings.py]:
    [ENC] ([None] without tiktoken), [hashlib.sha1(s.encode()).hexdigest()],
    [genai.embed_content] ([None] stands for an exception), and the
    constants read from [config]. *)
Record embed_config := {
  ENC : option encoding;
  sha1_hexdigest : string -> string;
  embed_content : string -> string -> option embed_response;
  EMBED_MODEL : string;
  EMBED_DIM : Z;
  TARGET_TOKENS : Z;
  OVERLAP_TOKENS : Z
}.

(** [_make_chunk_id(source, position)] *)
Definition _make_chunk_id (cfg : embed_config) (source : string) (position : Z)
  : string :=
  str_slice 0 32 (sha1_hexdigest cfg (source +:+ "::" +:+ py_str position)).

(** [_tokenize(text)] *)
Definition _tokenize (cfg : embed_config) (text : string) : option (list Z) :=
  match ENC cfg with
  | Some enc => enc_encode enc text
  | None =>
      let approx_token_size := Z.max 1 (Z.of_nat (String.length text) / 4) in
      Some (py_range (Z.to_nat approx_token_size))
  end.

(** [_detokenize(tokens, original_text)] *)
Definition _detokenize (cfg : embed_config) (tokens : list Z)
    (original_text : string) : option string :=
  match ENC cfg with
  | Some enc => enc_decode enc tokens
  | None =>
      if bool_decide (tokens = []) then Some "" else
      last ← succeeded (py_index tokens (-1));
      let total_tokens := Z.max (last + 1) 1 in
      let char_len := Z.of_nat (String.length original_text) in
      first ← succeeded (py_index tokens 0);
      q ← py_int_truediv first total_tokens;
      n ← float_of_int char_len;
      start_char ← float_to_int (fmul q n);
      q' ← py_int_truediv (last + 1) total_tokens;
      end_char ← float_to_int (fmul q' n);
      Some (str_slice start_char end_char original_text)
  end.

(** One entry of the list that [chunk_text] returns. *)
Record chunk := {
  c_id : string;
  c_text : string;
  c_meta : gmap string pyval
}.

(** The body of the [for start in range(...)] loop of [chunk_text] up to
    [chunks.append]. *)
Definition chunk_at (cfg : embed_config) (raw source title : string)
    (tokens : list Z) (target_tokens start pos : Z) : option chunk :=
  let end_ := Z.min (start + target_tokens) (Z.of_nat (length tokens)) in
  text ← match ENC cfg with
         | Some enc => enc_decode enc (py_slice start end_ tokens)
         | None => _detokenize cfg (py_slice start end_ tokens) raw
         end;
  let cid := _make_chunk_id cfg source pos in
  let meta : gmap string pyval :=
    {[ "source" := VStr source; "title" := VStr title;
       "position" := VInt pos; "chunk_id" := VStr (py_str pos) ]} in
  Some {| c_id := cid; c_text := text; c_meta := meta |}.

(** The loop of [chunk_text] over the remaining [starts], with the current
    [pos]; it ends early at the first window that reaches the last token. *)
Fixpoint chunk_loop (cfg : embed_config) (raw source title : string)
    (tokens : list Z) (target_tokens : Z) (starts : list Z) (pos : Z)
  : option (list chunk) :=
  match starts with
  | [] => Some []
  | start :: starts' =>
      c ← chunk_at cfg raw source title tokens target_tokens start pos;
      if Z.min (start + target_tokens) (Z.of_nat (length tokens))
         =? Z.of_nat (length tokens)
      then Some [c]
      else cs ← chunk_loop cfg raw source title tokens target_tokens starts' (pos + 1);
           Some (c :: cs)
  end.

(** [chunk_text(raw, source, title, target_tokens, overlap_tokens)] *)
Definition chunk_text (cfg : embed_config) (raw source title : string)
    (target_tokens overlap_tokens : Z) : option (list chunk) :=
  if bool_decide (raw = "") then Some [] else
  tokens ← _tokenize cfg raw;
  let step := Z.max 1 (target_tokens - overlap_tokens) in
  starts ← py_range_step (Z.of_nat (length tokens)) step;
  chunk_loop cfg raw source title tokens target_tokens starts 0.

(** The vector that the response carries, if it does:
    [resp["embedding"]], else [resp.embedding], else
    [resp["data"][0]["embedding"]]. *)
Definition embedding_of (resp : embed_response) : option embed_value :=
  match resp with
  | RDict (Some v) _ => Some v
  | RDict None (Some (Some v :: _)) => Some v
  | RDict None _ => None
  | RObject v => v
  end.

(** The body of the loop of [embed_texts]: the vector of the response, or
    [[0.0] * EMBED_DIM] after any exception. *)
Definition embed_one (cfg : embed_config) (model text : string) : list float :=
  match embed_content cfg model text with
  | Some resp =>
      match embedding_of resp with
      | Some (EList vec) => vec
      | _ => replicate (Z.to_nat (EMBED_DIM cfg)) pzero
      end
  | None => replicate (Z.to_nat (EMBED_DIM cfg)) pzero
  end.

(** [embed_texts(texts, model)] *)
Definition embed_texts (cfg : embed_config) (texts : list string) (model : string)
  : list (list float) :=
  match texts with
  | [] => []
  | _ :: _ => map (embed_one cfg model) texts
  end.

(** ** app.py: indexing *)

(** [{"title": title, "source": source, **c["meta"], "text": c["text"]}]:
    later keys replace earlier ones. *)
Definition payload_of (title source : string) (c : chunk) : gmap string pyval :=
  <["text" := VStr (c_text c)]>
    (c_meta c ∪ <["source" := VStr source]> (<["title" := VStr title]> ∅)).

(** What the "Index content" button passes to [upsert_points] for a text
    [raw] that is not blank: [chunk_text(raw)] with its default arguments,
    one embedding per chunk, the ids and the payloads. *)
Definition index_arguments (cfg : embed_config) (title source raw : string)
  : option (list string * list (list float) * list (gmap string pyval)) :=
  chunks ← chunk_text cfg raw "user-paste" "Untitled Document"
             (TARGET_TOKENS cfg) (OVERLAP_TOKENS cfg);
  let texts := map c_text chunks in
  let vectors := embed_texts cfg texts (EMBED_MODEL cfg) in
  let ids := map c_id chunks in
  let payloads := map (payload_of title source) chunks in
  Some (ids, vectors, payloads).

(** The message that "Index content" ends with: ["No text provided."],
    ["Indexed n chunks."] or ["Indexing failed: ..."]. *)
Inductive index_result :=
  | NoTextProvided
  | Indexed (n : nat)
  | IndexingFailed.

(** The "Index content" action on [raw], the pasted text followed by the
    text of the uploaded file if there is one: nothing is chunked, embedded
    or stored when [raw.strip()] is empty. *)
Definition index_content {R} (cfg : embed_config) (store : qdrant_store R)
    (title source raw : string) : index_result :=
  if is_blank raw then NoTextProvided else
  match index_arguments cfg title source raw with
  | None => IndexingFailed
  | Some (ids, vectors, payloads) =>
      match upsert_points store ids vectors payloads with
      | Ok _ => Indexed (length ids)
      | Raise _ => IndexingFailed
      end
  end.

(** ** Sample configurations *)

(** A tokenizer with one token per character (the character codes). *)
Definition enc_chars : encoding :=
  {| enc_encode := fun s =>
       Some (map (fun a => Z.of_nat (Ascii.nat_of_ascii a))
                 (String.list_ascii_of_string s));
     enc_decode := fun toks =>
       Some (String.string_of_list_ascii
               (map (fun z => Ascii.ascii_of_nat (Z.to_nat z)) toks)) |}.

(** [sha1] is replaced by the identity, an embedding service that always
    fails, windows of 3 tokens with an overlap of 1. *)
Definition cfg_chars : embed_config :=
  {| ENC := Some enc_chars;
     sha1_hexdigest := fun s => s;
     embed_content := fun _ _ => None;
     EMBED_MODEL := "embedding-001";
     EMBED_DIM := 4;
     TARGET_TOKENS := 3;
     OVERLAP_TOKENS := 1 |}.

(** The same without tiktoken. *)
Definition cfg_fallback : embed_config :=
  {| ENC := None;
     sha1_hexdigest := fun s => s;
     embed_content := fun _ _ => None;
     EMBED_MODEL := "embedding-001";
     EMBED_DIM := 4;
     TARGET_TOKENS := 3;
     OVERLAP_TOKENS := 1 |}.

(** ** llm_answer.py *)

(** A line break and a double quote. *)
Definition nl : string := String (Ascii.ascii_of_nat 10) "".
Definition dquote : string := String (Ascii.ascii_of_nat 34) "".

(** [sep.join(parts)] *)
Fixpoint str_join (sep : string) (parts : list string) : string :=
  match parts with
  | [] => ""
  | [p] => p
  | p :: ps => p +:+ sep +:+ str_join sep ps
  end.

(** One entry of [sources]. *)
Record source_entry := {
  src_n : Z;
  src_title : string;
  src_snippet : string
}.

(** The body of the loop of [build_prompt_and_sources] for item number [i]:
    the context block and the source entry; [None] stands for the
    [KeyError] of [item['text']]. *)
Definition block_and_source (i : Z) (item : gmap string string)
  : option (string * source_entry) :=
  text ← item !! "text";
  Some ("[" +:+ py_str i +:+ "] " +:+ text,
        {| src_n := i;
           src_title := default "Untitled" (item !! "title");
           src_snippet := str_slice 0 200 text |}).

(** The f-string of the prompt. *)
Definition prompt_of (context query : string) : string :=
  nl +:+
  "You are a factual assistant. Use ONLY the provided context to answer the question." +:+ nl +:+
  "- Always cite sources inline with their numbers (e.g., [1], [2])." +:+ nl +:+
  "- Do not use information outside the context." +:+ nl +:+
  "- If the answer cannot be found in the context, reply: " +:+ dquote +:+
  "I don't know based on the given sources." +:+ dquote +:+ nl +:+
  nl +:+
  "Context:" +:+ nl +:+
  context +:+ nl +:+
  nl +:+
  "Question: " +:+ query +:+ nl +:+
  nl +:+
  "Answer (with inline citations):" +:+ nl.

(** [build_prompt_and_sources(query, top_items)] *)
Definition build_prompt_and_sources (query : string)
    (top_items : list (gmap string string))
  : option (string * list source_entry) :=
  entries ← mapM (fun '(i, item) => block_and_source (Z.of_nat i + 1) item)
                 (imap (fun i item => (i, item)) top_items);
  let context := str_join (nl +:+ nl) (map fst entries) in
  Some (prompt_of context query, map snd entries).

(** ** app.py: answering *)

(** The loop that builds [top_items] from the hits; [None] stands for the
    [AttributeError] of [payload.get] on a hit without payload. *)
Fixpoint top_items_of (hits : list hit) : option (list (gmap string string)) :=
  match hits with
  | [] => Some []
  | h :: hits' =>
      payload ← hit_payload h;
      let text := default "" (payload !! "text") in
      let t := default "Untitled" (payload !! "title") in
      let s := default "unknown" (payload !! "source") in
      rest ← top_items_of hits';
      Some (if bool_decide (text = "") then rest
            else ({[ "text" := text; "title" := t; "source" := s ]} : gmap string string) :: rest)
  end.

(** [part in s] for strings. *)
Definition str_contains (s part : string) : Prop :=
  exists pre post, s = pre +:+ part +:+ post.

(** The item that the loop appends for a hit with the given payload. *)
Definition item_of_payload (payload : gmap string string) : gmap string string :=
  {[ "text" := default "" (payload !! "text");
     "title" := default "Untitled" (payload !! "title");
     "source" := default "unknown" (payload !! "source") ]}.

(** [payload.get("text", "")] of a hit is a non-empty string. *)
Definition has_text (h : hit) : bool :=
  match hit_payload h with
  | Some payload => negb (bool_decide (default "" (payload !! "text") = ""))
  | None => false
  end.

(** ** eval/evaluation.py *)

(** [compute_recall(gold, answer)].  [words s] stands for
    [set(s.lower().split())], the set of the lower-cased words of [s];
    [None] stands for an exception of the division. *)
Definition compute_recall (words : string -> gset string) (gold answer : string)
  : option float :=
  let gold_tokens := words gold in
  let answer_tokens := words answer in
  if bool_decide (gold_tokens = ∅) then Some pzero else
  let overlap := gold_tokens ∩ answer_tokens in
  py_int_truediv (Z.of_nat (size overlap)) (Z.of_nat (size gold_tokens)).

(** A stand-in for [set(s.lower().split())] on the two sample sentences. *)
Definition words_sample (s : string) : gset string :=
  if bool_decide (s = "Qdrant stores vectors") then {[ "qdrant"; "stores"; "vectors" ]}
  else if bool_decide (s = "Vectors live in Qdrant") then {[ "vectors"; "live"; "in"; "qdrant" ]}
  else ∅.

(** * Properties *)

(** ** The constants are the numbers they stand for *)

Example one_is_1 : one = of_Z 1.
Proof. vm_compute. reflexivity. Qed.
Example half_is_1_div_2 : half = fdiv (of_Z 1) (of_Z 2).
Proof. vm_compute. reflexivity. Qed.
Example eps_is_1_div_1e8 : eps = fdiv (of_Z 1) (of_Z 100000000).
Proof. vm_compute. reflexivity. Qed.
Example sentinel_is_minus_1e9 : sentinel = of_Z (-1000000000).
Proof. vm_compute. reflexivity. Qed.
Example f09_is_9_div_10 : f09 = fdiv (of_Z 9) (of_Z 10).
Proof. vm_compute. reflexivity. Qed.
Example f08_is_8_div_10 : f08 = fdiv (of_Z 8) (of_Z 10).
Proof. vm_compute. reflexivity. Qed.

(** ** Binary64: digits and shifts *)

Lemma digits2_pos_size p : digits2_pos p = Pos.size p.
Proof. induction p; simpl; congruence. Qed.

Lemma digits2_pos_log2 p : Z.pos (digits2_pos p) = Z.log2 (Z.pos p) + 1.
Proof.
  rewrite digits2_pos_size. destruct p; simpl; try lia.
Qed.

Lemma digits2_pos_mono p q : (p <= q)%positive -> (digits2_pos p <= digits2_pos q)%positive.
Proof.
  intros H. pose proof (digits2_pos_log2 p). pose proof (digits2_pos_log2 q).
  pose proof (Z.log2_le_mono (Z.pos p) (Z.pos q)). lia.
Qed.

Lemma digits2_pos_iter_xO p d :
  digits2_pos (Pos.iter xO p d) = (digits2_pos p + d)%positive.
Proof.
  induction d using Pos.peano_ind.
  - simpl. lia.
  - rewrite Pos.iter_succ. simpl. rewrite IHd. lia.
Qed.

Lemma shl_align_digits m e e' :
  Z.pos (digits2_pos (fst (shl_align m e e'))) + snd (shl_align m e e')
  = Z.pos (digits2_pos m) + e.
Proof.
  unfold shl_align. destruct (e' - e) eqn:E; simpl; try reflexivity.
  rewrite digits2_pos_iter_xO. lia.
Qed.

Lemma shl_align_snd m e e' : e' <= e -> snd (shl_align m e e') = e'.
Proof.
  intros H. unfold shl_align. destruct (e' - e) eqn:E; simpl; lia.
Qed.

Lemma shr_1_m mrs : 0 <= shr_m mrs -> shr_m (shr_1 mrs) = Z.div2 (shr_m mrs).
Proof.
  destruct mrs as [m r s]. simpl. intros H.
  destruct m as [|[p|p|]|p]; simpl; try reflexivity; lia.
Qed.

Lemma iter_pos_nat {A} (f : A -> A) p x :
  SpecFloat.iter_pos f p x = Nat.iter (Pos.to_nat p) f x.
Proof.
  revert x. induction p as [p IH|p IH|]; intros x.
  - change (SpecFloat.iter_pos f p~1 x)
      with (SpecFloat.iter_pos f p (SpecFloat.iter_pos f p (f x))).
    rewrite !IH, Pos2Nat.inj_xI, Nat.iter_succ_r, <- Nat.iter_add.
    f_equal. lia.
  - change (SpecFloat.iter_pos f p~0 x)
      with (SpecFloat.iter_pos f p (SpecFloat.iter_pos f p x)).
    rewrite !IH, Pos2Nat.inj_xO, <- Nat.iter_add. f_equal. lia.
  - reflexivity.
Qed.

Lemma iter_shr_1_m n mrs :
  0 <= shr_m mrs ->
  shr_m (Nat.iter n shr_1 mrs) = Z.shiftr (shr_m mrs) (Z.of_nat n).
Proof.
  intros H. induction n as [|n IH].
  - simpl. by rewrite Z.shiftr_0_r.
  - rewrite Nat2Z.inj_succ. simpl. rewrite shr_1_m.
    + rewrite IH, Z.div2_spec, Z.shiftr_shiftr by lia.
      f_equal; lia.
    + rewrite IH. apply Z.shiftr_nonneg. exact H.
Qed.

Lemma shr_m_of_loc m l : shr_m (shr_record_of_loc m l) = m.
Proof. destruct l as [|[]]; reflexivity. Qed.

(** Shifting to the target exponent keeps a mantissa positive as long as the
    number is above the smallest subnormal's exponent. *)
Lemma shr_fexp_pos m e l :
  SpecFloat.emin prec emax < Z.pos (digits2_pos m) + e ->
  exists m',
    shr_m (fst (shr_fexp prec emax (Z.pos m) e l)) = Z.pos m' /\
    Z.pos (digits2_pos m') + snd (shr_fexp prec emax (Z.pos m) e l)
    = Z.pos (digits2_pos m) + e.
Proof.
  intros H. unfold shr_fexp, shr. simpl Zdigits2.
  destruct (fexp prec emax (Z.pos (digits2_pos m) + e) - e) as [|p|p] eqn:En;
    simpl fst; simpl snd.
  - exists m. by rewrite shr_m_of_loc.
  - rewrite iter_pos_nat, iter_shr_1_m by (rewrite shr_m_of_loc; lia).
    rewrite shr_m_of_loc, positive_nat_Z.
    pose proof (digits2_pos_log2 m) as Hd.
    assert (Hp : Z.pos p <= Z.log2 (Z.pos m)).
    { unfold fexp, SpecFloat.emin, prec, emax in *. lia. }
    pose proof (Z.shiftr_nonneg (Z.pos m) (Z.pos p)) as Hnn.
    pose proof (Z.shiftr_eq_0_iff (Z.pos m) (Z.pos p)) as Hz.
    pose proof (Z.log2_shiftr (Z.pos m) (Z.pos p)) as Hl.
    destruct (Z.shiftr (Z.pos m) (Z.pos p)) as [|m'|m'] eqn:Es.
    + exfalso. destruct Hz as [Hz _]. destruct (Hz eq_refl) as [?|[_ ?]]; lia.
    + exists m'. split; [reflexivity|].
      rewrite (digits2_pos_log2 m'), Hl by lia. lia.
    + lia.
  - exists m. by rewrite shr_m_of_loc.
Qed.

Lemma round_nearest_even_pos m l :
  exists m', round_nearest_even (Z.pos m) l = Z.pos m' /\ (m <= m')%positive.
Proof.
  destruct l as [|[]]; simpl.
  - exists m. split; [done|lia].
  - destruct m; simpl; eexists; (split; [reflexivity|lia]).
  - exists m. split; [done|lia].
  - exists (m + 1)%positive. split; [done|lia].
Qed.

(** Rounding a positive number above the subnormal range never gives zero
    or NaN. *)
Lemma binary_round_aux_pos s m e l :
  SpecFloat.emin prec emax < Z.pos (digits2_pos m) + e ->
  match binary_round_aux prec emax s (Z.pos m) e l with
  | S754_finite s' _ _ | S754_infinity s' => s' = s
  | _ => False
  end.
Proof.
  intros H. unfold binary_round_aux.
  destruct (shr_fexp_pos m e l H) as (m1 & Hm1 & Hd1).
  destruct (shr_fexp prec emax (Z.pos m) e l) as [mrs1 e1].
  simpl in Hm1, Hd1. rewrite Hm1.
  destruct (round_nearest_even_pos m1 (loc_of_shr_record mrs1)) as (m2 & -> & Hle).
  apply digits2_pos_mono in Hle.
  destruct (shr_fexp_pos m2 e1 loc_Exact) as (m3 & Hm3 & Hd3); [lia|].
  destruct (shr_fexp prec emax (Z.pos m2) e1 loc_Exact) as [mrs2 e2].
  simpl in Hm3. rewrite Hm3. destruct (e2 <=? emax - prec); reflexivity.
Qed.

Lemma binary_round_pos s m e :
  SpecFloat.emin prec emax < Z.pos (digits2_pos m) + e ->
  match binary_round prec emax s m e with
  | S754_finite s' _ _ | S754_infinity s' => s' = s
  | _ => False
  end.
Proof.
  intros H. unfold binary_round.
  pose proof (shl_align_digits m e (fexp prec emax (Z.pos (digits2_pos m) + e))) as Hd.
  destruct (shl_align m e _) as [mz ez]. simpl in Hd.
  apply binary_round_aux_pos. lia.
Qed.

(** The sum of two positive finite numbers, one of them above the subnormal
    range, is positive (or +infinity): it is not zero. *)
Lemma fadd_pos_pos mx ex my ey :
  SpecFloat.emin prec emax < Z.pos (digits2_pos my) + ey ->
  match fadd (S754_finite false mx ex) (S754_finite false my ey) with
  | S754_finite s _ _ | S754_infinity s => s = false
  | _ => False
  end.
Proof.
  intros H. unfold fadd, SFadd, cond_Zopp.
  pose proof (shl_align_digits my ey (Z.min ex ey)) as Hd.
  pose proof (shl_align_snd my ey (Z.min ex ey)) as Hs.
  set (a := fst (shl_align mx ex (Z.min ex ey))) in *.
  set (b := fst (shl_align my ey (Z.min ex ey))) in *.
  change (Z.pos a + Z.pos b) with (Z.pos (a + b)).
  unfold binary_normalize. apply binary_round_pos.
  assert (Hle : (b <= a + b)%positive) by lia.
  apply digits2_pos_mono in Hle. lia.
Qed.

(** ** Binary64: the order of comparisons *)

Ltac split_compare :=
  repeat match goal with
  | |- context [Z.compare ?a ?b] => destruct (Z.compare_spec a b)
  | |- context [Pos.compare_cont Eq ?a ?b] =>
      change (Pos.compare_cont Eq a b) with (Pos.compare a b);
      destruct (Pos.compare_spec a b)
  end.

Lemma fltb_rank x y :
  is_nan x = false -> is_nan y = false ->
  (fltb x y = true <-> rank_lt (rank x) (rank y)).
Proof.
  unfold fltb, SFltb, rank_lt.
  destruct x as [[]|[]| |[] mx ex], y as [[]|[]| |[] my ey]; simpl;
    try discriminate; intros _ _; split_compare; simpl;
    (split; [try discriminate; lia | try reflexivity; lia]).
Qed.

Lemma fltb_not_nan x y : fltb x y = true -> is_nan x = false /\ is_nan y = false.
Proof.
  unfold fltb, SFltb.
  destruct x as [[]|[]| |[] mx ex], y as [[]|[]| |[] my ey]; simpl;
    try discriminate; done.
Qed.

Lemma fltb_asym x y : fltb x y = true -> fltb y x = false.
Proof.
  intros H. destruct (fltb_not_nan _ _ H) as [Hx Hy].
  destruct (fltb y x) eqn:E; [|reflexivity].
  apply fltb_rank in H; [|done..]. apply fltb_rank in E; [|done..].
  unfold rank_lt in *. destruct (rank x) as [[? ?] ?], (rank y) as [[? ?] ?]. lia.
Qed.

Lemma fltb_trans x y z : fltb x y = true -> fltb y z = true -> fltb x z = true.
Proof.
  intros H1 H2. destruct (fltb_not_nan _ _ H1) as [Hx Hy].
  destruct (fltb_not_nan _ _ H2) as [_ Hz].
  apply fltb_rank in H1; [|done..]. apply fltb_rank in H2; [|done..].
  apply fltb_rank; [done..|].
  unfold rank_lt in *.
  destruct (rank x) as [[? ?] ?], (rank y) as [[? ?] ?], (rank z) as [[? ?] ?].
  lia.
Qed.

(** [x >= y] and [y >= z] give [x >= z] when [y] is a number. *)
Lemma fltb_false_trans x y z :
  is_nan y = false ->
  fltb x y = false -> fltb y z = false -> fltb x z = false.
Proof.
  intros Hy H1 H2. destruct (fltb x z) eqn:E; [|reflexivity].
  destruct (fltb_not_nan _ _ E) as [Hx Hz].
  apply fltb_rank in E; [|done..].
  assert (N1 : ~ rank_lt (rank x) (rank y)).
  { intros N. apply fltb_rank in N; [congruence|done..]. }
  assert (N2 : ~ rank_lt (rank y) (rank z)).
  { intros N. apply fltb_rank in N; [congruence|done..]. }
  unfold rank_lt in *.
  destruct (rank x) as [[? ?] ?], (rank y) as [[? ?] ?], (rank z) as [[? ?] ?].
  lia.
Qed.

Lemma feqb_not_lt x y : SFeqb x y = true -> fltb x y = false /\ fltb y x = false.
Proof.
  unfold SFeqb, fltb, SFltb. intros H.
  destruct (SFcompare x y) as [[]|] eqn:E; try discriminate.
  split; [reflexivity|].
  destruct (SFcompare y x) as [[]|] eqn:E'; try reflexivity. exfalso.
  assert (Hlt : fltb y x = true) by (unfold fltb, SFltb; by rewrite E').
  destruct (fltb_not_nan _ _ Hlt) as [Hy Hx].
  apply fltb_rank in Hlt; [|done..].
  revert E Hlt. unfold rank_lt.
  destruct x as [[]|[]| |[] mx ex], y as [[]|[]| |[] my ey]; simpl;
    try discriminate; try lia; split_compare; simpl; try discriminate; lia.
Qed.

(** ** Binary64: multiplying by [1.0] and subtracting a zero *)

Lemma shr_52_exact m :
  SpecFloat.iter_pos shr_1 52
    {| shr_m := Z.pos (Pos.iter xO m 52); shr_r := false; shr_s := false |}
  = {| shr_m := Z.pos m; shr_r := false; shr_s := false |}.
Proof. reflexivity. Qed.

Lemma shr_fexp_52 m e :
  fexp prec emax (Z.pos (digits2_pos m) + e) = e ->
  shr_fexp prec emax (Z.pos (Pos.iter xO m 52)) (-52 + e) loc_Exact
  = ({| shr_m := Z.pos m; shr_r := false; shr_s := false |}, e).
Proof.
  intros Hc. unfold shr_fexp. cbn [Zdigits2].
  rewrite digits2_pos_iter_xO.
  replace (Z.pos (digits2_pos m + 52) + (-52 + e))
    with (Z.pos (digits2_pos m) + e) by lia.
  rewrite Hc. replace (e - (-52 + e)) with 52 by lia.
  unfold shr. cbn [shr_record_of_loc]. rewrite shr_52_exact.
  f_equal. lia.
Qed.

Lemma shr_fexp_canonical m e :
  fexp prec emax (Z.pos (digits2_pos m) + e) = e ->
  shr_fexp prec emax (Z.pos m) e loc_Exact
  = ({| shr_m := Z.pos m; shr_r := false; shr_s := false |}, e).
Proof.
  intros Hc. unfold shr_fexp. cbn [Zdigits2]. rewrite Hc, Z.sub_diag.
  reflexivity.
Qed.

(** [1.0 * x] is [x] for every binary64 value. *)
Lemma fmul_one_l x : valid x = true -> fmul one x = x.
Proof.
  destruct x as [s|s| |s m e]; try reflexivity.
  unfold valid, valid_binary, bounded, canonical_mantissa.
  intros H. apply andb_true_iff in H as [Hc Hb]. apply Z.eqb_eq in Hc.
  unfold fmul, one, SFmul, binary_round_aux. cbn [xorb].
  change (4503599627370496 * m)%positive with (Pos.iter xO m 52).
  rewrite (shr_fexp_52 m e Hc).
  cbn [shr_m loc_of_shr_record round_nearest_even].
  rewrite (shr_fexp_canonical m e Hc). cbn [shr_m]. by rewrite Hb.
Qed.

Lemma value_at_lambda_one q s :
  valid q = true ->
  is_nan (fsub (fmul one q) (fmul (fsub one one) s)) = false ->
  same_number (fsub (fmul one q) (fmul (fsub one one) s)) q.
Proof.
  intros Hq. rewrite (fmul_one_l q Hq).
  change (fsub one one) with pzero. unfold same_number.
  destruct s as [[]|[]| |[] ms es], q as [[]|[]| |[] mq xq];
    simpl; intros H; try discriminate; auto.
Qed.

Lemma same_number_fltb x x' y y' :
  same_number x x' -> same_number y y' -> fltb x y = fltb x' y'.
Proof.
  intros [->|[Hx Hx']] [->|[Hy Hy']]; try reflexivity.
  - destruct y as [[]|[]| |[] my ey], y' as [[]|[]| |[] my' ey'];
      try discriminate; destruct x' as [[]|[]| |[] mx ex]; reflexivity.
  - destruct x as [[]|[]| |[] mx ex], x' as [[]|[]| |[] mx' ex'];
      try discriminate; destruct y' as [[]|[]| |[] my ey]; reflexivity.
  - destruct x as [[]|[]| |[] mx ex], x' as [[]|[]| |[] mx' ex'];
      try discriminate;
    destruct y as [[]|[]| |[] my ey], y' as [[]|[]| |[] my' ey'];
      try discriminate; reflexivity.
Qed.

(** ** The error monad *)

Lemma mapM_Ok {A B} (f : A -> outcome B) (l : list A) (ys : list B) :
  mapM f l = Ok ys <-> Forall2 (fun x y => f x = Ok y) l ys.
Proof.
  revert ys. induction l as [|x l IH]; intros ys; simpl.
  - split.
    + intros [= <-]. constructor.
    + intros H. inversion H. reflexivity.
  - unfold mbind, outcome_bind, mret, outcome_ret.
    destruct (f x) as [y|e] eqn:Ex.
    + destruct (mapM f l) as [ys'|e'] eqn:El.
      * split.
        -- intros [= <-]. constructor; [assumption|]. apply IH. reflexivity.
        -- intros H. inversion H as [|? y0 ? ys0 Hy Hys]; subst.
           apply IH in Hys. congruence.
      * split; [discriminate|].
        intros H. inversion H as [|? y0 ? ys0 Hy Hys]; subst.
        apply IH in Hys. discriminate.
    + split; [discriminate|].
      intros H. inversion H; subst. congruence.
Qed.

Lemma mapM_Raise {A B} (f : A -> outcome B) (l : list A) e :
  mapM f l = Raise e -> exists x, x ∈ l /\ f x = Raise e.
Proof.
  induction l as [|x l IH]; simpl; [discriminate|].
  unfold mbind, outcome_bind, mret, outcome_ret.
  destruct (f x) as [y|e1] eqn:Ex.
  - destruct (mapM f l) as [ys'|e'] eqn:El; [discriminate|].
    intros [= ->]. destruct (IH eq_refl) as (x' & Hin & Hx').
    exists x'. split; [by constructor|assumption].
  - intros [= ->]. exists x. split; [by constructor|assumption].
Qed.

Lemma mapM_total {A B} (f : A -> outcome B) (l : list A) :
  (forall x, x ∈ l -> exists y, f x = Ok y) ->
  exists ys, mapM f l = Ok ys.
Proof.
  intros H. destruct (mapM f l) as [ys|e] eqn:E; [eauto|].
  apply mapM_Raise in E as (x & Hin & Hx).
  destruct (H x Hin) as [y Hy]. congruence.
Qed.

(** ** [max] returns one of its items *)

Lemma py_max_elem xs m : py_max xs = Ok m -> m ∈ xs.
Proof.
  destruct xs as [|x xs]; simpl; [discriminate|]. intros [= <-].
  revert x. induction xs as [|y xs IH]; intros x; simpl.
  - by constructor.
  - specialize (IH (if fgtb y x then y else x)).
    apply elem_of_cons in IH as [->|IH].
    + destruct (fgtb y x); [do 2 constructor|]; by constructor.
    + by do 2 constructor.
Qed.

Lemma py_max_total x xs : exists m, py_max (x :: xs) = Ok m.
Proof. simpl. eauto. Qed.

(** ** Indexing and slicing *)

Lemma py_index_in_range {A} (l : list A) i :
  in_range l i -> exists x, py_index l i = Ok x.
Proof.
  unfold in_range, py_index. intros H.
  set (j := if i <? 0 then i + Z.of_nat (length l) else i).
  assert (Hj : 0 <= j < Z.of_nat (length l)).
  { unfold j. destruct (Z.ltb_spec i 0); lia. }
  replace ((0 <=? j) && (j <? Z.of_nat (length l))) with true
    by (symmetry; apply andb_true_iff; split; [apply Z.leb_le|apply Z.ltb_lt]; lia).
  destruct (lookup_lt_is_Some_2 l (Z.to_nat j)) as [x Hx]; [lia|].
  rewrite Hx. eauto.
Qed.

Lemma py_index_out_of_range {A} (l : list A) i :
  ~ in_range l i -> py_index l i = Raise IndexError.
Proof.
  unfold in_range, py_index. intros H.
  set (j := if i <? 0 then i + Z.of_nat (length l) else i).
  assert (Hj : ~ (0 <= j < Z.of_nat (length l))).
  { unfold j. destruct (Z.ltb_spec i 0); lia. }
  destruct ((0 <=? j) && (j <? Z.of_nat (length l))) eqn:E; [|reflexivity].
  apply andb_true_iff in E as [E1 E2].
  apply Z.leb_le in E1. apply Z.ltb_lt in E2. lia.
Qed.

Lemma py_index_map {A B} (f : A -> B) (l : list A) i :
  py_index (map f l) i
  = match py_index l i with Ok x => Ok (f x) | Raise e => Raise e end.
Proof.
  unfold py_index. rewrite length_map.
  destruct (_ && _); [|reflexivity].
  change (map f l) with (f <$> l). rewrite list_lookup_fmap.
  destruct (l !! _); reflexivity.
Qed.

Lemma mapM_py_index_map {A B R} (f : A -> B) (g : R -> Z) (l : list A) top :
  mapM (fun r => py_index (map f l) (g r)) top
  = match mapM (fun r => py_index l (g r)) top with
    | Ok xs => Ok (map f xs)
    | Raise e => Raise e
    end.
Proof.
  induction top as [|r top IH]; simpl; [reflexivity|].
  rewrite py_index_map, IH. unfold mbind, outcome_bind, mret, outcome_ret.
  destruct (py_index l (g r)); [|reflexivity].
  destruct (mapM (fun r => py_index l (g r)) top); reflexivity.
Qed.

Lemma py_slice_to_nonneg {A} (n : Z) (l : list A) :
  0 <= n -> py_slice_to n l = take (Z.to_nat n) l.
Proof. intros H. unfold py_slice_to. destruct (Z.ltb_spec n 0); [lia|done]. Qed.

Lemma py_slice_to_length {A} (n : Z) (l : list A) :
  0 <= n -> Z.of_nat (length (py_slice_to n l)) <= n.
Proof. intros H. rewrite py_slice_to_nonneg, length_take by done. lia. Qed.

(** ** Stable descending sort *)

Section Sorting.
Context {A : Type} (key : A -> float).

Lemma insert_desc_perm x l : insert_desc key x l ≡ₚ x :: l.
Proof.
  induction l as [|y l IH]; simpl; [done|].
  destruct (fltb (key x) (key y)); [|done].
  rewrite IH. apply Permutation_swap.
Qed.

Lemma sorted_desc_perm l : sorted_desc key l ≡ₚ l.
Proof.
  induction l as [|x l IH]; simpl; [done|].
  by rewrite insert_desc_perm, IH.
Qed.

Lemma insert_desc_ordered pos x s :
  Forall (fun y => is_nan (key y) = false) s ->
  StronglySorted (ordered key pos) s ->
  Forall (pos x) s ->
  StronglySorted (ordered key pos) (insert_desc key x s).
Proof.
  induction s as [|y s IH]; intros Hnan Hs Hpos; simpl.
  - repeat constructor.
  - apply StronglySorted_inv in Hs as [Hs Hy].
    apply Forall_cons in Hnan as [Hny Hnan].
    apply Forall_cons in Hpos as [Hpy Hpos].
    destruct (fltb (key x) (key y)) eqn:E.
    + constructor; [by apply IH|].
      rewrite insert_desc_perm. constructor; [|exact Hy].
      split; [by apply fltb_asym|]. congruence.
    + constructor; [by constructor|].
      constructor; [by split|].
      rewrite Forall_forall in Hy, Hpos |- *. intros z Hz. split.
      * apply (fltb_false_trans _ (key y)); [done..|]. by apply Hy.
      * intros _. by apply Hpos.
Qed.

(** The result is in descending order of the keys, and entries with equal
    keys are in the order of the input. *)
Lemma sorted_desc_ordered pos l :
  Forall (fun y => is_nan (key y) = false) l ->
  StronglySorted pos l ->
  StronglySorted (ordered key pos) (sorted_desc key l).
Proof.
  induction l as [|x l IH]; intros Hnan Hs; simpl; [constructor|].
  apply StronglySorted_inv in Hs as [Hs Hx].
  apply Forall_cons in Hnan as [_ Hnan].
  apply insert_desc_ordered.
  - by rewrite sorted_desc_perm.
  - by apply IH.
  - by rewrite sorted_desc_perm.
Qed.

End Sorting.

Lemma StronglySorted_lookup {A} (R : A -> A -> Prop) l i j x y :
  StronglySorted R l -> (i < j)%nat ->
  l !! i = Some x -> l !! j = Some y -> R x y.
Proof.
  intros Hs. revert i j. induction Hs as [|a l Hs IH Ha]; intros i j Hij Hi Hj.
  - done.
  - destruct j as [|j]; [lia|]. simpl in Hj. destruct i as [|i].
    + injection Hi as <-. rewrite Forall_forall in Ha.
      apply Ha. eapply list_elem_of_lookup_2. exact Hj.
    + simpl in Hi. apply (IH i j); [lia|done..].
Qed.

Lemma StronglySorted_take {A} (R : A -> A -> Prop) n l :
  StronglySorted R l -> StronglySorted R (take n l).
Proof.
  intros H. rewrite <- (take_drop n l) in H.
  by apply StronglySorted_app_1_l in H.
Qed.

Lemma py_slice_to_prefix {A} (n : Z) (l : list A) :
  exists m, py_slice_to n l = take m l.
Proof. unfold py_slice_to. destruct (n <? 0); eauto. Qed.

(** ** The greatest key, first among equals *)

Lemma argmax_None ks : argmax ks = None -> ks = [].
Proof.
  destruct ks as [|k ks]; [done|]. simpl.
  destruct (argmax ks) as [[j m]|]; [|discriminate].
  destruct (fltb k m); discriminate.
Qed.

Lemma scan_keys_argmax ks i bi bv :
  Forall (fun k => is_nan k = false) ks ->
  scan_keys ks i bi bv
  = match argmax ks with
    | None => bi
    | Some (j, m) => if fgtb m bv then Some (i + j)%nat else bi
    end.
Proof.
  revert i bi bv. induction ks as [|k ks IH]; intros i bi bv Hnan; [done|].
  apply Forall_cons in Hnan as [Hk Hnan]. simpl.
  rewrite !IH by done. unfold fgtb. change SFltb with fltb.
  destruct (argmax ks) as [[j m]|].
  - destruct (fltb bv k) eqn:E1, (fltb k m) eqn:E2.
    + rewrite (fltb_trans _ _ _ E1 E2). f_equal. lia.
    + rewrite E1. f_equal. lia.
    + destruct (fltb bv m); [f_equal; lia|done].
    + rewrite E1. by rewrite (fltb_false_trans bv k m Hk E1 E2).
  - destruct (fltb bv k); [f_equal; lia|done].
Qed.

Lemma sorted_desc_argmax {A} (key : A -> float) l j m :
  argmax (map key l) = Some (j, m) ->
  exists x, l !! j = Some x /\ key x = m /\
            sorted_desc key l = x :: sorted_desc key (delete j l).
Proof.
  revert j m. induction l as [|x l IH]; intros j m; simpl; [discriminate|].
  destruct (argmax (map key l)) as [[j' m']|] eqn:E.
  - destruct (IH j' m' eq_refl) as (x' & Hx' & Hk' & Hs).
    destruct (fltb (key x) m') eqn:Hlt; intros [= <- <-].
    + exists x'. split; [exact Hx'|]. split; [exact Hk'|].
      rewrite Hs. simpl. by rewrite Hk', Hlt.
    + exists x. split; [done|]. split; [done|].
      rewrite Hs. simpl. rewrite Hk', Hlt. by rewrite <- Hs.
  - intros [= <- <-]. apply argmax_None in E.
    destruct l; [|discriminate]. by exists x.
Qed.

(** ** Binary64: signs *)

Lemma binary_round_aux_sign s m e l :
  match binary_round_aux prec emax s m e l with
  | S754_nan => True
  | S754_zero s' | S754_infinity s' | S754_finite s' _ _ => s' = s
  end.
Proof.
  unfold binary_round_aux.
  destruct (shr_fexp prec emax m e l) as [mrs1 e1].
  destruct (shr_fexp prec emax _ e1 loc_Exact) as [mrs2 e2].
  destruct (shr_m mrs2); [reflexivity| |exact I].
  destruct (e2 <=? emax - prec); reflexivity.
Qed.

Lemma binary_round_aux_nonneg m e l :
  nonneg (binary_round_aux prec emax false m e l) = true.
Proof.
  pose proof (binary_round_aux_sign false m e l) as H.
  destruct (binary_round_aux prec emax false m e l); simpl; by subst.
Qed.

Lemma fmul_nonneg x y : nonneg x = true -> nonneg y = true -> nonneg (fmul x y) = true.
Proof.
  destruct x as [[]|[]| |[] mx ex], y as [[]|[]| |[] my ey]; simpl;
    try discriminate; try reflexivity.
  intros _ _. apply binary_round_aux_nonneg.
Qed.

Lemma fmul_square_nonneg x : nonneg (fmul x x) = true.
Proof.
  destruct x as [[]|[]| |[] mx ex]; simpl; try reflexivity;
    apply binary_round_aux_nonneg.
Qed.

Lemma fadd_nonneg x y : nonneg x = true -> nonneg y = true -> nonneg (fadd x y) = true.
Proof.
  destruct x as [[]|[]| |[] mx ex], y as [[]|[]| |[] my ey]; simpl;
    try discriminate; try reflexivity.
  intros _ _. unfold binary_round.
  destruct (shl_align _ _ _) as [mz ez]. apply binary_round_aux_nonneg.
Qed.

Lemma fsqrt_nonneg x : nonneg x = true -> nonneg (fsqrt x) = true.
Proof.
  destruct x as [[]|[]| |[] mx ex]; simpl; try discriminate; try reflexivity.
  intros _. destruct (SFsqrt_core_binary prec emax (Z.pos mx) ex) as [[mz ez] lz].
  apply binary_round_aux_nonneg.
Qed.

Lemma py_sum_nonneg xs :
  Forall (fun x => nonneg x = true) xs -> nonneg (py_sum xs) = true.
Proof.
  unfold py_sum. generalize pzero (eq_refl : nonneg pzero = true).
  induction xs as [|x xs IH]; intros acc Hacc Hxs; simpl; [exact Hacc|].
  inversion Hxs; subst. apply IH; [|assumption]. by apply fadd_nonneg.
Qed.

Lemma sum_of_squares_nonneg a : nonneg (py_sum (map (fun x => fmul x x) a)) = true.
Proof.
  apply py_sum_nonneg, Forall_forall. intros y Hy.
  apply list_elem_of_In, in_map_iff in Hy as (x & <- & _).
  apply fmul_square_nonneg.
Qed.

Lemma math_sqrt_nonneg x : nonneg x = true -> math_sqrt x = Ok (fsqrt x).
Proof.
  unfold math_sqrt. destruct x as [[]|[]| |[] mx ex]; simpl; try discriminate;
    reflexivity.
Qed.

(** Adding [1e-8] to a number that is not negative never gives zero. *)
Lemma fadd_eps_nonzero x : nonneg x = true -> is_zero (fadd x eps) = false.
Proof.
  intros Hx.
  destruct x as [[]|[]| |[] mx ex]; simpl in Hx; try discriminate;
    try reflexivity.
  assert (H : SpecFloat.emin prec emax
              < Z.pos (digits2_pos 6044629098073146) + -79) by reflexivity.
  apply (fadd_pos_pos mx ex) in H. fold eps in H.
  destruct (fadd (S754_finite false mx ex) eps); done.
Qed.

(** ** Similarity *)

Lemma cosine_denominator_nonzero a b :
  is_zero (fadd (fmul (fsqrt (py_sum (map (fun x => fmul x x) a)))
                      (fsqrt (py_sum (map (fun x => fmul x x) b)))) eps)
  = false.
Proof.
  apply fadd_eps_nonzero, fmul_nonneg; apply fsqrt_nonneg, sum_of_squares_nonneg.
Qed.

(** C5: for all float vectors [a] and [b] (of equal length or not, with a
    zero norm or not, even with infinities or NaN among the entries)
    [_cosine(a, b)] returns a float: no square root of a negative number is
    taken and the denominator [na * nb + 1e-8] is never zero, so the division
    does not raise. *)
Theorem C5_cosine_never_divides_by_zero (a b : list float) :
  _cosine (Some a) (Some b)
  = Ok (fdiv (py_sum (zip_with fmul a b))
             (fadd (fmul (fsqrt (py_sum (map (fun x => fmul x x) a)))
                         (fsqrt (py_sum (map (fun x => fmul x x) b)))) eps)).
Proof.
  unfold _cosine.
  rewrite !math_sqrt_nonneg by apply sum_of_squares_nonneg.
  unfold mbind, outcome_bind, py_truediv.
  by rewrite cosine_denominator_nonzero.
Qed.

(** ** The loop of [mmr], one round at a time *)

Lemma mmr_loop_eq k lamb selected remaining :
  mmr_loop k lamb selected remaining =
  if (Z.of_nat (length selected) <? k) && negb (bool_decide (remaining = []))
  then match mmr_round lamb selected remaining with
       | Raise e => Raise e
       | Ok (c, rest) => mmr_loop k lamb (selected ++ [c]) rest
       end
  else Ok selected.
Proof.
  simp mmr_loop.
  destruct ((Z.of_nat (length selected) <? k) && negb (bool_decide (remaining = [])));
    simpl; [|reflexivity].
  destruct (mmr_round lamb selected remaining) as [[c rest]|e]; reflexivity.
Qed.

(** ** The scan for the best remaining candidate *)

Lemma mmr_scan_range lamb sel rem i bi bv r :
  mmr_scan lamb sel rem i bi bv = Ok r ->
  r = bi \/ exists j, r = Some j /\ (i <= j < i + length rem)%nat.
Proof.
  revert i bi bv. induction rem as [|c rem IH]; intros i bi bv; simpl.
  - intros [= <-]. by left.
  - unfold mbind, outcome_bind.
    destruct (mmr_val lamb sel c) as [v|e]; [|discriminate].
    destruct (fgtb v bv); intros H; apply IH in H as [->|(j & -> & Hj)].
    + right. exists i. split; [done|lia].
    + right. exists j. split; [done|lia].
    + by left.
    + right. exists j. split; [done|lia].
Qed.

Lemma mmr_scan_total lamb sel rem i bi bv :
  (forall c, c ∈ rem -> exists v, mmr_val lamb sel c = Ok v) ->
  exists r, mmr_scan lamb sel rem i bi bv = Ok r.
Proof.
  revert i bi bv. induction rem as [|c rem IH]; intros i bi bv H; simpl.
  - eauto.
  - destruct (H c) as [v Hv]; [by constructor|]. rewrite Hv. simpl.
    destruct (fgtb v bv); apply IH; intros c' Hc'; apply H; by constructor.
Qed.

(** When the first candidate's value exceeds the starting [best_val], the
    scan ends with an index of [remaining]. *)
Lemma mmr_scan_finds lamb sel c rem v :
  mmr_val lamb sel c = Ok v -> fgtb v sentinel = true ->
  (forall c', c' ∈ rem -> exists v', mmr_val lamb sel c' = Ok v') ->
  exists j, mmr_scan lamb sel (c :: rem) 0 None sentinel = Ok (Some j)
            /\ (j < length (c :: rem))%nat.
Proof.
  intros Hv Hgt Hrem. simpl. rewrite Hv. simpl. rewrite Hgt.
  destruct (mmr_scan_total lamb sel rem 1 (Some 0%nat) v Hrem) as [r Hr].
  rewrite Hr. apply mmr_scan_range in Hr as [->|(j & -> & Hj)].
  - exists 0%nat. split; [done|lia].
  - exists j. split; [done|lia].
Qed.

Lemma mmr_round_inv lamb sel rem c rest :
  mmr_round lamb sel rem = Ok (c, rest) ->
  exists i, rem !! i = Some c /\ rest = delete i rem.
Proof.
  unfold mmr_round, mbind, outcome_bind.
  destruct (mmr_scan lamb sel rem 0 None sentinel) as [[i|]|]; simpl;
    try discriminate.
  destruct (rem !! i) eqn:E; [|discriminate].
  intros [= <- <-]. eauto.
Qed.

Lemma delete_Permutation_cons {A} (l : list A) i x :
  l !! i = Some x -> l ≡ₚ x :: delete i l.
Proof. intros H. by apply delete_Permutation. Qed.

(** ** Candidates without a vector *)

(** C1 (the code departs from it): two candidates whose vector is [None],
    [k = 2]: the first round picks "a" without looking at any vector, the
    second round calls [_cosine(None, None)] and [mmr] raises [TypeError]
    instead of returning an empty Selection. *)
Theorem C1_mmr_raises_on_missing_vectors :
  mmr [mk_candidate "a" f09 None; mk_candidate "b" f08 None] 2 half
  = Raise TypeError.
Proof. vm_compute. reflexivity. Qed.

(** With [k = 1] the candidate without a vector is selected, not excluded. *)
Lemma mmr_keeps_missing_vector :
  mmr [mk_candidate "a" f09 None; mk_candidate "b" f08 None] 1 half
  = Ok [mk_candidate "a" f09 None].
Proof. vm_compute. reflexivity. Qed.

Lemma mmr_loop_continue k lamb sel rem c rest :
  Z.of_nat (length sel) < k -> rem <> [] ->
  mmr_round lamb sel rem = Ok (c, rest) ->
  mmr_loop k lamb sel rem = mmr_loop k lamb (sel ++ [c]) rest.
Proof.
  intros Hk Hne Hr. rewrite mmr_loop_eq, Hr.
  apply Z.ltb_lt in Hk. rewrite Hk. by rewrite bool_decide_eq_false_2.
Qed.

Lemma mmr_loop_raises k lamb sel rem e :
  Z.of_nat (length sel) < k -> rem <> [] ->
  mmr_round lamb sel rem = Raise e ->
  mmr_loop k lamb sel rem = Raise e.
Proof.
  intros Hk Hne Hr. rewrite mmr_loop_eq, Hr.
  apply Z.ltb_lt in Hk. rewrite Hk. by rewrite bool_decide_eq_false_2.
Qed.

(** The crash is systematic: as soon as two candidates without a vector are
    to be selected, the second round raises. *)
Lemma mmr_raises_without_vectors cands k lamb :
  Forall (fun c => cand_vector c = None) cands ->
  Forall (fun c => fgtb (mmr_value lamb c pzero) sentinel = true) cands ->
  (2 <= length cands)%nat -> 2 <= k ->
  mmr cands k lamb = Raise TypeError.
Proof.
  intros Hnone Hgt Hlen Hk. unfold mmr.
  destruct cands as [|c0 cands]; [simpl in Hlen; lia|].
  rewrite Forall_forall in Hgt.
  destruct (mmr_scan_finds lamb [] c0 cands (mmr_value lamb c0 pzero))
    as (j & Hj & Hlt); [done|apply Hgt; by constructor|by eauto|].
  destruct (lookup_lt_is_Some_2 (c0 :: cands) j Hlt) as [x Hx].
  rewrite (mmr_loop_continue k lamb [] (c0 :: cands) x (delete j (c0 :: cands)));
    [|simpl; lia|done|].
  2:{ unfold mmr_round. rewrite Hj. simpl. by rewrite Hx. }
  pose proof (length_delete (c0 :: cands) j (ex_intro _ x Hx)) as Hdel.
  pose proof (delete_Permutation_cons (c0 :: cands) j x Hx) as Hperm.
  destruct (delete j (c0 :: cands)) as [|c rest]; [simpl in Hlen, Hdel; lia|].
  apply mmr_loop_raises; [simpl; lia|done|].
  assert (Hc : cand_vector c = None).
  { rewrite Forall_forall in Hnone. apply Hnone. rewrite Hperm.
    by do 2 constructor. }
  unfold mmr_round. simpl. unfold mmr_val. simpl. rewrite Hc. reflexivity.
Qed.

(** ** What [mmr] returns is drawn from its input, each entry once *)

Lemma mmr_loop_submseteq k lamb n :
  forall rem sel out, (length rem <= n)%nat ->
  mmr_loop k lamb sel rem = Ok out -> out ⊆+ sel ++ rem.
Proof.
  induction n as [|n IH]; intros rem sel out Hn; rewrite mmr_loop_eq.
  - destruct rem; [|simpl in Hn; lia]. rewrite andb_false_r.
    intros [= <-]. by rewrite app_nil_r.
  - destruct (_ && _).
    + destruct (mmr_round lamb sel rem) as [[c rest]|e] eqn:E; [|discriminate].
      apply mmr_round_inv in E as (i & Hi & ->).
      intros H. apply IH in H.
      * rewrite H. rewrite <- app_assoc. simpl.
        apply submseteq_app; [done|].
        by rewrite <- delete_Permutation_cons.
      * rewrite length_delete by eauto. lia.
    + intros [= <-]. by apply submseteq_inserts_r.
Qed.

Lemma mmr_submseteq cands k lamb sel :
  mmr cands k lamb = Ok sel -> sel ⊆+ cands.
Proof. intros H. by apply (mmr_loop_submseteq k lamb (length cands)) in H. Qed.

(** C3, as amended: when the ids of the input are pairwise distinct, the
    Selection that [mmr] returns has no two entries with the same id.
    ([mmr] never compares ids; it only never picks an entry twice.) *)
Theorem C3_distinct_ids_stay_distinct cands k lamb sel :
  NoDup (cand_id <$> cands) ->
  mmr cands k lamb = Ok sel ->
  NoDup (cand_id <$> sel).
Proof.
  intros Hnd H. apply mmr_submseteq in H.
  apply (fmap_submseteq cand_id) in H.
  apply submseteq_Permutation in H as [rest H].
  rewrite H in Hnd. by apply NoDup_app in Hnd as [? _].
Qed.

Lemma C3_witness :
  NoDup (cand_id <$> [mk_candidate "a" f09 (Some [one]); mk_candidate "b" f08 (Some [one])]).
Proof.
  apply (C3_distinct_ids_stay_distinct
           [mk_candidate "b" f08 (Some [one]); mk_candidate "a" f09 (Some [one])]
           2 half).
  - simpl. apply NoDup_cons. split; [|apply NoDup_singleton].
    rewrite list_elem_of_singleton. discriminate.
  - vm_compute. reflexivity.
Defined.

(** C3 as stated fails: two input entries that share the id "a" are both
    selected. *)
Lemma C3_counterexample :
  let c1 := mk_candidate "a" f09 (Some [one]) in
  let c2 := mk_candidate "a" f08 (Some [one]) in
  mmr [c1; c2] 2 half = Ok [c1; c2] /\ ~ NoDup (cand_id <$> [c1; c2]).
Proof.
  split; [vm_compute; reflexivity|].
  simpl. intros H. apply NoDup_cons in H as [H _]. apply H. by constructor.
Qed.

(** ** Candidates whose values stay above the sentinel *)

Lemma above_sentinel_spec lamb cands :
  above_sentinel lamb cands = true ->
  forall c, c ∈ cands ->
    fgtb (mmr_value lamb c pzero) sentinel = true /\
    forall s, s ∈ cands ->
      exists v, _cosine (cand_vector c) (cand_vector s) = Ok v
                /\ fgtb (mmr_value lamb c v) sentinel = true.
Proof.
  unfold above_sentinel. rewrite forallb_forall.
  intros H c Hc. apply list_elem_of_In, H in Hc.
  apply andb_true_iff in Hc as [H0 Hs]. split; [exact H0|].
  intros s Hin. rewrite forallb_forall in Hs.
  apply list_elem_of_In, Hs in Hin.
  destruct (_cosine (cand_vector c) (cand_vector s)) as [v|e];
    [eauto|discriminate].
Qed.

Lemma mmr_val_above lamb cands sel c :
  above_sentinel lamb cands = true ->
  (forall s, s ∈ sel -> s ∈ cands) -> c ∈ cands ->
  exists v, mmr_val lamb sel c = Ok v /\ fgtb v sentinel = true.
Proof.
  intros Habove Hsel Hc.
  destruct (above_sentinel_spec _ _ Habove c Hc) as [H0 Hs].
  unfold mmr_val, sim_sel. destruct sel as [|s0 rest]; [simpl; eauto|].
  destruct (mapM_total (fun s => _cosine (cand_vector c) (cand_vector s))
              (s0 :: rest)) as [xs Hxs].
  { intros s Hin. destruct (Hs s) as (v & Hv & _); [by apply Hsel|eauto]. }
  rewrite Hxs. apply mapM_Ok in Hxs.
  destruct xs as [|x xs]; [by inversion Hxs|].
  destruct (py_max_total x xs) as [m Hm].
  cbn [mbind outcome_bind]. rewrite Hm. eexists. split; [reflexivity|].
  apply py_max_elem, list_elem_of_lookup in Hm as [j Hj].
  destruct (Forall2_lookup_r _ _ _ _ _ Hxs Hj) as (s & Hsj & Hcos).
  destruct (Hs s) as (x' & Hx' & Hgt).
  { apply Hsel. eapply list_elem_of_lookup_2. exact Hsj. }
  congruence.
Qed.

Lemma mmr_round_total lamb cands sel rem :
  above_sentinel lamb cands = true ->
  (forall c, c ∈ sel ++ rem -> c ∈ cands) -> rem <> [] ->
  exists c rest, mmr_round lamb sel rem = Ok (c, rest).
Proof.
  intros Habove Hin Hne. destruct rem as [|c rem]; [done|].
  assert (Hval : forall c', c' ∈ c :: rem ->
            exists v, mmr_val lamb sel c' = Ok v /\ fgtb v sentinel = true).
  { intros c' Hc'. eapply mmr_val_above; [exact Habove| |].
    - intros s Hs. apply Hin, elem_of_app. by left.
    - apply Hin, elem_of_app. by right. }
  destruct (Hval c) as (v & Hv & Hgt); [by constructor|].
  destruct (mmr_scan_finds lamb sel c rem v Hv Hgt) as (j & Hj & Hlt).
  { intros c' Hc'. destruct (Hval c') as (v' & Hv' & _); [by constructor|eauto]. }
  unfold mmr_round. rewrite Hj. simpl.
  destruct (lookup_lt_is_Some_2 (c :: rem) j Hlt) as [x Hx].
  change (c :: rem) with ([c] ++ rem) in Hx |- *. simpl in *. rewrite Hx. eauto.
Qed.

Lemma mmr_loop_length lamb cands k n :
  above_sentinel lamb cands = true ->
  forall rem sel, (length rem <= n)%nat ->
  (forall c, c ∈ sel ++ rem -> c ∈ cands) ->
  exists out, mmr_loop k lamb sel rem = Ok out /\
    Z.of_nat (length out)
    = Z.max (Z.of_nat (length sel))
            (Z.min k (Z.of_nat (length sel) + Z.of_nat (length rem))).
Proof.
  intros Habove. induction n as [|n IH]; intros rem sel Hn Hin;
    rewrite mmr_loop_eq.
  - destruct rem; [|simpl in Hn; lia]. rewrite andb_false_r.
    eexists. split; [reflexivity|]. simpl. lia.
  - destruct (_ && _) eqn:Hcond.
    + apply andb_true_iff in Hcond as [Hk Hne].
      apply Z.ltb_lt in Hk. apply negb_true_iff, bool_decide_eq_false in Hne.
      destruct (mmr_round_total lamb cands sel rem Habove Hin Hne)
        as (c & rest & Hround).
      rewrite Hround. apply mmr_round_inv in Hround as (i & Hi & ->).
      pose proof (lookup_lt_Some _ _ _ Hi) as Hlt.
      destruct (IH (delete i rem) (sel ++ [c])) as (out & Hout & Hlen).
      * rewrite length_delete by eauto. lia.
      * intros c' Hc'. apply Hin.
        rewrite <- app_assoc in Hc'. simpl in Hc'.
        rewrite <- (delete_Permutation_cons rem i c Hi) in Hc'. exact Hc'.
      * exists out. split; [exact Hout|]. rewrite Hlen.
        rewrite length_app, length_delete by eauto. simpl. lia.
    + eexists. split; [reflexivity|].
      apply andb_false_iff in Hcond as [Hk|Hne].
      * apply Z.ltb_ge in Hk. lia.
      * apply negb_false_iff, bool_decide_eq_true in Hne. subst. simpl. lia.
Qed.

(** C2, as amended: when every candidate has a vector and every value stays
    above the [-1e9] sentinel, [mmr] returns, for every [k >= 0] and every
    [lamb], a Selection of [min(k, len(candidates))] entries drawn from the
    candidates, each at most once; so all of them when [k] is at least the
    pool size. *)
Theorem C2_length_is_min_k_pool cands k lamb :
  0 <= k ->
  above_sentinel lamb cands = true ->
  exists sel, mmr cands k lamb = Ok sel /\
    Z.of_nat (length sel) = Z.min k (Z.of_nat (length cands)) /\
    sel ⊆+ cands /\
    (Z.of_nat (length cands) <= k -> sel ≡ₚ cands).
Proof.
  intros Hk Habove.
  destruct (mmr_loop_length lamb cands k (length cands) Habove cands [])
    as (sel & Hsel & Hlen); [lia|done|].
  exists sel. pose proof (mmr_submseteq _ _ _ _ Hsel) as Hsub.
  simpl in Hlen. split; [exact Hsel|]. split; [lia|]. split; [exact Hsub|].
  intros Hge. apply submseteq_length_Permutation; [exact Hsub|lia].
Qed.

Lemma C2_witness :
  exists sel,
    mmr [mk_candidate "a" f09 (Some [one; pzero]);
         mk_candidate "b" f08 (Some [one; one])] 5 half = Ok sel /\
    Z.of_nat (length sel) = Z.min 5 2 /\
    sel ⊆+ [mk_candidate "a" f09 (Some [one; pzero]);
            mk_candidate "b" f08 (Some [one; one])] /\
    (2 <= 5 -> sel ≡ₚ [mk_candidate "a" f09 (Some [one; pzero]);
                        mk_candidate "b" f08 (Some [one; one])]).
Proof.
  apply (C2_length_is_min_k_pool
           [mk_candidate "a" f09 (Some [one; pzero]);
            mk_candidate "b" f08 (Some [one; one])] 5 half).
  - lia.
  - vm_compute. reflexivity.
Defined.

(** C2 as stated fails.  First, a single candidate without a vector is not
    eligible, yet with [k = 1] it is returned: one entry where
    [min(k, eligible)] is 0.  Second, a candidate with a vector whose score
    is below the sentinel is eligible, yet with [k = 1] no Selection of one
    entry is returned: [remaining.pop(None)] raises. *)
Lemma C2_counterexample :
  let c := mk_candidate "a" f09 None in
  let d := mk_candidate "d" (of_Z (-2000000000)) (Some [one]) in
  (mmr [c] 1 half = Ok [c] /\
   length (filter (fun c => is_Some (cand_vector c)) [c]) = 0%nat /\
   Z.of_nat (length [c]) <> Z.min 1 0) /\
  (length (filter (fun c => is_Some (cand_vector c)) [d]) = 1%nat /\
   mmr [d] 1 half = Raise TypeError).
Proof.
  split.
  - split; [vm_compute; reflexivity|]. split; [reflexivity|]. simpl. lia.
  - split; vm_compute; reflexivity.
Qed.

(** ** [mmr] with [lamb = 1.0] *)

Lemma mmr_val_form lamb sel c v :
  mmr_val lamb sel c = Ok v -> exists s, v = mmr_value lamb c s.
Proof.
  unfold mmr_val, mbind, outcome_bind.
  destruct (sim_sel sel c) as [s|e]; [|discriminate].
  intros [= <-]. eauto.
Qed.

Lemma mmr_val_lambda_one cands sel c :
  above_sentinel one cands = true ->
  Forall (fun c => valid (sim_q c) = true) cands ->
  (forall s, s ∈ sel -> s ∈ cands) -> c ∈ cands ->
  exists v, mmr_val one sel c = Ok v /\ same_number v (sim_q c) /\
            fgtb (sim_q c) sentinel = true.
Proof.
  intros Habove Hvalid Hsel Hc.
  destruct (mmr_val_above one cands sel c Habove Hsel Hc) as (v & Hv & Hgt).
  exists v. split; [exact Hv|].
  apply mmr_val_form in Hv as [s ->].
  rewrite Forall_forall in Hvalid.
  assert (Hsame : same_number (mmr_value one c s) (sim_q c)).
  { apply value_at_lambda_one; [by apply Hvalid|].
    by apply fltb_not_nan in Hgt as [_ ?]. }
  split; [exact Hsame|].
  unfold fgtb in *. change SFltb with fltb in *.
  by rewrite <- (same_number_fltb sentinel sentinel _ _ (or_introl eq_refl) Hsame).
Qed.

Lemma mmr_scan_keys lamb sel rem i bi bv bv' :
  (forall c, c ∈ rem ->
     exists v, mmr_val lamb sel c = Ok v /\ same_number v (sim_q c)) ->
  same_number bv bv' ->
  mmr_scan lamb sel rem i bi bv = Ok (scan_keys (map sim_q rem) i bi bv').
Proof.
  revert i bi bv bv'. induction rem as [|c rem IH]; intros i bi bv bv' H Hb;
    simpl; [done|].
  destruct (H c) as (v & Hv & Hsame); [by constructor|]. rewrite Hv. simpl.
  unfold fgtb. change SFltb with fltb.
  rewrite (same_number_fltb bv bv' v (sim_q c) Hb Hsame).
  destruct (fltb bv' (sim_q c)); apply IH; try done;
    intros c' Hc'; apply H; by constructor.
Qed.

Lemma mmr_round_lambda_one cands sel rem :
  above_sentinel one cands = true ->
  Forall (fun c => valid (sim_q c) = true) cands ->
  (forall c, c ∈ sel ++ rem -> c ∈ cands) -> rem <> [] ->
  exists j x, rem !! j = Some x /\
    mmr_round one sel rem = Ok (x, delete j rem) /\
    sorted_desc sim_q rem = x :: sorted_desc sim_q (delete j rem).
Proof.
  intros Habove Hvalid Hin Hne.
  assert (Hval : forall c, c ∈ rem ->
            exists v, mmr_val one sel c = Ok v /\ same_number v (sim_q c) /\
                      fgtb (sim_q c) sentinel = true).
  { intros c Hc. apply (mmr_val_lambda_one cands); try done.
    - intros s Hs. apply Hin, elem_of_app. by left.
    - apply Hin, elem_of_app. by right. }
  unfold mmr_round.
  rewrite (mmr_scan_keys one sel rem 0 None sentinel sentinel).
  2:{ intros c Hc. destruct (Hval c Hc) as (v & ? & ? & _). eauto. }
  2:{ by left. }
  rewrite scan_keys_argmax.
  2:{ apply Forall_forall. intros q Hq.
      apply list_elem_of_In, in_map_iff in Hq as (c & <- & Hc).
      apply list_elem_of_In in Hc. destruct (Hval c Hc) as (_ & _ & _ & Hgt).
      by apply fltb_not_nan in Hgt as [_ ?]. }
  destruct (argmax (map sim_q rem)) as [[j m]|] eqn:E.
  - destruct (sorted_desc_argmax sim_q rem j m E) as (x & Hx & Hm & Hs).
    destruct (Hval x) as (_ & _ & _ & Hgt).
    { eapply list_elem_of_lookup_2. exact Hx. }
    rewrite <- Hm, Hgt. simpl. rewrite Hx. eauto.
  - apply argmax_None, map_eq_nil in E. done.
Qed.

Lemma mmr_loop_lambda_one cands k n :
  above_sentinel one cands = true ->
  Forall (fun c => valid (sim_q c) = true) cands ->
  forall rem sel, (length rem <= n)%nat ->
  (forall c, c ∈ sel ++ rem -> c ∈ cands) ->
  mmr_loop k one sel rem
  = Ok (sel ++ take (Z.to_nat (k - Z.of_nat (length sel))) (sorted_desc sim_q rem)).
Proof.
  intros Habove Hvalid. induction n as [|n IH]; intros rem sel Hn Hin;
    rewrite mmr_loop_eq.
  - destruct rem; [|simpl in Hn; lia]. rewrite andb_false_r. simpl.
    by rewrite take_nil, app_nil_r.
  - destruct (_ && _) eqn:Hcond.
    + apply andb_true_iff in Hcond as [Hk Hne].
      apply Z.ltb_lt in Hk. apply negb_true_iff, bool_decide_eq_false in Hne.
      destruct (mmr_round_lambda_one cands sel rem Habove Hvalid Hin Hne)
        as (j & x & Hj & -> & Hs).
      pose proof (lookup_lt_Some _ _ _ Hj) as Hlt.
      rewrite IH.
      * rewrite Hs, length_app, <- app_assoc. simpl. do 2 f_equal.
        replace (Z.to_nat (k - Z.of_nat (length sel)))
          with (S (Z.to_nat (k - Z.of_nat (length sel + 1)))) by lia.
        reflexivity.
      * rewrite length_delete by eauto. lia.
      * intros c' Hc'. apply Hin.
        rewrite <- app_assoc in Hc'. simpl in Hc'.
        rewrite <- (delete_Permutation_cons rem j x Hj) in Hc'. exact Hc'.
    + apply andb_false_iff in Hcond as [Hk|Hne].
      * apply Z.ltb_ge in Hk.
        replace (Z.to_nat (k - Z.of_nat (length sel))) with 0%nat by lia.
        by rewrite take_0, app_nil_r.
      * apply negb_false_iff, bool_decide_eq_true in Hne. subst. simpl.
        by rewrite take_nil, app_nil_r.
Qed.

(** C4, as amended: for candidates that all have a vector, whose scores are
    binary64 values and whose values stay above the [-1e9] sentinel, [mmr]
    with [lamb = 1.0] returns, for every [k], the first [k] candidates of
    the stable descending sort by score: a permutation of the candidates in
    which no entry has a smaller score than a later one and entries with
    equal scores keep the order of the input (stated for any relation [pos]
    that holds between each input entry and the later ones). *)
Theorem C4_lambda_one_sorts_by_score cands k :
  above_sentinel one cands = true ->
  Forall (fun c => valid (sim_q c) = true) cands ->
  mmr cands k one = Ok (take (Z.to_nat k) (sorted_desc sim_q cands)) /\
  sorted_desc sim_q cands ≡ₚ cands /\
  forall pos, StronglySorted pos cands ->
    StronglySorted (ordered sim_q pos) (sorted_desc sim_q cands).
Proof.
  intros Habove Hvalid. split; [|split].
  - unfold mmr.
    rewrite (mmr_loop_lambda_one cands k (length cands) Habove Hvalid) by done.
    simpl. do 3 f_equal. lia.
  - apply sorted_desc_perm.
  - intros pos Hpos. apply sorted_desc_ordered; [|exact Hpos].
    apply Forall_forall. intros c Hc.
    destruct (mmr_val_lambda_one cands [] c Habove Hvalid) as (_ & _ & _ & Hgt);
      [by intros ? ?%elem_of_nil|done|].
    by apply fltb_not_nan in Hgt as [_ ?].
Qed.

Lemma C4_witness :
  let cands := [mk_candidate "b" f08 (Some [one; one]);
                mk_candidate "a" f09 (Some [one; pzero]);
                mk_candidate "c" f08 (Some [pzero; one])] in
  mmr cands 2 one = Ok (take (Z.to_nat 2) (sorted_desc sim_q cands)) /\
  sorted_desc sim_q cands ≡ₚ cands /\
  forall pos, StronglySorted pos cands ->
    StronglySorted (ordered sim_q pos) (sorted_desc sim_q cands).
Proof.
  apply (C4_lambda_one_sorts_by_score
           [mk_candidate "b" f08 (Some [one; one]);
            mk_candidate "a" f09 (Some [one; pzero]);
            mk_candidate "c" f08 (Some [pzero; one])] 2).
  - vm_compute. reflexivity.
  - repeat constructor.
Defined.

Example C4_witness_value :
  mmr [mk_candidate "b" f08 (Some [one; one]);
       mk_candidate "a" f09 (Some [one; pzero]);
       mk_candidate "c" f08 (Some [pzero; one])] 2 one
  = Ok [mk_candidate "a" f09 (Some [one; pzero]);
        mk_candidate "b" f08 (Some [one; one])].
Proof. vm_compute. reflexivity. Qed.

(** C4 as stated fails: a candidate with a vector whose score, [-2e9], is
    below the sentinel is never picked; with [lamb = 1.0] and [k = 1]
    [best_idx] stays [None] and [remaining.pop(None)] raises [TypeError]
    instead of returning the candidate. *)
Lemma C4_counterexample :
  let c := mk_candidate "a" (of_Z (-2000000000)) (Some [one]) in
  is_Some (cand_vector c) /\ valid (sim_q c) = true /\
  mmr [c] 1 one = Raise TypeError.
Proof.
  split; [by eexists|]. split; vm_compute; reflexivity.
Qed.

(** ** The rerank adapter without a client *)

(** C6: without a configured client ([co] is [None]) [cohere_rerank]
    returns [([], None)] at once and the trace is unchanged: no call to the
    rerank service is made. *)
Theorem C6_no_client_no_call env query docs model top_k tr :
  co env = None ->
  cohere_rerank env query docs model top_k tr = (([], None), tr).
Proof. intros H. unfold cohere_rerank. rewrite H. reflexivity. Qed.

Lemma C6_witness :
  cohere_rerank env_no_vectors "q" ["d1"; "d2"] "rerank" 5 [] = (([], None), []).
Proof. apply C6_no_client_no_call. reflexivity. Defined.

(** ** The rerank adapter, case by case *)

Lemma cohere_rerank_success env query docs model top_k tr ranked_docs resp tr' :
  cohere_rerank env query docs model top_k tr = ((ranked_docs, Some resp), tr') ->
  exists rerank,
    co env = Some rerank /\ docs <> [] /\
    rerank model query docs = Ok resp /\
    mapM (fun r => py_index docs (res_index r))
         (py_slice_to top_k (sorted_desc res_score (results resp)))
    = Ok ranked_docs /\
    tr' = tr ++ [EvRerank model query docs].
Proof.
  unfold cohere_rerank. destruct (co env) as [rerank|]; [|discriminate].
  destruct (bool_decide (docs = [])) eqn:Hd; [discriminate|].
  apply bool_decide_eq_false in Hd.
  destruct (rerank model query docs) as [resp'|e] eqn:Hr; simpl; [|discriminate].
  unfold rerank_body, mbind, outcome_bind.
  destruct (mapM _ _) as [ds|e] eqn:Hm; [|discriminate].
  intros [= <- <- <-]. exists rerank. done.
Qed.

Lemma cohere_rerank_unavailable env query docs model top_k tr :
  (co env = None \/
   exists rerank, co env = Some rerank /\
     (docs = [] \/ (exists e, rerank model query docs = Raise e) \/
      exists resp e, rerank model query docs = Ok resp /\
        mapM (fun r => py_index docs (res_index r))
             (py_slice_to top_k (sorted_desc res_score (results resp)))
        = Raise e)) ->
  exists tr', cohere_rerank env query docs model top_k tr = (([], None), tr').
Proof.
  unfold cohere_rerank.
  intros [H|(rerank & H & Hcase)]; rewrite H; [eauto|].
  destruct (bool_decide (docs = [])) eqn:Hd; [eauto|].
  destruct Hcase as [->|[[e He]|(resp & e & He & Hm)]].
  - by rewrite bool_decide_eq_true_2 in Hd.
  - rewrite He. eauto.
  - rewrite He. unfold mbind at 1, outcome_bind at 1, rerank_body.
    rewrite Hm. eauto.
Qed.

(** ** Ties in the rerank scores *)

Lemma py_index_nonneg {A} (l : list A) i x :
  0 <= i -> py_index l i = Ok x -> l !! Z.to_nat i = Some x.
Proof.
  intros Hi. unfold py_index. destruct (Z.ltb_spec i 0); [lia|].
  destruct (_ && _); [|discriminate].
  destruct (l !! Z.to_nat i); [|discriminate]. by intros [= ->].
Qed.

Lemma py_index_position {A} (l : list A) i x :
  py_index l i = Ok x ->
  in_range l i /\ l !! Z.to_nat (position l i) = Some x.
Proof.
  unfold py_index, position, in_range.
  destruct (_ && _) eqn:Hj; [|discriminate].
  apply andb_true_iff in Hj as [H0 Hn].
  apply Z.leb_le in H0. apply Z.ltb_lt in Hn.
  destruct (l !! _) eqn:E; [|discriminate]. intros [= <-].
  split; [|done]. destruct (Z.ltb_spec i 0); lia.
Qed.

Lemma StronglySorted_impl {A} (R S : A -> A -> Prop) l :
  (forall x y, R x y -> S x y) -> StronglySorted R l -> StronglySorted S l.
Proof.
  intros H. induction 1 as [|x l Hl IH Hx]; constructor; [done|].
  eapply Forall_impl; [exact Hx|]. intros y. apply H.
Qed.

Lemma elem_of_take_weaken {A} (x : A) n l : x ∈ take n l -> x ∈ l.
Proof.
  intros H. apply elem_of_take in H as (i & Hi & _).
  eapply list_elem_of_lookup_2. exact Hi.
Qed.

(** C7, as amended: when no score is NaN and any two results of the
    response with equal scores are listed in the order of the documents they
    name, the adapter returns the documents named by the first [top_k]
    entries of a reordering of the response that is in descending order of
    score and in which results with equal scores are in the order of their
    documents; the indices of these entries are all indices of [docs].  (The
    sort is stable with respect to the order of the response, whatever that
    order is; it never reads the document index.) *)
Theorem C7_ties_keep_document_order
    env query docs model top_k tr ranked_docs resp tr' :
  cohere_rerank env query docs model top_k tr = ((ranked_docs, Some resp), tr') ->
  Forall (fun r => is_nan (res_score r) = false) (results resp) ->
  StronglySorted
    (fun r1 r2 => SFeqb (res_score r1) (res_score r2) = true ->
                  position docs (res_index r1) <= position docs (res_index r2))
    (results resp) ->
  exists ranked,
    ranked ≡ₚ results resp /\
    StronglySorted
      (fun r1 r2 =>
         fltb (res_score r1) (res_score r2) = false /\
         (SFeqb (res_score r1) (res_score r2) = true ->
          position docs (res_index r1) <= position docs (res_index r2)))
      ranked /\
    Forall2 (fun r d =>
               in_range docs (res_index r) /\
               docs !! Z.to_nat (position docs (res_index r)) = Some d)
            (py_slice_to top_k ranked) ranked_docs.
Proof.
  intros Hr Hnan Hpos.
  apply cohere_rerank_success in Hr as (rerank & _ & _ & _ & Hdocs & _).
  exists (sorted_desc res_score (results resp)).
  split; [apply sorted_desc_perm|]. split.
  - pose proof (sorted_desc_ordered res_score _ _ Hnan Hpos) as Hs.
    eapply StronglySorted_impl; [|exact Hs].
    intros r1 r2 [Hge Htie]. split; [exact Hge|].
    intros Heq. apply Htie; [|exact Heq].
    by apply feqb_not_lt in Heq as [_ ?].
  - apply mapM_Ok in Hdocs. eapply Forall2_impl; [exact Hdocs|].
    intros r d. apply py_index_position.
Qed.

Lemma C7_witness :
  let rs := [{| res_index := 1; res_score := f08 |};
             {| res_index := 0; res_score := f09 |};
             {| res_index := -1; res_score := f08 |}] in
  exists ranked,
    ranked ≡ₚ rs /\
    StronglySorted
      (fun r1 r2 =>
         fltb (res_score r1) (res_score r2) = false /\
         (SFeqb (res_score r1) (res_score r2) = true ->
          position ["a"; "b"; "c"] (res_index r1)
          <= position ["a"; "b"; "c"] (res_index r2)))
      ranked /\
    Forall2 (fun r d =>
               in_range ["a"; "b"; "c"] (res_index r) /\
               ["a"; "b"; "c"] !! Z.to_nat (position ["a"; "b"; "c"] (res_index r))
               = Some d)
            (py_slice_to 2 ranked) ["a"; "b"].
Proof.
  intros rs.
  apply (C7_ties_keep_document_order
           {| qdrant_search := fun _ _ _ => Ok hits_ab;
              co := Some (fun _ _ _ => Ok {| results := rs |});
              RERANK_MODEL := "rerank" |}
           "q" ["a"; "b"; "c"] "rerank" 2 [] ["a"; "b"] {| results := rs |}
           [EvRerank "rerank" "q" ["a"; "b"; "c"]]).
  - vm_compute. reflexivity.
  - repeat constructor.
  - repeat constructor; vm_compute; try discriminate.
Defined.

(** C7 as stated fails: the service lists the result for document 1 before
    the result for document 0, with equal scores; the adapter returns "b"
    before "a", the reverse of the original document order. *)
Lemma C7_counterexample :
  let rs := [{| res_index := 1; res_score := f08 |};
             {| res_index := 0; res_score := f08 |}] in
  SFeqb f08 f08 = true /\
  cohere_rerank (env_rerank rs) "q" ["a"; "b"] "rerank" 5 []
  = ((["b"; "a"], Some {| results := rs |}), [EvRerank "rerank" "q" ["a"; "b"]]).
Proof. split; vm_compute; reflexivity. Qed.

(** ** [retrieve] after MMR *)

Lemma retrieve_after_mmr env qv qt topk mmr_k rerank_topk tr hits mmr_sel :
  qdrant_search env qv topk true = Ok hits -> hits <> [] ->
  mmr (map candidate_of_hit hits) mmr_k half = Ok mmr_sel ->
  retrieve env qv qt topk mmr_k rerank_topk tr =
  let '((_, rerank_meta), tr2) :=
    cohere_rerank env qt (map doc_text mmr_sel) (RERANK_MODEL env) rerank_topk
                  (tr ++ [EvSearch qv topk true]) in
  match rerank_meta with
  | Some meta =>
      match map_back mmr_sel rerank_topk meta with
      | Ok top_items => (Ok top_items, tr2)
      | Raise _ => (Ok (py_slice_to rerank_topk mmr_sel), tr2)
      end
  | None => (Ok (py_slice_to rerank_topk mmr_sel), tr2)
  end.
Proof.
  intros Hs Hne Hm. unfold retrieve, search_vectors. rewrite Hs.
  rewrite bool_decide_eq_false_2 by done. rewrite Hm.
  destruct (cohere_rerank _ _ _ _ _ _) as [[? ?] ?]. reflexivity.
Qed.

(** When the adapter reports "unavailable", [retrieve] returns the first
    [rerank_topk] entries of the MMR selection. *)
Lemma retrieve_falls_back env qv qt topk mmr_k rerank_topk tr hits mmr_sel tr2 :
  qdrant_search env qv topk true = Ok hits -> hits <> [] ->
  mmr (map candidate_of_hit hits) mmr_k half = Ok mmr_sel ->
  cohere_rerank env qt (map doc_text mmr_sel) (RERANK_MODEL env) rerank_topk
                (tr ++ [EvSearch qv topk true]) = (([], None), tr2) ->
  retrieve env qv qt topk mmr_k rerank_topk tr
  = (Ok (py_slice_to rerank_topk mmr_sel), tr2).
Proof.
  intros Hs Hne Hm Hr.
  rewrite (retrieve_after_mmr _ _ _ _ _ _ _ _ _ Hs Hne Hm), Hr. reflexivity.
Qed.

(** Once MMR has returned, [retrieve] returns too, whatever the rerank
    service does. *)
Lemma retrieve_total_after_mmr env qv qt topk mmr_k rerank_topk tr hits mmr_sel :
  qdrant_search env qv topk true = Ok hits -> hits <> [] ->
  mmr (map candidate_of_hit hits) mmr_k half = Ok mmr_sel ->
  exists items tr2,
    retrieve env qv qt topk mmr_k rerank_topk tr = (Ok items, tr2).
Proof.
  intros Hs Hne Hm.
  rewrite (retrieve_after_mmr _ _ _ _ _ _ _ _ _ Hs Hne Hm).
  destruct (cohere_rerank _ _ _ _ _ _) as [[docs [meta|]] tr2]; [|eauto].
  destruct (map_back mmr_sel rerank_topk meta); eauto.
Qed.



(** C10, as amended: when the service answers with scores that are
    numbers (not NaN) and one of the [rerank_topk] best results carries an
    index outside the MMR selection, [retrieve] does not raise and returns
    the first [rerank_topk] entries of the MMR selection (the lookup already
    fails inside [cohere_rerank], which then reports "unavailable"). *)
Theorem C10_bad_index_in_top_falls_back
    env qv qt topk mmr_k rerank_topk tr hits mmr_sel rerank resp r :
  qdrant_search env qv topk true = Ok hits -> hits <> [] ->
  mmr (map candidate_of_hit hits) mmr_k half = Ok mmr_sel ->
  co env = Some rerank ->
  rerank (RERANK_MODEL env) qt (map doc_text mmr_sel) = Ok resp ->
  Forall (fun r => is_nan (res_score r) = false) (results resp) ->
  r ∈ py_slice_to rerank_topk (sorted_desc res_score (results resp)) ->
  ~ in_range mmr_sel (res_index r) ->
  exists tr2,
    retrieve env qv qt topk mmr_k rerank_topk tr
    = (Ok (py_slice_to rerank_topk mmr_sel), tr2).
Proof.
  intros Hs Hne Hm Hco Hresp _ Hr Hout.
  assert (exists e,
    mapM (fun r => py_index (map doc_text mmr_sel) (res_index r))
         (py_slice_to rerank_topk (sorted_desc res_score (results resp)))
    = Raise e) as [e He].
  { rewrite mapM_py_index_map.
    destruct (mapM (fun r => py_index mmr_sel (res_index r)) _)
      as [items|e] eqn:Hitems; [|eauto].
    apply mapM_Ok in Hitems. apply list_elem_of_lookup in Hr as [j Hj].
    destruct (Forall2_lookup_l _ _ _ _ _ Hitems Hj) as (c & _ & Hc).
    rewrite (py_index_out_of_range _ _ Hout) in Hc. discriminate. }
  destruct (cohere_rerank_unavailable env qt (map doc_text mmr_sel)
              (RERANK_MODEL env) rerank_topk (tr ++ [EvSearch qv topk true]))
    as [tr2 Htr2].
  - right. exists rerank. split; [exact Hco|]. right. right. eauto.
  - exists tr2. eapply retrieve_falls_back; eauto.
Qed.

Lemma C10_witness :
  exists tr2,
    retrieve (env_rerank [{| res_index := 7; res_score := f09 |};
                          {| res_index := 0; res_score := f08 |}])
             [one] "q" 12 8 2 []
    = (Ok (py_slice_to 2 (map candidate_of_hit hits_ab)), tr2).
Proof.
  apply (C10_bad_index_in_top_falls_back
           (env_rerank [{| res_index := 7; res_score := f09 |};
                        {| res_index := 0; res_score := f08 |}])
           [one] "q" 12 8 2 [] hits_ab (map candidate_of_hit hits_ab)
           (fun _ _ _ => Ok {| results := [{| res_index := 7; res_score := f09 |};
                                           {| res_index := 0; res_score := f08 |}] |})
           {| results := [{| res_index := 7; res_score := f09 |};
                          {| res_index := 0; res_score := f08 |}] |}
           {| res_index := 7; res_score := f09 |}).
  - reflexivity.
  - discriminate.
  - vm_compute. reflexivity.
  - reflexivity.
  - reflexivity.
  - repeat constructor.
  - vm_compute. constructor.
  - unfold in_range. simpl. lia.
Defined.

(** C10 as stated fails: the response holds the index 7, outside the two
    survivors, but as its third best result; with [rerank_topk = 2] it is
    never looked up and [retrieve] returns the reranked order "b", "a"
    instead of the MMR order "a", "b". *)
Lemma C10_counterexample :
  let rs := [{| res_index := 1; res_score := f09 |};
             {| res_index := 0; res_score := f08 |};
             {| res_index := 7; res_score := half |}] in
  let sel := map candidate_of_hit hits_ab in
  mmr sel 8 half = Ok sel /\
  (exists r, r ∈ rs /\ ~ in_range sel (res_index r)) /\
  fst (retrieve (env_rerank rs) [one] "q" 12 8 2 []) = Ok (reverse sel) /\
  Ok (A := list candidate) (reverse sel) <> Ok (py_slice_to 2 sel).
Proof.
  split; [vm_compute; reflexivity|]. split.
  - exists {| res_index := 7; res_score := half |}. split.
    + do 2 constructor. constructor.
    + unfold in_range. simpl. lia.
  - split; [vm_compute; reflexivity|]. vm_compute. discriminate.
Qed.

(** ** [retrieve] on hits without vectors *)

(** C9 (the code departs from it): the search returns two hits without
    vectors and no rerank service is configured; [retrieve] raises the
    [TypeError] of [mmr] instead of returning MMR's first entries. *)
Theorem C9_retrieve_raises_on_missing_vectors :
  retrieve env_no_vectors [one] "q" 12 8 5 []
  = (Raise TypeError, [EvSearch [one] 12 true]).
Proof. vm_compute. reflexivity. Qed.

(** * Further properties of [retriever.py] *)

(** ** [_cosine]: symmetry, errors, zero vectors *)

Lemma fmul_comm x y : fmul x y = fmul y x.
Proof.
  destruct x as [sx|sx| |sx mx ex], y as [sy|sy| |sy my ey]; unfold fmul;
    cbn [SFmul]; try reflexivity; try (f_equal; apply xorb_comm).
  by rewrite (xorb_comm sx sy), (Pos.mul_comm mx my), (Z.add_comm ex ey).
Qed.

Lemma zip_with_fmul_comm a b : zip_with fmul a b = zip_with fmul b a.
Proof.
  revert b. induction a as [|x a IH]; intros [|y b]; simpl; try reflexivity.
  by rewrite fmul_comm, IH.
Qed.

Lemma cosine_of_vectors a b :
  _cosine (Some a) (Some b)
  = Ok (fdiv (py_sum (zip_with fmul a b)) (fadd (fmul (norm a) (norm b)) eps)).
Proof.
  unfold _cosine, norm.
  rewrite !math_sqrt_nonneg by apply sum_of_squares_nonneg.
  unfold mbind, outcome_bind, py_truediv.
  by rewrite cosine_denominator_nonzero.
Qed.

(** X1: [_cosine(a, b)] and [_cosine(b, a)] raise the same exception or
    return the same number: the same float, bit for bit, when the result is
    not NaN, and NaN on both sides otherwise (the floats of this development
    have one NaN; the sign and payload of a NaN are not modelled).  Float
    multiplication commutes, so the dot product and the product of the norms
    do not depend on the order of the arguments. *)
Theorem cosine_symmetric (a b : option (list float)) :
  _cosine a b = _cosine b a.
Proof.
  destruct a as [a|], b as [b|]; try reflexivity.
  rewrite !cosine_of_vectors.
  by rewrite zip_with_fmul_comm, (fmul_comm (norm a)).
Qed.

Lemma cosine_raise a b e :
  _cosine a b = Raise e -> e = TypeError /\ (a = None \/ b = None).
Proof.
  destruct a as [a|], b as [b|]; [by rewrite cosine_of_vectors|..];
    intros [= <-]; auto.
Qed.

(** X2: the only exception [_cosine] raises is [TypeError], and it raises it
    exactly when one of its arguments is [None]: neither [math.sqrt] nor the
    division can fail. *)
Theorem cosine_raises_iff_None (a b : option (list float)) (e : exn) :
  _cosine a b = Raise e <-> e = TypeError /\ (a = None \/ b = None).
Proof.
  split; [apply cosine_raise|].
  intros [-> [->| ->]]; [reflexivity|]. by destruct a.
Qed.

Lemma fadd_not_finite_l x y : finite x = false -> finite (fadd x y) = false.
Proof. destruct x as [| | |], y as [|[]| |]; try done; by destruct s. Qed.

Lemma fadd_not_finite_r x y : finite y = false -> finite (fadd x y) = false.
Proof. destruct y as [| | |], x as [|[]| |]; try done; by destruct s. Qed.

Lemma fold_fadd_not_finite xs acc :
  finite acc = false -> finite (fold_left fadd xs acc) = false.
Proof.
  revert acc. induction xs as [|x xs IH]; intros acc H; simpl; [done|].
  by apply IH, fadd_not_finite_l.
Qed.

Lemma fold_fadd_finite xs acc :
  finite (fold_left fadd xs acc) = true -> Forall (fun x => finite x = true) xs.
Proof.
  revert acc. induction xs as [|x xs IH]; intros acc H; simpl in H; [done|].
  constructor; [|by eapply IH].
  destruct (finite x) eqn:E; [done|].
  by rewrite fold_fadd_not_finite in H by by apply fadd_not_finite_r.
Qed.

Lemma fsqrt_finite x : finite (fsqrt x) = true -> finite x = true.
Proof. by destruct x as [|[]| |]. Qed.

Lemma fmul_square_finite x : finite (fmul x x) = true -> finite x = true.
Proof. by destruct x. Qed.

Lemma norm_finite b :
  finite (norm b) = true -> Forall (fun y => finite y = true) b.
Proof.
  intros H. apply fsqrt_finite, fold_fadd_finite in H.
  rewrite Forall_map in H. eapply Forall_impl; [exact H|].
  intros y. apply fmul_square_finite.
Qed.

Lemma fold_fadd_zeros xs :
  Forall (fun x => is_zero x = true) xs -> fold_left fadd xs pzero = pzero.
Proof.
  induction 1 as [|x xs Hx _ IH]; simpl; [done|].
  destruct x as [[]| | |]; done.
Qed.

Lemma zip_with_fmul_zeros a b :
  Forall (fun x => is_zero x = true) a ->
  Forall (fun y => finite y = true) b ->
  Forall (fun x => is_zero x = true) (zip_with fmul a b).
Proof.
  intros Ha. revert b. induction Ha as [|x a Hx _ IH]; intros [|y b] Hb;
    simpl; try constructor.
  - apply Forall_cons in Hb as [Hy _]. by destruct x, y.
  - apply IH. by apply Forall_cons in Hb as [_ ?].
Qed.

Lemma norm_zeros a : Forall (fun x => is_zero x = true) a -> norm a = pzero.
Proof.
  intros Ha. unfold norm, py_sum. rewrite fold_fadd_zeros; [done|].
  rewrite Forall_map. eapply Forall_impl; [exact Ha|].
  intros [[]| | |]; done.
Qed.

(** X3: a vector whose entries are all [0.0] or [-0.0] (such as the
    fallback vector of [embed_texts]) has similarity exactly [0.0] with every
    vector of finite norm, whatever the two lengths: the guard [+ 1e-8] makes
    the quotient [0.0 / 1e-8]. *)
Theorem cosine_zero_vector (a b : list float) :
  Forall (fun x => is_zero x = true) a ->
  finite (norm b) = true ->
  _cosine (Some a) (Some b) = Ok pzero.
Proof.
  intros Ha Hb. rewrite cosine_of_vectors, (norm_zeros a Ha).
  unfold py_sum.
  rewrite fold_fadd_zeros by (apply zip_with_fmul_zeros; [done|by apply norm_finite]).
  pose proof (fsqrt_nonneg _ (sum_of_squares_nonneg b)) as Hn.
  fold (norm b) in Hn. by destruct (norm b) as [[]|[]| |[]].
Qed.

Lemma cosine_zero_vector_witness :
  _cosine (Some [pzero; S754_zero true; pzero]) (Some [one; half]) = Ok pzero.
Proof. apply cosine_zero_vector; [by repeat constructor|vm_compute; reflexivity]. Defined.

(** ** [mmr]: edge cases, errors, bounds *)

(** X4: with [k <= 0], or with no candidates, [mmr] returns the empty
    list at once: no vector is read, so nothing can raise. *)
Theorem mmr_nothing_to_select cands k lamb :
  k <= 0 \/ cands = [] -> mmr cands k lamb = Ok [].
Proof.
  intros H. unfold mmr. rewrite mmr_loop_eq.
  destruct H as [Hk| ->]; [|by rewrite andb_false_r].
  simpl length. by rewrite (proj2 (Z.ltb_ge _ _)) by (simpl; lia).
Qed.

Lemma mmr_nothing_to_select_witness :
  mmr [mk_candidate "a" f09 None; mk_candidate "b" f08 None] 0 half = Ok [].
Proof. apply mmr_nothing_to_select. left. lia. Defined.

Lemma sim_sel_raise sel c e : sim_sel sel c = Raise e -> e = TypeError.
Proof.
  unfold sim_sel. destruct sel as [|s0 rest]; [discriminate|].
  destruct (mapM _ (s0 :: rest)) as [xs|e'] eqn:E.
  - apply mapM_Ok in E. destruct xs as [|x xs]; [by inversion E|].
    cbn [mbind outcome_bind]. destruct (py_max_total x xs) as [m ->]. discriminate.
  - cbn [mbind outcome_bind]. intros [= <-].
    apply mapM_Raise in E as (s & _ & E). by apply cosine_raise in E as [-> _].
Qed.

Lemma mmr_val_raise lamb sel c e : mmr_val lamb sel c = Raise e -> e = TypeError.
Proof.
  unfold mmr_val. destruct (sim_sel sel c) as [s|e'] eqn:E; [discriminate|].
  cbn [mbind outcome_bind]. intros [= <-]. by apply sim_sel_raise in E.
Qed.

Lemma mmr_scan_raise lamb sel rem i bi bv e :
  mmr_scan lamb sel rem i bi bv = Raise e -> e = TypeError.
Proof.
  revert i bi bv. induction rem as [|c rem IH]; intros i bi bv; simpl;
    [discriminate|].
  destruct (mmr_val lamb sel c) as [v|e'] eqn:E; cbn [mbind outcome_bind].
  - destruct (fgtb v bv); apply IH.
  - intros [= <-]. by apply mmr_val_raise in E.
Qed.

Lemma mmr_round_raise lamb sel rem e :
  mmr_round lamb sel rem = Raise e -> e = TypeError.
Proof.
  unfold mmr_round.
  destruct (mmr_scan lamb sel rem 0 None sentinel) as [r|e'] eqn:E;
    cbn [mbind outcome_bind].
  - apply mmr_scan_range in E as [->|(j & -> & Hj)]; simpl; [by intros [= <-]|].
    destruct (lookup_lt_is_Some_2 rem j) as [x ->]; [lia|discriminate].
  - intros [= <-]. by apply mmr_scan_raise in E.
Qed.

Lemma mmr_loop_raise k lamb n :
  forall rem sel e, (length rem <= n)%nat ->
  mmr_loop k lamb sel rem = Raise e -> e = TypeError.
Proof.
  induction n as [|n IH]; intros rem sel e Hn; rewrite mmr_loop_eq.
  - destruct rem; [|simpl in Hn; lia]. by rewrite andb_false_r.
  - destruct (_ && _); [|discriminate].
    destruct (mmr_round lamb sel rem) as [[c rest]|e'] eqn:E.
    + apply mmr_round_inv in E as (i & Hi & ->). apply IH.
      pose proof (lookup_lt_Some _ _ _ Hi). rewrite length_delete by eauto. lia.
    + intros [= <-]. by apply mmr_round_raise in E.
Qed.

(** X5: on candidates that have the key ["vector"] (holding a list of
    floats or [None]; the key ["score"] may be missing), and for every [k]
    and [lamb], the only exception [mmr] raises is [TypeError] (a [None]
    vector reaching [zip], or [pop(None)] after a round in which no value
    exceeded [-1e9]): never a [ZeroDivisionError], a [ValueError] from
    [math.sqrt] or [max], or an [IndexError] from [pop].  (A dict without
    the key ["vector"], which [retrieve] never builds, would raise
    [KeyError]; such dicts are outside [candidate].) *)
Theorem mmr_raises_only_TypeError cands k lamb e :
  mmr cands k lamb = Raise e -> e = TypeError.
Proof. apply (mmr_loop_raise k lamb (length cands)). lia. Qed.

Lemma mmr_raises_only_TypeError_witness :
  mmr [mk_candidate "a" f09 None; mk_candidate "b" f08 None] 2 half
  = Raise TypeError /\ TypeError = TypeError.
Proof.
  split; [vm_compute; reflexivity|].
  apply (mmr_raises_only_TypeError
           [mk_candidate "a" f09 None; mk_candidate "b" f08 None] 2 half).
  vm_compute. reflexivity.
Defined.

Lemma mmr_loop_at_most k lamb n :
  forall rem sel out, (length rem <= n)%nat ->
  mmr_loop k lamb sel rem = Ok out ->
  Z.of_nat (length out) <= Z.max k (Z.of_nat (length sel)).
Proof.
  induction n as [|n IH]; intros rem sel out Hn; rewrite mmr_loop_eq.
  - destruct rem; [|simpl in Hn; lia]. rewrite andb_false_r.
    intros [= <-]. lia.
  - destruct (_ && _) eqn:Hcond; [|intros [= <-]; lia].
    apply andb_true_iff in Hcond as [Hk _]. apply Z.ltb_lt in Hk.
    destruct (mmr_round lamb sel rem) as [[c rest]|e] eqn:E; [|discriminate].
    apply mmr_round_inv in E as (i & Hi & ->).
    pose proof (lookup_lt_Some _ _ _ Hi) as Hlt.
    intros H. apply IH in H; [|rewrite length_delete by eauto; lia].
    rewrite length_app in H. simpl in H. lia.
Qed.

(** X6: a list that [mmr] returns has at most [k] entries (none for a
    negative [k]) and is drawn from the candidates, no entry more often than
    it occurs there; [mmr] invents and repeats nothing. *)
Theorem mmr_at_most_k_from_input cands k lamb sel :
  mmr cands k lamb = Ok sel ->
  Z.of_nat (length sel) <= Z.max k 0 /\ sel ⊆+ cands.
Proof.
  intros H. split; [|by apply mmr_submseteq in H].
  by apply (mmr_loop_at_most k lamb (length cands)) in H.
Qed.

Lemma mmr_at_most_k_from_input_witness :
  let cands := [mk_candidate "a" f09 (Some [one; pzero]);
                mk_candidate "b" f08 (Some [one; one]);
                mk_candidate "c" f08 (Some [pzero; one])] in
  exists sel, mmr cands 2 half = Ok sel /\
    Z.of_nat (length sel) <= Z.max 2 0 /\ sel ⊆+ cands.
Proof.
  intros cands.
  exists [mk_candidate "a" f09 (Some [one; pzero]);
          mk_candidate "c" f08 (Some [pzero; one])].
  split; [vm_compute; reflexivity|].
  apply (mmr_at_most_k_from_input cands 2 half). vm_compute. reflexivity.
Defined.

(** ** [mmr]: a smaller [k] gives a prefix *)

Lemma mmr_loop_extends k lamb n :
  forall rem sel out, (length rem <= n)%nat ->
  mmr_loop k lamb sel rem = Ok out -> exists more, out = sel ++ more.
Proof.
  induction n as [|n IH]; intros rem sel out Hn; rewrite mmr_loop_eq.
  - destruct rem; [|simpl in Hn; lia]. rewrite andb_false_r.
    intros [= <-]. exists []. by rewrite app_nil_r.
  - destruct (_ && _); [|intros [= <-]; exists []; by rewrite app_nil_r].
    destruct (mmr_round lamb sel rem) as [[c rest]|e] eqn:E; [|discriminate].
    apply mmr_round_inv in E as (i & Hi & ->).
    pose proof (lookup_lt_Some _ _ _ Hi) as Hlt.
    intros H. apply IH in H as [more ->]; [|rewrite length_delete by eauto; lia].
    exists (c :: more). by rewrite <- app_assoc.
Qed.

Lemma mmr_loop_prefix k k' lamb n :
  k <= k' ->
  forall rem sel out, (length rem <= n)%nat ->
  mmr_loop k' lamb sel rem = Ok out ->
  mmr_loop k lamb sel rem
  = Ok (take (Z.to_nat (Z.max k (Z.of_nat (length sel)))) out).
Proof.
  intros Hkk. induction n as [|n IH]; intros rem sel out Hn;
    rewrite (mmr_loop_eq k'), (mmr_loop_eq k).
  - destruct rem; [|simpl in Hn; lia]. rewrite !andb_false_r.
    intros [= <-]. rewrite take_ge; [done|lia].
  - destruct (negb (bool_decide (rem = []))) eqn:Hne;
      [rewrite !andb_true_r|rewrite !andb_false_r].
    2:{ intros [= <-]. rewrite take_ge; [done|lia]. }
    destruct (Z.of_nat (length sel) <? k') eqn:Hk'.
    2:{ intros [= <-]. apply Z.ltb_ge in Hk'.
        rewrite (proj2 (Z.ltb_ge _ _)) by lia. rewrite take_ge; [done|lia]. }
    destruct (mmr_round lamb sel rem) as [[c rest]|e] eqn:E; [|discriminate].
    apply mmr_round_inv in E as (i & Hi & ->).
    pose proof (lookup_lt_Some _ _ _ Hi) as Hlt.
    assert (Hlen : (length (delete i rem) <= n)%nat)
      by (rewrite length_delete by eauto; lia).
    intros H. destruct (Z.of_nat (length sel) <? k) eqn:Hk.
    + apply Z.ltb_lt in Hk. rewrite (IH _ _ _ Hlen H).
      rewrite length_app. simpl. do 3 f_equal. lia.
    + apply Z.ltb_ge in Hk.
      apply mmr_loop_extends with (n := n) in H as [more ->]; [|done].
      rewrite <- app_assoc. f_equal.
      replace (Z.to_nat (Z.max k (Z.of_nat (length sel)))) with (length sel) by lia.
      by rewrite take_app_length.
Qed.

(** X7: the selection is built greedily, so asking for fewer entries gives
    a prefix: when [mmr(candidates, k')] returns [sel'] and [k <= k'], then
    [mmr(candidates, k)] returns the first [k] entries of [sel'] (and does
    not raise). *)
Theorem mmr_smaller_k_is_prefix cands k k' lamb sel' :
  k <= k' ->
  mmr cands k' lamb = Ok sel' ->
  mmr cands k lamb = Ok (take (Z.to_nat k) sel').
Proof.
  intros Hkk H. unfold mmr.
  rewrite (mmr_loop_prefix k k' lamb (length cands) Hkk cands [] sel'); [|done|done].
  simpl. do 2 f_equal. lia.
Qed.

Lemma mmr_smaller_k_is_prefix_witness :
  let cands := [mk_candidate "a" f09 (Some [one; pzero]);
                mk_candidate "b" f08 (Some [one; one]);
                mk_candidate "c" f08 (Some [pzero; one])] in
  mmr cands 2 half
  = Ok (take (Z.to_nat 2) [mk_candidate "a" f09 (Some [one; pzero]);
                           mk_candidate "c" f08 (Some [pzero; one]);
                           mk_candidate "b" f08 (Some [one; one])]).
Proof.
  intros cands. apply (mmr_smaller_k_is_prefix cands 2 3 half); [lia|].
  vm_compute. reflexivity.
Defined.

(** ** [mmr]: the first pick *)

Lemma mmr_scan_first_round lamb rem i bi bv :
  mmr_scan lamb [] rem i bi bv
  = Ok (scan_keys (map (fun c => mmr_value lamb c pzero) rem) i bi bv).
Proof.
  revert i bi bv. induction rem as [|c rem IH]; intros i bi bv; simpl; [done|].
  destruct (fgtb _ bv); apply IH.
Qed.

Lemma mmr_first_round lamb cands :
  Forall (fun c => fgtb (mmr_value lamb c pzero) sentinel = true) cands ->
  cands <> [] ->
  exists j x m,
    argmax (map (fun c => mmr_value lamb c pzero) cands) = Some (j, m) /\
    cands !! j = Some x /\ m = mmr_value lamb x pzero /\
    mmr_round lamb [] cands = Ok (x, delete j cands).
Proof.
  intros Hgt Hne.
  destruct (argmax (map (fun c => mmr_value lamb c pzero) cands))
    as [[j m]|] eqn:Ha.
  2:{ apply argmax_None in Ha. by destruct cands. }
  destruct (sorted_desc_argmax _ _ _ _ Ha) as (x & Hx & Hm & _).
  exists j, x, m. repeat split; [done|done|].
  unfold mmr_round. rewrite mmr_scan_first_round, scan_keys_argmax, Ha.
  - rewrite Forall_forall in Hgt. rewrite <- Hm, Hgt.
    + cbn [mbind outcome_bind py_pop]. simpl. by rewrite Hx.
    + eapply list_elem_of_lookup_2. exact Hx.
  - rewrite Forall_map. eapply Forall_impl; [exact Hgt|].
    intros c Hc. simpl. unfold fgtb in Hc. change SFltb with fltb in Hc.
    by apply fltb_not_nan in Hc as [_ ?].
Qed.

(** X8: the first entry that [mmr] selects depends on the scores only.
    When every candidate's value against an empty selection,
    [lamb * score - (1.0 - lamb) * 0.0], exceeds [-1e9], the first pick is
    the candidate with the greatest such value, the first one among equals,
    whether or not the candidates carry vectors: [mmr(candidates, 1)]
    returns exactly that candidate, and every list that [mmr] returns for a
    [k >= 1] starts with it. *)
Theorem mmr_first_pick cands lamb :
  Forall (fun c => fgtb (mmr_value lamb c pzero) sentinel = true) cands ->
  cands <> [] ->
  exists j x m,
    argmax (map (fun c => mmr_value lamb c pzero) cands) = Some (j, m) /\
    cands !! j = Some x /\
    mmr cands 1 lamb = Ok [x] /\
    forall k sel, 1 <= k -> mmr cands k lamb = Ok sel -> head sel = Some x.
Proof.
  intros Hgt Hne.
  destruct (mmr_first_round lamb cands Hgt Hne) as (j & x & m & Ha & Hx & _ & Hr).
  assert (H1 : mmr cands 1 lamb = Ok [x]).
  { unfold mmr. rewrite (mmr_loop_continue 1 lamb [] cands x (delete j cands));
      [|simpl; lia|done|done].
    rewrite mmr_loop_eq. simpl. reflexivity. }
  exists j, x, m. repeat split; [done|done|done|].
  intros k sel Hk Hsel.
  apply (mmr_loop_prefix 1 k lamb (length cands) Hk cands [] sel) in Hsel; [|done].
  unfold mmr in H1. rewrite H1 in Hsel. injection Hsel as Hsel.
  simpl in Hsel. destruct sel; [discriminate|]. injection Hsel as ->. done.
Qed.

Lemma mmr_first_pick_witness :
  let cands := [mk_candidate "b" f08 None; mk_candidate "a" f09 None;
                mk_candidate "c" f09 None] in
  exists j x m,
    argmax (map (fun c => mmr_value half c pzero) cands) = Some (j, m) /\
    cands !! j = Some x /\
    mmr cands 1 half = Ok [x] /\
    forall k sel, 1 <= k -> mmr cands k half = Ok sel -> head sel = Some x.
Proof.
  intros cands. apply (mmr_first_pick cands half); [|done].
  repeat constructor.
Defined.

(** ** The rerank adapter: calls and results *)

Lemma cohere_rerank_cases env query docs model top_k tr :
  (cohere_rerank env query docs model top_k tr = (([], None), tr) /\
   (co env = None \/ docs = [])) \/
  (exists rerank ranked resp,
     co env = Some rerank /\ docs <> [] /\
     rerank model query docs = Ok resp /\
     cohere_rerank env query docs model top_k tr
     = ((ranked, Some resp), tr ++ [EvRerank model query docs])) \/
  (exists rerank e,
     co env = Some rerank /\ docs <> [] /\
     cohere_rerank env query docs model top_k tr
     = (([], None), tr ++ [EvRerank model query docs; EvPrint e])).
Proof.
  unfold cohere_rerank. destruct (co env) as [rerank|]; [|left; auto].
  destruct (bool_decide (docs = [])) eqn:Hd.
  { apply bool_decide_eq_true in Hd. left; auto. }
  apply bool_decide_eq_false in Hd. right.
  destruct (rerank model query docs) as [resp|e] eqn:Hr; cbn [mbind outcome_bind].
  - unfold rerank_body. destruct (mapM _ _) as [ranked|e]; cbn [mbind outcome_bind].
    + left. by exists rerank, ranked, resp.
    + right. exists rerank, e. by rewrite <- app_assoc.
  - right. exists rerank, e. by rewrite <- app_assoc.
Qed.

(** X9: one call of [cohere_rerank] ends in one of three ways.  Without a
    client or without documents it returns [([], None)] and does nothing
    else.  Otherwise it calls the service exactly once, with the given
    model, query and documents, and either returns the response with a list
    of documents and prints nothing, or prints one failure message and
    returns [([], None)].  It never calls the service twice and never
    returns documents without a response. *)
Theorem cohere_rerank_one_call env query docs model top_k tr :
  let r := cohere_rerank env query docs model top_k tr in
  (r = (([], None), tr) /\ (co env = None \/ docs = [])) \/
  (co env <> None /\ docs <> [] /\
   ((exists ranked resp,
       r = ((ranked, Some resp), tr ++ [EvRerank model query docs])) \/
    (exists e,
       r = (([], None), tr ++ [EvRerank model query docs; EvPrint e])))).
Proof.
  intros r. subst r.
  destruct (cohere_rerank_cases env query docs model top_k tr)
    as [H|[(rerank & ranked & resp & Hco & Hd & _ & H)|(rerank & e & Hco & Hd & H)]].
  - by left.
  - right. rewrite Hco. repeat split; [done|done|]. left. eauto.
  - right. rewrite Hco. repeat split; [done|done|]. right. eauto.
Qed.

Lemma py_index_elem {A} (l : list A) i x : py_index l i = Ok x -> x ∈ l.
Proof.
  unfold py_index. destruct (_ && _); [|discriminate].
  destruct (l !! _) eqn:E; [|discriminate].
  intros [= <-]. eapply list_elem_of_lookup_2. exact E.
Qed.

Lemma mapM_py_index_elem {A R} (l : list A) (g : R -> Z) top xs :
  mapM (fun r => py_index l (g r)) top = Ok xs ->
  Forall (fun x => x ∈ l) xs /\ length xs = length top.
Proof.
  intros H. apply mapM_Ok in H. split.
  - apply Forall_forall. intros x Hx. apply list_elem_of_lookup in Hx as [j Hj].
    destruct (Forall2_lookup_r _ _ _ _ _ H Hj) as (r & _ & Hr).
    by apply py_index_elem in Hr.
  - symmetry. by apply Forall2_length in H.
Qed.

Lemma py_slice_to_le_length {A} (n : Z) (l : list A) :
  (length (py_slice_to n l) <= length l)%nat.
Proof.
  destruct (py_slice_to_prefix n l) as [m ->]. rewrite length_take. lia.
Qed.

Lemma sorted_desc_length {A} (key : A -> float) l :
  length (sorted_desc key l) = length l.
Proof. by rewrite sorted_desc_perm. Qed.

(** X10: when [cohere_rerank] returns a response, every document it
    returns is one of the documents it was given, and there are at most
    [top_k] of them (for [top_k >= 0]) and at most as many as the response
    has results. *)
Theorem cohere_rerank_docs_from_input
    env query docs model top_k tr ranked_docs resp tr' :
  cohere_rerank env query docs model top_k tr = ((ranked_docs, Some resp), tr') ->
  Forall (fun d => d ∈ docs) ranked_docs /\
  (length ranked_docs <= length (results resp))%nat /\
  (0 <= top_k -> Z.of_nat (length ranked_docs) <= top_k).
Proof.
  intros H. apply cohere_rerank_success in H as (_ & _ & _ & _ & H & _).
  apply mapM_py_index_elem in H as [Hin Hlen]. split; [done|].
  rewrite Hlen. split.
  - rewrite <- (sorted_desc_length res_score (results resp)).
    apply py_slice_to_le_length.
  - intros Hk. by apply py_slice_to_length.
Qed.

Lemma cohere_rerank_docs_from_input_witness :
  let rs := [{| res_index := 1; res_score := f08 |};
             {| res_index := -2; res_score := f09 |};
             {| res_index := 0; res_score := half |}] in
  Forall (fun d => d ∈ ["a"; "b"]) ["a"; "b"] /\
  (length ["a"; "b"] <= length (results {| results := rs |}))%nat /\
  (0 <= 2 -> Z.of_nat (length ["a"; "b"]) <= 2).
Proof.
  intros rs.
  apply (cohere_rerank_docs_from_input (env_rerank rs) "q" ["a"; "b"] "rerank" 2
           [] ["a"; "b"] {| results := rs |} [EvRerank "rerank" "q" ["a"; "b"]]).
  vm_compute. reflexivity.
Defined.

(** ** [retrieve]: errors, calls, results *)

Lemma retrieve_no_hits env qv qt topk mmr_k rerank_topk tr :
  qdrant_search env qv topk true = Ok [] ->
  retrieve env qv qt topk mmr_k rerank_topk tr
  = (Ok [], tr ++ [EvSearch qv topk true]).
Proof. intros H. unfold retrieve, search_vectors. by rewrite H. Qed.

Lemma retrieve_search_raises env qv qt topk mmr_k rerank_topk tr e :
  qdrant_search env qv topk true = Raise e ->
  retrieve env qv qt topk mmr_k rerank_topk tr
  = (Raise e, tr ++ [EvSearch qv topk true]).
Proof. intros H. unfold retrieve, search_vectors. by rewrite H. Qed.

Lemma retrieve_mmr_raises env qv qt topk mmr_k rerank_topk tr hits e :
  qdrant_search env qv topk true = Ok hits -> hits <> [] ->
  mmr (map candidate_of_hit hits) mmr_k half = Raise e ->
  retrieve env qv qt topk mmr_k rerank_topk tr
  = (Raise e, tr ++ [EvSearch qv topk true]).
Proof.
  intros Hs Hne Hm. unfold retrieve, search_vectors. rewrite Hs.
  rewrite bool_decide_eq_false_2 by done. by rewrite Hm.
Qed.

(** X11: [retrieve] stops right after the vector search when the search
    finds nothing or raises: it returns [[]], respectively lets the
    exception of the search through, and in both cases neither runs MMR nor
    calls the rerank service (the search is the only event). *)
Theorem retrieve_stops_after_search env qv qt topk mmr_k rerank_topk tr :
  match qdrant_search env qv topk true with
  | Ok [] =>
      retrieve env qv qt topk mmr_k rerank_topk tr
      = (Ok [], tr ++ [EvSearch qv topk true])
  | Raise e =>
      retrieve env qv qt topk mmr_k rerank_topk tr
      = (Raise e, tr ++ [EvSearch qv topk true])
  | Ok (_ :: _) => True
  end.
Proof.
  destruct (qdrant_search env qv topk true) as [[|h hits]|e] eqn:E; [|done|].
  - by apply retrieve_no_hits.
  - by apply retrieve_search_raises.
Qed.

(** X12: [retrieve] raises only what the vector search raised, or the
    [TypeError] of [mmr]; in both cases before the rerank service is called.
    A failure of the rerank service, or a bad index in its response, never
    surfaces as an exception. *)
Theorem retrieve_raises_only env qv qt topk mmr_k rerank_topk tr e :
  fst (retrieve env qv qt topk mmr_k rerank_topk tr) = Raise e ->
  (qdrant_search env qv topk true = Raise e \/ e = TypeError) /\
  snd (retrieve env qv qt topk mmr_k rerank_topk tr)
  = tr ++ [EvSearch qv topk true].
Proof.
  destruct (qdrant_search env qv topk true) as [hits|e'] eqn:Hs.
  2:{ rewrite (retrieve_search_raises _ _ _ _ _ _ _ _ Hs). simpl.
      intros [= <-]. auto. }
  destruct (decide (hits = [])) as [->|Hne].
  { by rewrite (retrieve_no_hits _ _ _ _ _ _ _ Hs). }
  destruct (mmr (map candidate_of_hit hits) mmr_k half) as [mmr_sel|e'] eqn:Hm.
  - destruct (retrieve_total_after_mmr env qv qt topk mmr_k rerank_topk tr
                hits mmr_sel Hs Hne Hm) as (items & tr2 & ->). discriminate.
  - rewrite (retrieve_mmr_raises _ _ _ _ _ _ _ _ _ Hs Hne Hm). simpl.
    intros [= <-]. apply (mmr_loop_raise mmr_k half (length (map candidate_of_hit hits))) in Hm; [|done]. auto.
Qed.

Lemma retrieve_raises_only_witness :
  (qdrant_search env_no_vectors [one] 12 true = Raise TypeError
   \/ TypeError = TypeError) /\
  snd (retrieve env_no_vectors [one] "q" 12 8 5 []) = [] ++ [EvSearch [one] 12 true].
Proof.
  apply (retrieve_raises_only env_no_vectors [one] "q" 12 8 5 [] TypeError).
  vm_compute. reflexivity.
Defined.

(** X13: when MMR returned a selection and the rerank service is not
    configured, or its call raises, [retrieve] returns the first
    [rerank_topk] entries of the MMR selection, in MMR order; without a
    client the search is the only call it makes. *)
Theorem retrieve_without_reranker
    env qv qt topk mmr_k rerank_topk tr hits mmr_sel :
  qdrant_search env qv topk true = Ok hits -> hits <> [] ->
  mmr (map candidate_of_hit hits) mmr_k half = Ok mmr_sel ->
  (co env = None \/
   exists rerank e, co env = Some rerank /\
     rerank (RERANK_MODEL env) qt (map doc_text mmr_sel) = Raise e) ->
  fst (retrieve env qv qt topk mmr_k rerank_topk tr)
  = Ok (py_slice_to rerank_topk mmr_sel) /\
  (co env = None ->
   snd (retrieve env qv qt topk mmr_k rerank_topk tr)
   = tr ++ [EvSearch qv topk true]).
Proof.
  intros Hs Hne Hm Hco.
  destruct (cohere_rerank_unavailable env qt (map doc_text mmr_sel)
              (RERANK_MODEL env) rerank_topk (tr ++ [EvSearch qv topk true]))
    as [tr2 Hr].
  { destruct Hco as [?|(rerank & e & ? & ?)]; [by left|].
    right. exists rerank. split; [done|]. right. left. eauto. }
  rewrite (retrieve_falls_back _ _ _ _ _ _ _ _ _ _ Hs Hne Hm Hr).
  split; [done|]. intros Hnone. simpl.
  unfold cohere_rerank in Hr. rewrite Hnone in Hr. by injection Hr as <-.
Qed.

Lemma retrieve_without_reranker_witness :
  fst (retrieve env_search_only [one] "q" 12 8 1 [])
  = Ok (py_slice_to 1 (map candidate_of_hit hits_ab)) /\
  (co env_search_only = None ->
   snd (retrieve env_search_only [one] "q" 12 8 1 [])
   = [] ++ [EvSearch [one] 12 true]).
Proof.
  apply (retrieve_without_reranker env_search_only [one] "q" 12 8 1 [] hits_ab).
  - reflexivity.
  - discriminate.
  - vm_compute. reflexivity.
  - by left.
Defined.

Lemma py_slice_to_elem {A} (n : Z) (l : list A) x :
  x ∈ py_slice_to n l -> x ∈ l.
Proof.
  destruct (py_slice_to_prefix n l) as [m ->]. apply elem_of_take_weaken.
Qed.

(** X14: whatever the rerank service answers, every entry that [retrieve]
    returns is the candidate built from one of the hits of the search, and
    for [rerank_topk >= 0] there are at most [rerank_topk] entries. *)
Theorem retrieve_items_from_hits
    env qv qt topk mmr_k rerank_topk tr hits items :
  qdrant_search env qv topk true = Ok hits ->
  fst (retrieve env qv qt topk mmr_k rerank_topk tr) = Ok items ->
  Forall (fun c => c ∈ map candidate_of_hit hits) items /\
  (0 <= rerank_topk -> Z.of_nat (length items) <= rerank_topk).
Proof.
  intros Hs. destruct (decide (hits = [])) as [->|Hne].
  { rewrite (retrieve_no_hits _ _ _ _ _ _ _ Hs). simpl. intros [= <-].
    split; [constructor|simpl; lia]. }
  destruct (mmr (map candidate_of_hit hits) mmr_k half) as [mmr_sel|e] eqn:Hm.
  2:{ by rewrite (retrieve_mmr_raises _ _ _ _ _ _ _ _ _ Hs Hne Hm). }
  rewrite (retrieve_after_mmr _ _ _ _ _ _ _ _ _ Hs Hne Hm).
  pose proof (mmr_submseteq _ _ _ _ Hm) as Hsub.
  assert (Hfb : Forall (fun c => c ∈ map candidate_of_hit hits)
                  (py_slice_to rerank_topk mmr_sel) /\
                (0 <= rerank_topk ->
                 Z.of_nat (length (py_slice_to rerank_topk mmr_sel)) <= rerank_topk)).
  { split; [|apply py_slice_to_length]. apply Forall_forall. intros c Hc.
    apply py_slice_to_elem in Hc. by eapply elem_of_submseteq. }
  destruct (cohere_rerank _ _ _ _ _ _) as [[docs [meta|]] tr2]; simpl.
  2:{ by intros [= <-]. }
  destruct (map_back mmr_sel rerank_topk meta) as [top_items|e] eqn:Hb; simpl.
  2:{ by intros [= <-]. }
  intros [= <-]. unfold map_back in Hb.
  apply mapM_py_index_elem in Hb as [Hin Hlen]. split.
  - eapply Forall_impl; [exact Hin|]. intros c Hc. simpl in Hc. by eapply elem_of_submseteq.
  - rewrite Hlen. apply py_slice_to_length.
Qed.

Lemma retrieve_items_from_hits_witness :
  let rs := [{| res_index := 1; res_score := f09 |};
             {| res_index := 1; res_score := f08 |};
             {| res_index := 0; res_score := half |}] in
  exists items,
    fst (retrieve (env_rerank rs) [one] "q" 12 8 2 []) = Ok items /\
    Forall (fun c => c ∈ map candidate_of_hit hits_ab) items /\
    (0 <= 2 -> Z.of_nat (length items) <= 2).
Proof.
  intros rs. eexists. split; [vm_compute; reflexivity|].
  apply (retrieve_items_from_hits (env_rerank rs) [one] "q" 12 8 2 [] hits_ab).
  - reflexivity.
  - vm_compute. reflexivity.
Defined.

(** X15: in every run [retrieve] calls the vector search exactly once,
    first, with [limit = topk] and [with_payload = True], and the rerank
    service at most once, with [RERANK_MODEL] and the query text; the only
    other effect is the one message printed when that call fails. *)
Theorem retrieve_calls env qv qt topk mmr_k rerank_topk tr :
  exists evs,
    snd (retrieve env qv qt topk mmr_k rerank_topk tr)
    = tr ++ EvSearch qv topk true :: evs /\
    (evs = [] \/
     exists docs,
       evs = [EvRerank (RERANK_MODEL env) qt docs] \/
       exists e, evs = [EvRerank (RERANK_MODEL env) qt docs; EvPrint e]).
Proof.
  destruct (qdrant_search env qv topk true) as [hits|e] eqn:Hs.
  2:{ exists []. rewrite (retrieve_search_raises _ _ _ _ _ _ _ _ Hs). auto. }
  destruct (decide (hits = [])) as [->|Hne].
  { exists []. rewrite (retrieve_no_hits _ _ _ _ _ _ _ Hs). auto. }
  destruct (mmr (map candidate_of_hit hits) mmr_k half) as [mmr_sel|e] eqn:Hm.
  2:{ exists []. rewrite (retrieve_mmr_raises _ _ _ _ _ _ _ _ _ Hs Hne Hm). auto. }
  rewrite (retrieve_after_mmr _ _ _ _ _ _ _ _ _ Hs Hne Hm).
  destruct (cohere_rerank_cases env qt (map doc_text mmr_sel) (RERANK_MODEL env)
              rerank_topk (tr ++ [EvSearch qv topk true]))
    as [[-> _]|[(rerank & ranked & resp & _ & _ & _ & ->)|(rerank & e & _ & _ & ->)]].
  - exists []. split; [done|auto].
  - eexists. split.
    + destruct (map_back _ _ _); simpl; by rewrite <- app_assoc.
    + right. eexists. by left.
  - eexists. split; [simpl; by rewrite <- app_assoc|].
    right. eexists. right. by eexists.
Qed.

(** * Indexing: [vectorstore.py], [embeddings.py], [app.py] *)

(** ** [upsert_points] *)

Lemma py_range_lookup n i :
  (i < n)%nat -> py_range n !! i = Some (Z.of_nat i).
Proof.
  intros H. unfold py_range. rewrite list_lookup_fmap, lookup_seq_lt by done.
  reflexivity.
Qed.

Lemma py_range_length n : length (py_range n) = n.
Proof. unfold py_range. by rewrite length_map, length_seq. Qed.

Lemma py_range_elem n i : i ∈ py_range n -> 0 <= i < Z.of_nat n.
Proof.
  unfold py_range. intros H. apply list_elem_of_fmap in H as (j & -> & Hj).
  apply elem_of_seq in Hj. lia.
Qed.

Lemma py_index_lookup {A} (l : list A) (i : nat) x :
  l !! i = Some x -> py_index l (Z.of_nat i) = Ok x.
Proof.
  intros H. pose proof (lookup_lt_Some _ _ _ H) as Hlt. unfold py_index.
  rewrite (proj2 (Z.ltb_ge _ _)) by lia.
  rewrite (proj2 (Z.leb_le _ _)) by lia.
  rewrite (proj2 (Z.ltb_lt _ _)) by lia.
  simpl. by rewrite Nat2Z.id, H.
Qed.

Lemma py_index_raise {A} (l : list A) i e : py_index l i = Raise e -> e = IndexError.
Proof.
  unfold py_index. destruct (_ && _); [|by intros [= <-]].
  destruct (l !! _); [discriminate|by intros [= <-]].
Qed.

Lemma py_index_short {A} (l : list A) (i : nat) :
  (length l <= i)%nat -> py_index l (Z.of_nat i) = Raise IndexError.
Proof. intros H. apply py_index_out_of_range. unfold in_range. lia. Qed.

Lemma upsert_points_cases {R} (store : qdrant_store R)
    (ids : list string) (vectors : list (list float))
    (payloads : list (gmap string pyval)) :
  get_client store = Ok () ->
  ((length ids <= length vectors)%nat -> (length ids <= length payloads)%nat ->
   exists points,
     upsert_points store ids vectors payloads = client_upsert store points /\
     map point_id points = ids /\
     map point_vector points = take (length ids) vectors /\
     map point_payload points = take (length ids) payloads) /\
  ((length vectors < length ids)%nat \/ (length payloads < length ids)%nat ->
   upsert_points store ids vectors payloads = Raise IndexError).
Proof.
  intros Hc. unfold upsert_points. rewrite Hc. cbn [mbind outcome_bind].
  destruct (points_of ids vectors payloads) as [points|e] eqn:E;
    cbn [mbind outcome_bind]; unfold points_of in E.
  - apply mapM_Ok in E.
    assert (Hlen : length points = length ids).
    { apply Forall2_length in E. by rewrite py_range_length in E. }
    assert (Hi : forall i p, points !! i = Some p ->
              ids !! i = Some (point_id p) /\
              vectors !! i = Some (point_vector p) /\
              payloads !! i = Some (point_payload p)).
    { intros i p Hp. destruct (Forall2_lookup_r _ _ _ _ _ E Hp) as (z & Hz & Hf).
      pose proof (lookup_lt_Some _ _ _ Hp) as Hlt.
      rewrite py_range_lookup in Hz by lia. injection Hz as <-.
      destruct (py_index ids _) as [a|] eqn:Ea; [|discriminate].
      destruct (py_index vectors _) as [v|] eqn:Ev; [|discriminate].
      destruct (py_index payloads _) as [q|] eqn:Eq; [|discriminate].
      cbn [mbind outcome_bind] in Hf. injection Hf as <-. simpl.
      apply py_index_nonneg in Ea, Ev, Eq; try lia.
      by rewrite Nat2Z.id in Ea, Ev, Eq. }
    split.
    + intros _ _. exists points. split; [done|].
      repeat split; apply list_eq; intros i; rewrite list_lookup_fmap.
      * destruct (points !! i) as [p|] eqn:Hp; simpl.
        -- by destruct (Hi i p Hp) as (-> & _).
        -- symmetry. apply lookup_ge_None. apply lookup_ge_None in Hp. lia.
      * destruct (points !! i) as [p|] eqn:Hp; simpl.
        -- destruct (Hi i p Hp) as (_ & Hv & _).
           pose proof (lookup_lt_Some _ _ _ Hp). by rewrite lookup_take_lt by lia.
        -- symmetry. apply lookup_ge_None. apply lookup_ge_None in Hp.
           rewrite length_take. lia.
      * destruct (points !! i) as [p|] eqn:Hp; simpl.
        -- destruct (Hi i p Hp) as (_ & _ & Hv).
           pose proof (lookup_lt_Some _ _ _ Hp). by rewrite lookup_take_lt by lia.
        -- symmetry. apply lookup_ge_None. apply lookup_ge_None in Hp.
           rewrite length_take. lia.
    + intros Hshort. exfalso.
      set (i := Nat.min (length vectors) (length payloads)).
      destruct (lookup_lt_is_Some_2 points i) as [p Hp]; [lia|].
      destruct (Hi i p Hp) as (_ & Hv & Hq).
      apply lookup_lt_Some in Hv, Hq. lia.
  - split; [|intros _].
    + intros Hv Hp. exfalso.
      apply mapM_Raise in E as (z & Hz & Hf). apply py_range_elem in Hz.
      destruct (lookup_lt_is_Some_2 ids (Z.to_nat z)) as [a Ha]; [lia|].
      destruct (lookup_lt_is_Some_2 vectors (Z.to_nat z)) as [v Hv']; [lia|].
      destruct (lookup_lt_is_Some_2 payloads (Z.to_nat z)) as [q Hq]; [lia|].
      apply py_index_lookup in Ha, Hv', Hq. rewrite Z2Nat.id in Ha, Hv', Hq by lia.
      by rewrite Ha, Hv', Hq in Hf.
    + apply mapM_Raise in E as (z & _ & Hf). f_equal.
      destruct (py_index ids z) as [a|] eqn:Ea.
      2:{ injection Hf as <-. by apply py_index_raise in Ea. }
      destruct (py_index vectors z) as [v|] eqn:Ev.
      2:{ injection Hf as <-. by apply py_index_raise in Ev. }
      destruct (py_index payloads z) as [q|] eqn:Eq; [discriminate|].
      injection Hf as <-. by apply py_index_raise in Eq.
Qed.

(** X16: [upsert_points] pairs the i-th id with the i-th vector and the
    i-th payload.  When there are at least as many vectors and payloads as
    ids, the store receives exactly one point per id, in order, and further
    vectors and payloads are ignored; when either list is shorter than
    [ids], the call raises [IndexError] and nothing is sent to the store. *)
Theorem upsert_points_pairs_by_position {R} (store : qdrant_store R)
    (ids : list string) (vectors : list (list float))
    (payloads : list (gmap string pyval)) :
  get_client store = Ok () ->
  ((length ids <= length vectors)%nat -> (length ids <= length payloads)%nat ->
   exists points,
     upsert_points store ids vectors payloads = client_upsert store points /\
     map point_id points = ids /\
     map point_vector points = take (length ids) vectors /\
     map point_payload points = take (length ids) payloads) /\
  ((length vectors < length ids)%nat \/ (length payloads < length ids)%nat ->
   upsert_points store ids vectors payloads = Raise IndexError).
Proof. apply upsert_points_cases. Qed.

Lemma upsert_points_pairs_by_position_witness :
  let store := {| get_client := Ok (); client_upsert := fun ps => Ok (length ps) |} in
  ((length ["a"; "b"] <= length [[one]; [half]; [pzero]])%nat ->
   (length ["a"; "b"] <= length [(∅ : gmap string pyval); ∅])%nat ->
   exists points,
     upsert_points store ["a"; "b"] [[one]; [half]; [pzero]] [∅; ∅]
     = client_upsert store points /\
     map point_id points = ["a"; "b"] /\
     map point_vector points = take (length ["a"; "b"]) [[one]; [half]; [pzero]] /\
     map point_payload points = take (length ["a"; "b"]) [∅; ∅]) /\
  ((length [[one]; [half]; [pzero]] < length ["a"; "b"])%nat \/
   (length [(∅ : gmap string pyval); ∅] < length ["a"; "b"])%nat ->
   upsert_points store ["a"; "b"] [[one]; [half]; [pzero]] [∅; ∅]
   = Raise IndexError).
Proof.
  intros store.
  apply (upsert_points_pairs_by_position store ["a"; "b"]
           [[one]; [half]; [pzero]] [∅; ∅]).
  reflexivity.
Defined.

(** ** [chunk_text]: windows over the tokens *)

Lemma chunk_loop_spec cfg raw source title tokens target step m :
  forall p cs,
  chunk_loop cfg raw source title tokens target
    (map (fun i => Z.of_nat i * step) (seq p m)) (Z.of_nat p) = Some cs ->
  (length cs <= m)%nat /\
  ((0 < m)%nat -> cs <> []) /\
  (forall j c, cs !! j = Some c ->
     chunk_at cfg raw source title tokens target
       (Z.of_nat (p + j) * step) (Z.of_nat (p + j)) = Some c) /\
  (forall j, (S j < length cs)%nat ->
     Z.of_nat (p + j) * step + target < Z.of_nat (length tokens)) /\
  ((length cs < m)%nat -> (0 < length cs)%nat ->
   Z.of_nat (length tokens) <= Z.of_nat (p + length cs - 1) * step + target).
Proof.
  induction m as [|m IH]; intros p cs; simpl.
  { intros [= <-]. simpl. repeat split; try lia; intros; try done; lia. }
  destruct (chunk_at cfg raw source title tokens target (Z.of_nat p * step)
              (Z.of_nat p)) as [c|] eqn:Hc; [|discriminate].
  cbn [mbind option_bind].
  destruct (Z.min (Z.of_nat p * step + target) (Z.of_nat (length tokens))
            =? Z.of_nat (length tokens)) eqn:Hb.
  - intros [= <-]. apply Z.eqb_eq in Hb. simpl. repeat split; try lia; try done.
    + intros [|j] c' Hj; [|done]. injection Hj as <-. by rewrite Nat.add_0_r.
    + intros _ _. replace (p + 1 - 1)%nat with p by lia. lia.
  - apply Z.eqb_neq in Hb.
    replace (Z.of_nat p + 1) with (Z.of_nat (S p)) by lia.
    destruct (chunk_loop _ _ _ _ _ _ _ _) as [cs'|] eqn:Hl; [|discriminate].
    intros [= <-]. apply IH in Hl as (Hlen & Hne & Hat & Hnb & Hlast).
    simpl. repeat split; try lia; try done.
    + intros [|j] c' Hj.
      * injection Hj as <-. by rewrite Nat.add_0_r.
      * replace (p + S j)%nat with (S p + j)%nat by lia. by apply Hat.
    + intros [|j] Hj.
      * rewrite Nat.add_0_r. lia.
      * replace (p + S j)%nat with (S p + j)%nat by lia. apply Hnb. lia.
    + intros Hlt _.
      assert (Hm : (0 < m)%nat) by lia.
      assert (Hpos : (0 < length cs')%nat).
      { destruct cs'; [by apply Hne in Hm|simpl; lia]. }
      replace (p + S (length cs') - 1)%nat with (S p + length cs' - 1)%nat by lia.
      apply Hlast; lia.
Qed.

Lemma py_range_step_pos stop step :
  1 <= step ->
  py_range_step stop step
  = Some (map (fun i => Z.of_nat i * step)
              (seq 0 (Z.to_nat ((stop + step - 1) / step)))).
Proof.
  intros H. unfold py_range_step.
  rewrite (proj2 (Z.eqb_neq step 0)) by lia.
  by rewrite (proj2 (Z.ltb_lt 0 step)) by lia.
Qed.

Lemma chunk_text_loop cfg raw source title target overlap cs :
  raw <> "" ->
  chunk_text cfg raw source title target overlap = Some cs ->
  exists tokens,
    _tokenize cfg raw = Some tokens /\
    chunk_loop cfg raw source title tokens target
      (map (fun i => Z.of_nat i * Z.max 1 (target - overlap))
           (seq 0 (Z.to_nat ((Z.of_nat (length tokens)
                              + Z.max 1 (target - overlap) - 1)
                             / Z.max 1 (target - overlap)))))
      (Z.of_nat 0) = Some cs.
Proof.
  intros Hraw. unfold chunk_text. rewrite bool_decide_eq_false_2 by done.
  destruct (_tokenize cfg raw) as [tokens|]; [|discriminate].
  cbn [mbind option_bind]. rewrite py_range_step_pos by lia.
  cbn [mbind option_bind]. intros H. by exists tokens.
Qed.

Lemma chunk_at_inv cfg raw source title tokens target start pos c :
  chunk_at cfg raw source title tokens target start pos = Some c ->
  c_id c = _make_chunk_id cfg source pos /\
  c_meta c = {[ "source" := VStr source; "title" := VStr title;
                "position" := VInt pos; "chunk_id" := VStr (py_str pos) ]} /\
  _detokenize cfg
    (py_slice start (Z.min (start + target) (Z.of_nat (length tokens))) tokens)
    raw = Some (c_text c).
Proof.
  unfold chunk_at. intros H.
  set (toks := py_slice start _ tokens) in *.
  assert (Ht : (match ENC cfg with
                | Some enc => enc_decode enc toks
                | None => _detokenize cfg toks raw
                end) = _detokenize cfg toks raw).
  { unfold _detokenize. by destruct (ENC cfg). }
  rewrite Ht in H. destruct (_detokenize cfg toks raw) as [text|]; [|discriminate].
  cbn [mbind option_bind] in H. by injection H as <-.
Qed.

(** X17: the chunks that [chunk_text] returns are numbered in step with
    the windows: the chunk at list index [j] has ["position"] [j],
    ["chunk_id"] [str(j)], the id [_make_chunk_id(source, j)], the given
    source and title, and its text is the detokenized window of
    [target_tokens] tokens that starts at token [j * step], cut at the last
    token, where [step = max(1, target_tokens - overlap_tokens)]. *)
Theorem chunk_text_windows cfg raw source title target overlap cs :
  chunk_text cfg raw source title target overlap = Some cs ->
  forall j c, cs !! j = Some c ->
    c_id c = _make_chunk_id cfg source (Z.of_nat j) /\
    c_meta c = {[ "source" := VStr source; "title" := VStr title;
                  "position" := VInt (Z.of_nat j);
                  "chunk_id" := VStr (py_str (Z.of_nat j)) ]} /\
    exists tokens,
      _tokenize cfg raw = Some tokens /\
      _detokenize cfg
        (py_slice (Z.of_nat j * Z.max 1 (target - overlap))
           (Z.min (Z.of_nat j * Z.max 1 (target - overlap) + target)
                  (Z.of_nat (length tokens)))
           tokens) raw
      = Some (c_text c).
Proof.
  intros H j c Hj. destruct (decide (raw = "")) as [->|Hraw].
  { unfold chunk_text in H. simpl in H. by injection H as <-. }
  apply chunk_text_loop in H as (tokens & Htok & H); [|done].
  apply chunk_loop_spec in H as (_ & _ & Hat & _).
  apply Hat, chunk_at_inv in Hj as (Hid & Hmeta & Htext).
  split; [done|]. split; [done|]. by exists tokens.
Qed.

Lemma chunk_text_windows_witness :
  let c1 := {| c_id := "doc::1"; c_text := "cde";
               c_meta := {[ "source" := VStr "doc"; "title" := VStr "T";
                            "position" := VInt 1; "chunk_id" := VStr "1" ]} |} in
  c_id c1 = _make_chunk_id cfg_chars "doc" (Z.of_nat 1) /\
  c_meta c1 = {[ "source" := VStr "doc"; "title" := VStr "T";
                 "position" := VInt (Z.of_nat 1);
                 "chunk_id" := VStr (py_str (Z.of_nat 1)) ]} /\
  exists tokens,
    _tokenize cfg_chars "abcde" = Some tokens /\
    _detokenize cfg_chars
      (py_slice (Z.of_nat 1 * Z.max 1 (3 - 1))
         (Z.min (Z.of_nat 1 * Z.max 1 (3 - 1) + 3)
                (Z.of_nat (length tokens)))
         tokens) "abcde"
    = Some (c_text c1).
Proof.
  intros c1.
  pose (c0 := {| c_id := "doc::0"; c_text := "abc";
                 c_meta := ({[ "source" := VStr "doc"; "title" := VStr "T";
                               "position" := VInt 0; "chunk_id" := VStr "0" ]}
                            : gmap string pyval) |}).
  apply (chunk_text_windows cfg_chars "abcde" "doc" "T" 3 1 [c0; c1]).
  - vm_compute. reflexivity.
  - reflexivity.
Defined.

Lemma ceil_div_bounds n step :
  1 <= step -> 0 <= n ->
  let m := (n + step - 1) / step in
  n <= m * step /\ (1 <= n -> (m - 1) * step < n) /\ 0 <= m.
Proof.
  intros Hs Hn m. subst m.
  pose proof (Z.div_mod (n + step - 1) step ltac:(lia)) as Hdm.
  pose proof (Z.mod_pos_bound (n + step - 1) step ltac:(lia)) as Hb.
  repeat split; [nia|intros; nia|apply Z.div_pos; lia].
Qed.

Lemma chunk_count_formula n target step q :
  1 <= step -> 0 <= q ->
  n <= q * step + target ->
  (1 <= q -> (q - 1) * step + target < n) ->
  q = Z.max 0 ((n - target + step - 1) / step).
Proof.
  intros Hs Hq Hlast Hprev.
  pose proof (Z.div_mod (n - target + step - 1) step ltac:(lia)) as Hdm.
  pose proof (Z.mod_pos_bound (n - target + step - 1) step ltac:(lia)) as Hb.
  destruct (decide (q = 0)) as [->|Hq0].
  - assert ((n - target + step - 1) / step <= 0) by nia. lia.
  - assert ((n - target + step - 1) / step = q) by nia. lia.
Qed.

(** X18: with [target_tokens >= 1] and [overlap_tokens >= 0] no token is
    lost: when [chunk_text] returns for a text with [n >= 1] tokens, it
    returns [1 + max(0, ceil((n - target_tokens) / step))] chunks, and every
    token position below [n] lies in the window of one of them (windows
    start at multiples of [step = max(1, target_tokens - overlap_tokens)],
    are [target_tokens] long and the last one ends at the last token). *)
Theorem chunk_text_covers_tokens
    cfg raw source title target overlap tokens cs :
  1 <= target -> 0 <= overlap ->
  raw <> "" -> _tokenize cfg raw = Some tokens -> tokens <> [] ->
  chunk_text cfg raw source title target overlap = Some cs ->
  Z.of_nat (length cs)
  = 1 + Z.max 0 ((Z.of_nat (length tokens) - target
                  + Z.max 1 (target - overlap) - 1)
                 / Z.max 1 (target - overlap)) /\
  forall t, 0 <= t < Z.of_nat (length tokens) ->
    exists j, (j < length cs)%nat /\
      Z.of_nat j * Z.max 1 (target - overlap) <= t
      < Z.min (Z.of_nat j * Z.max 1 (target - overlap) + target)
              (Z.of_nat (length tokens)).
Proof.
  intros Ht Ho Hraw Htok Hne H.
  apply chunk_text_loop in H as (tokens' & Htok' & H); [|done].
  rewrite Htok in Htok'. injection Htok' as <-.
  set (step := Z.max 1 (target - overlap)) in *.
  set (n := Z.of_nat (length tokens)) in *.
  assert (Hn : 1 <= n) by (destruct tokens; [done|subst n; simpl; lia]).
  assert (Hstep : 1 <= step <= target) by (subst step; lia).
  destruct (ceil_div_bounds n step) as (Hm1 & Hm2 & Hm0); [lia..|].
  set (m := (n + step - 1) / step) in *.
  apply chunk_loop_spec in H as (Hlen & Hnonempty & _ & Hnb & Hlast).
  fold n in Hnb, Hlast.
  assert (Hm : (0 < Z.to_nat m)%nat) by nia.
  assert (Hpos : (0 < length cs)%nat).
  { destruct cs; [by apply Hnonempty in Hm|simpl; lia]. }
  assert (Hend : n <= (Z.of_nat (length cs) - 1) * step + target).
  { destruct (decide (length cs < Z.to_nat m)%nat) as [Hlt|Hge].
    - specialize (Hlast Hlt Hpos). simpl in Hlast.
      replace (Z.of_nat (length cs - 1)) with (Z.of_nat (length cs) - 1) in Hlast
        by lia. lia.
    - assert (Z.of_nat (length cs) = m) by lia. nia. }
  split.
  - assert (Hq : Z.of_nat (length cs) - 1
                 = Z.max 0 ((n - target + step - 1) / step)); [|lia].
    apply chunk_count_formula; [lia|lia|lia|].
    intros Hq. specialize (Hnb (length cs - 2)%nat ltac:(lia)). simpl in Hnb.
    replace (Z.of_nat (length cs - 2)) with (Z.of_nat (length cs) - 1 - 1) in Hnb
      by lia. lia.
  - intros t Hrange.
    destruct (decide (t / step < Z.of_nat (length cs) - 1)) as [Hin|Hout].
    + pose proof (Z.div_mod t step ltac:(lia)) as Hdm.
      pose proof (Z.mod_pos_bound t step ltac:(lia)) as Hb.
      assert (0 <= t / step) by (apply Z.div_pos; lia).
      exists (Z.to_nat (t / step)). rewrite Z2Nat.id by lia.
      split; [lia|]. split; [nia|].
      specialize (Hnb (Z.to_nat (t / step)) ltac:(lia)). simpl in Hnb.
      rewrite Z2Nat.id in Hnb by lia. nia.
    + pose proof (Z.div_mod t step ltac:(lia)) as Hdm.
      pose proof (Z.mod_pos_bound t step ltac:(lia)) as Hb.
      exists (length cs - 1)%nat.
      replace (Z.of_nat (length cs - 1)) with (Z.of_nat (length cs) - 1) by lia.
      split; [lia|]. split; [nia|lia].
Qed.

Lemma chunk_text_covers_tokens_witness :
  exists cs,
    chunk_text cfg_chars "abcdefghij" "doc" "T" 3 1 = Some cs /\
    Z.of_nat (length cs) = 1 + Z.max 0 ((10 - 3 + Z.max 1 (3 - 1) - 1)
                                        / Z.max 1 (3 - 1)) /\
    forall t, 0 <= t < 10 ->
      exists j, (j < length cs)%nat /\
        Z.of_nat j * Z.max 1 (3 - 1) <= t
        < Z.min (Z.of_nat j * Z.max 1 (3 - 1) + 3) 10.
Proof.
  eexists. split; [vm_compute; reflexivity|].
  apply (chunk_text_covers_tokens cfg_chars "abcdefghij" "doc" "T" 3 1
           [97; 98; 99; 100; 101; 102; 103; 104; 105; 106]);
    try lia; try done.
Defined.

Lemma chunk_at_Some cfg raw source title tokens target start pos text :
  _detokenize cfg
    (py_slice start (Z.min (start + target) (Z.of_nat (length tokens))) tokens)
    raw = Some text ->
  is_Some (chunk_at cfg raw source title tokens target start pos).
Proof.
  unfold chunk_at, _detokenize. destruct (ENC cfg); by intros ->.
Qed.

Lemma chunk_loop_total cfg raw source title tokens target starts pos :
  (forall a b, is_Some (_detokenize cfg (py_slice a b tokens) raw)) ->
  is_Some (chunk_loop cfg raw source title tokens target starts pos).
Proof.
  intros Hd. revert pos. induction starts as [|start starts IH]; intros pos;
    simpl; [done|].
  destruct (Hd start (Z.min (start + target) (Z.of_nat (length tokens))))
    as [text Ht].
  destruct (chunk_at_Some cfg raw source title tokens target start pos text Ht)
    as [c ->].
  cbn [mbind option_bind].
  destruct (_ =? _); [done|]. by destruct (IH (pos + 1)) as [cs ->].
Qed.

(** X19: with a tokenizer whose [decode] never raises, [chunk_text]
    raises only if [encode] raises on the text: it returns a list for every
    source, title, [target_tokens] and [overlap_tokens].  In particular
    [range] is never called with the step [0], which would raise
    [ValueError] for [overlap_tokens = target_tokens]: the guard
    [max(1, ...)] keeps the step at 1 or more. *)
Theorem chunk_text_returns cfg enc raw source title target overlap :
  ENC cfg = Some enc ->
  (forall toks, is_Some (enc_decode enc toks)) ->
  is_Some (enc_encode enc raw) ->
  is_Some (chunk_text cfg raw source title target overlap).
Proof.
  intros Henc Hdec [tokens Htok]. unfold chunk_text.
  destruct (bool_decide (raw = "")); [done|].
  unfold _tokenize. rewrite Henc, Htok. cbn [mbind option_bind].
  rewrite py_range_step_pos by lia. cbn [mbind option_bind].
  apply chunk_loop_total. intros a b. unfold _detokenize. by rewrite Henc.
Qed.

Lemma chunk_text_returns_witness :
  is_Some (chunk_text cfg_chars "abcdefghij" "doc" "T" 3 3).
Proof.
  apply (chunk_text_returns cfg_chars enc_chars); [reflexivity|by eexists..].
Defined.

(** ** [embed_texts] *)

Lemma embed_texts_map cfg texts model :
  embed_texts cfg texts model = map (embed_one cfg model) texts.
Proof. by destruct texts. Qed.

Lemma embed_one_cases cfg model text :
  (exists resp vec,
     embed_content cfg model text = Some resp /\
     embedding_of resp = Some (EList vec) /\
     embed_one cfg model text = vec) \/
  ((embed_content cfg model text = None \/
    exists resp, embed_content cfg model text = Some resp /\
                 forall vec, embedding_of resp <> Some (EList vec)) /\
   embed_one cfg model text = replicate (Z.to_nat (EMBED_DIM cfg)) pzero).
Proof.
  unfold embed_one. destruct (embed_content cfg model text) as [resp|]; [|by auto].
  destruct (embedding_of resp) as [[vec|]|] eqn:E.
  - left. by exists resp, vec.
  - right. split; [|done]. right. exists resp. split; [done|]. by rewrite E.
  - right. split; [|done]. right. exists resp. split; [done|]. by rewrite E.
Qed.

(** X20: [embed_texts] returns exactly one vector per text, in the order
    of the texts.  The vector of a text is the list carried by the response
    of the service for that text when there is one, and the zero vector
    [[0.0] * EMBED_DIM] otherwise, that is, when the call raised or the
    response carried no list. *)
Theorem embed_texts_one_vector_per_text cfg texts model :
  Forall2 (fun text v =>
             (exists resp vec,
                embed_content cfg model text = Some resp /\
                embedding_of resp = Some (EList vec) /\ v = vec) \/
             ((embed_content cfg model text = None \/
               exists resp, embed_content cfg model text = Some resp /\
                            forall vec, embedding_of resp <> Some (EList vec)) /\
              v = replicate (Z.to_nat (EMBED_DIM cfg)) pzero))
          texts (embed_texts cfg texts model).
Proof.
  rewrite embed_texts_map. apply Forall2_fmap_r, Forall_Forall2_diag, Forall_forall.
  intros text _. apply embed_one_cases.
Qed.

Lemma embed_texts_length cfg texts model :
  length (embed_texts cfg texts model) = length texts.
Proof. by rewrite embed_texts_map, length_map. Qed.

(** ** [app.py]: what "Index content" sends to the store *)

Lemma index_arguments_inv cfg title source raw ids vectors payloads :
  index_arguments cfg title source raw = Some (ids, vectors, payloads) ->
  exists chunks,
    chunk_text cfg raw "user-paste" "Untitled Document"
               (TARGET_TOKENS cfg) (OVERLAP_TOKENS cfg) = Some chunks /\
    ids = map c_id chunks /\
    vectors = embed_texts cfg (map c_text chunks) (EMBED_MODEL cfg) /\
    payloads = map (payload_of title source) chunks.
Proof.
  unfold index_arguments.
  destruct (chunk_text _ _ _ _ _ _) as [chunks|]; [|discriminate].
  cbn [mbind option_bind]. intros [= <- <- <-]. by exists chunks.
Qed.


Lemma chunk_text_entry cfg raw source title target overlap cs j c :
  chunk_text cfg raw source title target overlap = Some cs ->
  cs !! j = Some c ->
  c_id c = _make_chunk_id cfg source (Z.of_nat j) /\
  c_meta c = {[ "source" := VStr source; "title" := VStr title;
                "position" := VInt (Z.of_nat j);
                "chunk_id" := VStr (py_str (Z.of_nat j)) ]}.
Proof.
  intros H Hj. destruct (decide (raw = "")) as [->|Hraw].
  { unfold chunk_text in H. simpl in H. by injection H as <-. }
  apply chunk_text_loop in H as (tokens & Htok & H); [|done].
  apply chunk_loop_spec in H as (_ & _ & Hat & _).
  by apply Hat, chunk_at_inv in Hj as (Hid & Hmeta & _).
Qed.

(** X21: what the "Index content" action does on the text [raw] (once
    [get_client] works).  A blank text (empty or only whitespace) ends with
    "No text provided." and nothing else happens.  Otherwise, if
    [chunk_text] raises, the action ends with "Indexing failed"; if it
    returns, the three lists passed to [upsert_points] have one entry per
    chunk, also when embedding calls fail, so [upsert_points] does not raise
    [IndexError]: the store receives one point per chunk, in order, with the
    chunk's id, the vector obtained for the chunk's text and a payload whose
    ["text"] is the chunk's text, and the action reports "Indexed n chunks"
    exactly when the store accepts these points. *)
Theorem index_content_one_point_per_chunk {R} cfg (store : qdrant_store R)
    title source raw :
  get_client store = Ok () ->
  (is_blank raw = true /\
   index_content cfg store title source raw = NoTextProvided) \/
  (is_blank raw = false /\
   index_arguments cfg title source raw = None /\
   chunk_text cfg raw "user-paste" "Untitled Document"
              (TARGET_TOKENS cfg) (OVERLAP_TOKENS cfg) = None /\
   index_content cfg store title source raw = IndexingFailed) \/
  (is_blank raw = false /\
   exists ids vectors payloads chunks points,
     index_arguments cfg title source raw = Some (ids, vectors, payloads) /\
     chunk_text cfg raw "user-paste" "Untitled Document"
                (TARGET_TOKENS cfg) (OVERLAP_TOKENS cfg) = Some chunks /\
     upsert_points store ids vectors payloads = client_upsert store points /\
     Forall2 (fun c p =>
                point_id p = c_id c /\
                point_vector p = embed_one cfg (EMBED_MODEL cfg) (c_text c) /\
                point_payload p !! "text" = Some (VStr (c_text c)))
             chunks points /\
     index_content cfg store title source raw
     = match client_upsert store points with
       | Ok _ => Indexed (length chunks)
       | Raise _ => IndexingFailed
       end).
Proof.
  intros Hc. unfold index_content.
  destruct (is_blank raw) eqn:Hblank; [by left|]. right.
  destruct (index_arguments cfg title source raw) as [[[ids vectors] payloads]|]
    eqn:Hargs.
  2:{ left. split; [done|]. split; [done|]. split; [|done].
      unfold index_arguments in Hargs.
      by destruct (chunk_text _ _ _ _ _ _). }
  right. split; [done|].
  pose proof Hargs as Hinv.
  apply index_arguments_inv in Hinv as (chunks & Hchunks & Hids & Hvec & Hpay).
  assert (Hlv : length vectors = length ids).
  { subst. by rewrite embed_texts_length, !length_map. }
  assert (Hlp : length payloads = length ids) by (subst; by rewrite !length_map).
  destruct (upsert_points_cases store ids vectors payloads Hc) as [Hok _].
  destruct Hok as (points & Hup & Hpid & Hpv & Hpp); [lia..|].
  rewrite <- Hlv in Hpv at 1. rewrite <- Hlp in Hpp at 1.
  rewrite firstn_all in Hpv, Hpp.
  exists ids, vectors, payloads, chunks, points.
  split; [done|]. split; [done|]. split; [done|]. split.
  - apply Forall2_same_length_lookup_2.
    { rewrite <- (length_map c_id chunks), <- Hids, <- Hpid. by rewrite length_map. }
    intros i c p Hci Hpi.
    assert (H1 : ids !! i = Some (point_id p)).
    { rewrite <- Hpid, list_lookup_fmap, Hpi. done. }
    assert (H2 : vectors !! i = Some (point_vector p)).
    { rewrite <- Hpv, list_lookup_fmap, Hpi. done. }
    assert (H3 : payloads !! i = Some (point_payload p)).
    { rewrite <- Hpp, list_lookup_fmap, Hpi. done. }
    rewrite Hids, list_lookup_fmap, Hci in H1.
    rewrite Hvec, embed_texts_map, !list_lookup_fmap, Hci in H2.
    rewrite Hpay, list_lookup_fmap, Hci in H3.
    simpl in H1, H2, H3. injection H1 as <-. injection H2 as <-. injection H3 as <-.
    repeat split. unfold payload_of. by rewrite lookup_insert.
  - rewrite Hup, Hids, length_map. reflexivity.
Qed.

Lemma index_content_one_point_per_chunk_witness :
  let store := {| get_client := Ok (); client_upsert := fun ps => Ok (length ps) |} in
  index_content cfg_chars store "My title" "my-source" "abcde" = Indexed 2 /\
  index_content cfg_chars store "My title" "my-source" "   " = NoTextProvided.
Proof.
  intros store. split.
  - destruct (index_content_one_point_per_chunk cfg_chars store
                "My title" "my-source" "abcde" eq_refl)
      as [[Hb _]|[(_ & Ha & _)|(_ & ids & vectors & payloads & chunks & points
                                  & _ & Hch & Hup & _ & ->)]].
    + vm_compute in Hb. discriminate.
    + vm_compute in Ha. discriminate.
    + vm_compute in Hch. injection Hch as <-. reflexivity.
  - destruct (index_content_one_point_per_chunk cfg_chars store
                "My title" "my-source" "   " eq_refl)
      as [[_ ->]|[(Hb & _)|(Hb & _)]]; [reflexivity|..];
      vm_compute in Hb; discriminate.
Defined.

(** X22: the title and the source label entered for a document never
    reach the store.  "Index content" calls [chunk_text(raw)] with its
    default source and title, and [**c["meta"]] then replaces the ["title"]
    and ["source"] of the payload: every payload carries the title
    ["Untitled Document"] and the source ["user-paste"], whatever was
    entered. *)
Theorem index_content_drops_title_and_source
    cfg title source raw ids vectors payloads :
  index_arguments cfg title source raw = Some (ids, vectors, payloads) ->
  Forall (fun payload =>
            payload !! "title" = Some (VStr "Untitled Document") /\
            payload !! "source" = Some (VStr "user-paste"))
         payloads.
Proof.
  intros H. apply index_arguments_inv in H as (chunks & Hchunks & _ & _ & ->).
  apply Forall_forall. intros payload Hp.
  apply list_elem_of_fmap in Hp as (c & -> & Hc).
  apply list_elem_of_lookup in Hc as [j Hj].
  destruct (chunk_text_entry _ _ _ _ _ _ _ _ _ Hchunks Hj) as [_ Hmeta].
  unfold payload_of. rewrite Hmeta. split.
  - rewrite lookup_insert_ne by done. apply lookup_union_Some_l.
    by simplify_map_eq.
  - rewrite lookup_insert_ne by done. apply lookup_union_Some_l.
    by simplify_map_eq.
Qed.

Lemma index_content_drops_title_and_source_witness :
  exists ids vectors payloads,
    index_arguments cfg_chars "My title" "my-source" "abcde"
    = Some (ids, vectors, payloads) /\
    Forall (fun payload =>
              payload !! "title" = Some (VStr "Untitled Document") /\
              payload !! "source" = Some (VStr "user-paste"))
           payloads.
Proof.
  eexists _, _, _. split; [vm_compute; reflexivity|].
  eapply (index_content_drops_title_and_source cfg_chars "My title" "my-source"
            "abcde").
  vm_compute. reflexivity.
Defined.

(** X23: the point ids do not depend on the document.  The id of the
    chunk at position [j] is [_make_chunk_id("user-paste", j)] for every
    text, title and source, so two documents indexed one after the other get
    the same ids position by position (and [upsert] replaces the points of
    the first by those of the second). *)
Theorem index_content_ids_depend_on_position_only
    cfg title1 source1 raw1 ids1 vectors1 payloads1
    title2 source2 raw2 ids2 vectors2 payloads2 :
  index_arguments cfg title1 source1 raw1 = Some (ids1, vectors1, payloads1) ->
  index_arguments cfg title2 source2 raw2 = Some (ids2, vectors2, payloads2) ->
  forall j id1 id2, ids1 !! j = Some id1 -> ids2 !! j = Some id2 ->
    id1 = _make_chunk_id cfg "user-paste" (Z.of_nat j) /\ id1 = id2.
Proof.
  intros H1 H2 j id1 id2 Hj1 Hj2.
  apply index_arguments_inv in H1 as (chunks1 & Hc1 & -> & _ & _).
  apply index_arguments_inv in H2 as (chunks2 & Hc2 & -> & _ & _).
  rewrite list_lookup_fmap in Hj1, Hj2.
  destruct (chunks1 !! j) as [c1|] eqn:E1; [|discriminate].
  destruct (chunks2 !! j) as [c2|] eqn:E2; [|discriminate].
  injection Hj1 as <-. injection Hj2 as <-.
  destruct (chunk_text_entry _ _ _ _ _ _ _ _ _ Hc1 E1) as [-> _].
  by destruct (chunk_text_entry _ _ _ _ _ _ _ _ _ Hc2 E2) as [-> _].
Qed.

Lemma index_content_ids_depend_on_position_only_witness :
  "user-paste::0" = _make_chunk_id cfg_chars "user-paste" (Z.of_nat 0) /\
  "user-paste::0" = "user-paste::0".
Proof.
  eapply (index_content_ids_depend_on_position_only
            cfg_chars "First" "a.txt" "abcde" _ _ _ "Second" "b.txt" "xyz" _ _ _)
    with (j := 0%nat).
  1, 2: vm_compute; reflexivity.
  all: reflexivity.
Defined.

(** * Answering: [llm_answer.py], [app.py] *)

(** ** Strings *)

Lemma str_app_assoc (a b c : string) : (a +:+ b) +:+ c = a +:+ b +:+ c.
Proof.
  induction a as [|x a IH]; [done|].
  change (String x ((a +:+ b) +:+ c) = String x (a +:+ b +:+ c)). by f_equal.
Qed.

Lemma str_app_nil_r (a : string) : a +:+ "" = a.
Proof.
  induction a as [|x a IH]; [done|].
  change (String x (a +:+ "") = String x a). by f_equal.
Qed.

Lemma string_of_list_ascii_length l :
  String.length (String.string_of_list_ascii l) = length l.
Proof. induction l as [|x l IH]; simpl; [done|]. by rewrite IH. Qed.

Lemma str_contains_app_l s part pre : str_contains s part -> str_contains (pre +:+ s) part.
Proof.
  intros (a & b & ->). exists (pre +:+ a), b. by rewrite str_app_assoc.
Qed.

Lemma str_contains_app_r s part post : str_contains s part -> str_contains (s +:+ post) part.
Proof.
  intros (a & b & ->). exists a, (b +:+ post). by rewrite !str_app_assoc.
Qed.

Lemma str_contains_refl s : str_contains s s.
Proof. exists "", "". simpl. by rewrite str_app_nil_r. Qed.

Lemma str_join_contains sep parts j part :
  parts !! j = Some part -> str_contains (str_join sep parts) part.
Proof.
  revert j. induction parts as [|p ps IH]; intros j Hj; [done|].
  destruct j as [|j]; simpl in Hj.
  - injection Hj as ->. destruct ps; simpl; [apply str_contains_refl|].
    apply str_contains_app_r, str_contains_refl.
  - specialize (IH j Hj). destruct ps as [|p' ps]; [done|].
    change (str_join sep (p :: p' :: ps))
      with (p +:+ sep +:+ str_join sep (p' :: ps)).
    by do 2 apply str_contains_app_l.
Qed.

Lemma py_slice_0 {A} (n : Z) (l : list A) :
  0 <= n -> py_slice 0 n l = take (Z.to_nat n) l.
Proof.
  intros Hn. unfold py_slice, py_clamp.
  rewrite (proj2 (Z.ltb_ge n 0)) by lia.
  change (0 <? 0) with false. cbv iota.
  rewrite (Z.min_l 0) by lia. change (Z.to_nat 0) with 0%nat. rewrite drop_0, Z.sub_0_r.
  destruct (Z.min_spec n (Z.of_nat (length l))) as [[? ->]|[? ->]]; [done|].
  rewrite Nat2Z.id, firstn_all. symmetry. apply take_ge. lia.
Qed.

Lemma string_of_list_ascii_app l1 l2 :
  String.string_of_list_ascii (l1 ++ l2)
  = String.string_of_list_ascii l1 +:+ String.string_of_list_ascii l2.
Proof.
  induction l1 as [|x l1 IH]; [done|].
  change (String x (String.string_of_list_ascii (l1 ++ l2))
          = String x (String.string_of_list_ascii l1
                      +:+ String.string_of_list_ascii l2)).
  by f_equal.
Qed.

Lemma str_slice_prefix (n : Z) (s : string) :
  0 <= n ->
  (String.length (str_slice 0 n s) <= Z.to_nat n)%nat /\
  exists rest, s = str_slice 0 n s +:+ rest.
Proof.
  intros Hn. unfold str_slice. rewrite py_slice_0 by done. split.
  - rewrite string_of_list_ascii_length, length_take. lia.
  - exists (String.string_of_list_ascii
              (drop (Z.to_nat n) (String.list_ascii_of_string s))).
    rewrite <- string_of_list_ascii_app, take_drop.
    by rewrite String.string_of_list_ascii_of_string.
Qed.

(** ** [build_prompt_and_sources] *)

Lemma build_prompt_inv query top_items prompt sources :
  build_prompt_and_sources query top_items = Some (prompt, sources) ->
  exists entries,
    Forall2 (fun p e => block_and_source (Z.of_nat p.1 + 1) p.2 = Some e)
            (imap (fun i item => (i, item)) top_items) entries /\
    prompt = prompt_of (str_join (nl +:+ nl) (map fst entries)) query /\
    sources = map snd entries.
Proof.
  unfold build_prompt_and_sources.
  destruct (mapM _ _) as [entries|] eqn:E; [|discriminate].
  cbn [mbind option_bind]. intros [= <- <-]. exists entries.
  split; [|done]. apply mapM_Some in E.
  eapply Forall2_impl; [exact E|]. by intros [i item] e.
Qed.

Lemma prompt_of_contains context query part :
  str_contains context part -> str_contains (prompt_of context query) part.
Proof.
  intros H. unfold prompt_of.
  repeat (first [ apply str_contains_app_r; exact H | apply str_contains_app_l ]).
Qed.

(** X24: [build_prompt_and_sources] raises (a [KeyError]) exactly when
    some item has no ["text"].  Otherwise it returns one source per item, in
    order, numbered from 1 without gaps; the source of item number [n] has
    the item's title (["Untitled"] when it has none) and as snippet the
    first 200 characters of the item's text, and the prompt contains the
    block ["[n] text"] under the same number [n]. *)
Theorem build_prompt_and_sources_numbers query top_items :
  (is_Some (build_prompt_and_sources query top_items)
   <-> Forall (fun item => is_Some (item !! "text")) top_items) /\
  forall prompt sources,
    build_prompt_and_sources query top_items = Some (prompt, sources) ->
    length sources = length top_items /\
    forall j item, top_items !! j = Some item ->
      exists text,
        item !! "text" = Some text /\
        sources !! j
        = Some {| src_n := Z.of_nat j + 1;
                  src_title := default "Untitled" (item !! "title");
                  src_snippet := str_slice 0 200 text |} /\
        (String.length (str_slice 0 200 text) <= 200)%nat /\
        (exists rest, text = str_slice 0 200 text +:+ rest) /\
        str_contains prompt ("[" +:+ py_str (Z.of_nat j + 1) +:+ "] " +:+ text).
Proof.
  split.
  - unfold build_prompt_and_sources. split.
    + intros [r Hr]. destruct (mapM _ _) as [entries|] eqn:E; [|discriminate].
      apply mapM_Some in E. apply Forall_forall. intros item Hin.
      apply list_elem_of_lookup in Hin as [j Hj].
      destruct (Forall2_lookup_l _ _ _ j (j, item) E) as (e & _ & He).
      { by rewrite list_lookup_imap, Hj. }
      unfold block_and_source in He. simpl in He.
      by destruct (item !! "text").
    + intros Hall.
      destruct (mapM_is_Some_2
                  (fun '(i, item) => block_and_source (Z.of_nat i + 1) item)
                  (imap (fun i item => (i, item)) top_items)) as [entries ->];
        [|by eexists].
      apply Forall_forall. intros [i item] Hin.
      apply list_elem_of_lookup in Hin as [j Hj].
      rewrite list_lookup_imap in Hj.
      destruct (top_items !! j) as [item'|] eqn:Hj'; [|discriminate].
      injection Hj as <- <-.
      rewrite Forall_forall in Hall.
      destruct (Hall item') as [text Ht]; [by eapply list_elem_of_lookup_2|].
      unfold block_and_source. simpl. by rewrite Ht.
  - intros prompt sources H.
    apply build_prompt_inv in H as (entries & HF & -> & ->).
    pose proof (Forall2_length _ _ _ HF) as Hlen. rewrite length_imap in Hlen.
    split; [by rewrite length_map|].
    intros j item Hj.
    destruct (Forall2_lookup_l _ _ _ j (j, item) HF) as (e & He & Hb).
    { by rewrite list_lookup_imap, Hj. }
    unfold block_and_source in Hb. simpl in Hb.
    destruct (item !! "text") as [text|] eqn:Ht; [|discriminate].
    injection Hb as <-. exists text. split; [done|].
    split; [by rewrite list_lookup_fmap, He|].
    destruct (str_slice_prefix 200 text) as [Hl Hp]; [lia|].
    split; [exact Hl|]. split; [exact Hp|].
    apply prompt_of_contains.
    apply (str_join_contains _ _ j). by rewrite list_lookup_fmap, He.
Qed.

Lemma build_prompt_and_sources_numbers_witness :
  exists prompt sources,
    build_prompt_and_sources "Why?"
      [ {[ "text" := "alpha"; "title" := "A" ]}; {[ "text" := "beta" ]} ]
    = Some (prompt, sources) /\
    length sources = 2%nat /\
    sources !! 1%nat
    = Some {| src_n := 2; src_title := "Untitled"; src_snippet := "beta" |}.
Proof.
  eexists _, _. split; [vm_compute; reflexivity|].
  destruct (build_prompt_and_sources_numbers "Why?"
              [ {[ "text" := "alpha"; "title" := "A" ]}; {[ "text" := "beta" ]} ])
    as [_ H].
  destruct (H _ _ eq_refl) as [Hlen Hj]. split; [exact Hlen|].
  destruct (Hj 1%nat ({[ "text" := "beta" ]} : gmap string string) eq_refl)
    as (text & Ht & Hs & _).
  vm_compute in Ht. injection Ht as <-. exact Hs.
Defined.

(** ** [app.py]: from hits to the prompt *)

Lemma top_items_of_spec hits items :
  top_items_of hits = Some items ->
  items = map item_of_payload
              (omap hit_payload (filter (fun h => has_text h = true) hits)).
Proof.
  revert items. induction hits as [|h hits IH]; intros items.
  { by intros [= <-]. }
  cbn [top_items_of].
  destruct (hit_payload h) as [payload|] eqn:Hp; [|discriminate].
  cbn [mbind option_bind].
  destruct (top_items_of hits) as [rest|]; [|discriminate].
  cbn [mbind option_bind]. rewrite (IH rest eq_refl).
  intros [= <-].
  destruct (bool_decide (default "" (payload !! "text") = "")) eqn:E.
  - rewrite filter_cons_False; [done|]. unfold has_text. by rewrite Hp, E.
  - rewrite filter_cons_True by (unfold has_text; by rewrite Hp, E).
    cbn [omap list_omap]. by rewrite Hp.
Qed.

Lemma has_text_payloads (hits : list hit) (payload : gmap string string) :
  payload ∈ omap hit_payload (filter (fun h => has_text h = true) hits) ->
  default "" (payload !! "text") <> "".
Proof.
  intros H. apply list_elem_of_omap in H as (h & Hh & Hp).
  apply list_elem_of_filter in Hh as [Ht _].
  unfold has_text in Ht. rewrite Hp in Ht.
  apply negb_true_iff, bool_decide_eq_false in Ht. exact Ht.
Qed.

(** X25: the items that the "Ask" action builds from the hits are, in
    order, the hits whose payload has a non-empty ["text"], each turned into
    the dict of its text, its title (["Untitled"] without one) and its
    source (["unknown"] without one).  [build_prompt_and_sources] does not
    raise on them: it returns one source per such hit, in the same order,
    numbered from 1, with the hit's title and the first 200 characters of
    its (non-empty) text.  (A hit without payload makes the loop raise
    before the prompt is built.) *)
Theorem ask_builds_prompt_for_hits_with_text hits items query :
  top_items_of hits = Some items ->
  let payloads := omap hit_payload (filter (fun h => has_text h = true) hits) in
  items = map item_of_payload payloads /\
  Forall (fun payload => default "" (payload !! "text") <> "") payloads /\
  exists prompt sources,
    build_prompt_and_sources query items = Some (prompt, sources) /\
    sources
    = imap (fun j payload =>
              {| src_n := Z.of_nat j + 1;
                 src_title := default "Untitled" (payload !! "title");
                 src_snippet := str_slice 0 200 (default "" (payload !! "text")) |})
           payloads.
Proof.
  intros H payloads. apply top_items_of_spec in H. fold payloads in H.
  split; [exact H|]. split.
  { apply Forall_forall. intros payload. apply has_text_payloads. }
  destruct (mapM_is_Some_2
              (fun '(i, item) => block_and_source (Z.of_nat i + 1) item)
              (imap (fun i item => (i, item)) items)) as [entries He].
  { apply Forall_forall. intros [i item] Hin.
    apply list_elem_of_lookup in Hin as [j Hj].
    rewrite list_lookup_imap in Hj.
    destruct (items !! j) as [item'|] eqn:Hj'; [|discriminate].
    injection Hj as <- <-. rewrite H, list_lookup_fmap in Hj'.
    destruct (payloads !! j) as [payload|]; [|discriminate].
    injection Hj' as <-.
    unfold block_and_source, item_of_payload. simpl. by simplify_map_eq. }
  unfold build_prompt_and_sources. rewrite He. cbn [mbind option_bind].
  eexists _, _. split; [reflexivity|].
  apply mapM_Some in He. apply list_eq. intros j.
  rewrite list_lookup_fmap, list_lookup_imap.
  destruct (payloads !! j) as [payload|] eqn:Hj.
  - destruct (Forall2_lookup_l _ _ _ j (j, item_of_payload payload) He)
      as (e & -> & Hb).
    { by rewrite list_lookup_imap, H, list_lookup_fmap, Hj. }
    unfold block_and_source, item_of_payload in Hb. simpl in Hb.
    simplify_map_eq. done.
  - apply Forall2_length in He. rewrite length_imap, H, length_map in He.
    apply lookup_ge_None in Hj.
    rewrite (proj2 (lookup_ge_None entries j)) by lia. done.
Qed.

Lemma ask_builds_prompt_for_hits_with_text_witness :
  let hits := [mk_hit "a" f09 None;
               {| hit_id := Some "b"; hit_score := None; hit_vector := None;
                  hit_payload := Some ∅ |};
               {| hit_id := Some "c"; hit_score := None; hit_vector := None;
                  hit_payload := Some {[ "text" := "gamma"; "title" := "C" ]} |}] in
  let payloads : list (gmap string string) :=
    [ {[ "text" := "a" ]}; {[ "text" := "gamma"; "title" := "C" ]} ] in
  let items := map item_of_payload payloads in
  top_items_of hits = Some items /\
  omap hit_payload (filter (fun h => has_text h = true) hits) = payloads /\
  items = map item_of_payload
              (omap hit_payload (filter (fun h => has_text h = true) hits)) /\
  Forall (fun payload => default "" (payload !! "text") <> "")
         (omap hit_payload (filter (fun h => has_text h = true) hits)) /\
  exists prompt sources,
    build_prompt_and_sources "q" items = Some (prompt, sources) /\
    sources
    = imap (fun j payload =>
              {| src_n := Z.of_nat j + 1;
                 src_title := default "Untitled" (payload !! "title");
                 src_snippet := str_slice 0 200 (default "" (payload !! "text")) |})
           (omap hit_payload (filter (fun h => has_text h = true) hits)).
Proof.
  intros hits payloads items.
  split; [vm_compute; reflexivity|]. split; [vm_compute; reflexivity|].
  apply (ask_builds_prompt_for_hits_with_text hits items "q").
  vm_compute. reflexivity.
Defined.

(** * Floats that come from integers *)

(** ** Rounding stays finite *)

Lemma shr_fexp_snd m e l :
  snd (shr_fexp prec emax m e l)
  = Z.max e (fexp prec emax (Zdigits2 m + e)).
Proof.
  unfold shr_fexp, shr.
  destruct (fexp prec emax (Zdigits2 m + e) - e) eqn:E; simpl; lia.
Qed.

Lemma round_nearest_even_le m l :
  exists m', round_nearest_even (Z.pos m) l = Z.pos m' /\
             (m <= m')%positive /\ (m' <= m + 1)%positive.
Proof.
  destruct l as [|[]]; simpl.
  - exists m. split; [done|lia].
  - destruct m; simpl; eexists; (split; [reflexivity|lia]).
  - exists m. split; [done|lia].
  - exists (m + 1)%positive. split; [done|lia].
Qed.

Lemma digits2_pos_succ_le m : (digits2_pos (m + 1) <= digits2_pos m + 1)%positive.
Proof.
  pose proof (digits2_pos_log2 m) as H1.
  pose proof (digits2_pos_log2 (m + 1)) as H2.
  pose proof (Z.log2_double (Z.pos m) ltac:(lia)) as Hd.
  pose proof (Z.log2_le_mono (Z.pos (m + 1)) (2 * Z.pos m) ltac:(lia)). lia.
Qed.

(** Rounding a positive number that is neither in the subnormal range nor
    near the overflow threshold gives a finite number of about the same
    magnitude. *)
Lemma binary_round_aux_finite s m e l :
  SpecFloat.emin prec emax < Z.pos (digits2_pos m) + e ->
  Z.pos (digits2_pos m) + e <= 1022 -> e <= 971 ->
  exists m' e',
    binary_round_aux prec emax s (Z.pos m) e l = S754_finite s m' e' /\
    e' <= 971 /\
    Z.pos (digits2_pos m) + e <= Z.pos (digits2_pos m') + e'
    <= Z.pos (digits2_pos m) + e + 1.
Proof.
  intros Hlo Hhi He. unfold binary_round_aux.
  destruct (shr_fexp_pos m e l Hlo) as (m1 & Hm1 & Hd1).
  pose proof (shr_fexp_snd (Z.pos m) e l) as He1.
  destruct (shr_fexp prec emax (Z.pos m) e l) as [mrs1 e1].
  simpl in Hm1, Hd1, He1. rewrite Hm1.
  destruct (round_nearest_even_le m1 (loc_of_shr_record mrs1))
    as (m2 & -> & Hle & Hle').
  pose proof (digits2_pos_mono _ _ Hle) as Hdle.
  pose proof (digits2_pos_mono _ _ Hle') as Hdle'.
  pose proof (digits2_pos_succ_le m1) as Hsucc.
  destruct (shr_fexp_pos m2 e1 loc_Exact) as (m3 & Hm3 & Hd3); [lia|].
  pose proof (shr_fexp_snd (Z.pos m2) e1 loc_Exact) as He2.
  destruct (shr_fexp prec emax (Z.pos m2) e1 loc_Exact) as [mrs2 e2].
  simpl in Hm3, Hd3, He2. rewrite Hm3.
  assert (Hb : e2 <= 971).
  { unfold fexp, SpecFloat.emin, prec, emax in *. lia. }
  rewrite (proj2 (Z.leb_le _ _)) by (unfold emax, prec; lia).
  exists m3, e2. split; [done|]. split; [done|]. lia.
Qed.

(** ** The float of a small integer is exact *)

Lemma pos_iter_xO p k : Z.pos (Pos.iter xO p k) = Z.pos p * 2 ^ Z.pos k.
Proof.
  induction k using Pos.peano_ind.
  - simpl. lia.
  - rewrite Pos.iter_succ, Pos2Z.inj_xO, IHk, Pos2Z.inj_succ, Z.pow_succ_r by lia.
    lia.
Qed.

Lemma binary_round_aux_canonical s m e :
  fexp prec emax (Z.pos (digits2_pos m) + e) = e -> e <= 971 ->
  binary_round_aux prec emax s (Z.pos m) e loc_Exact = S754_finite s m e.
Proof.
  intros Hc He. unfold binary_round_aux.
  rewrite (shr_fexp_canonical m e Hc).
  cbn [shr_m loc_of_shr_record round_nearest_even].
  rewrite (shr_fexp_canonical m e Hc). cbn [shr_m].
  by rewrite (proj2 (Z.leb_le _ _)) by (unfold emax, prec; lia).
Qed.

Lemma digits2_pos_lt_pow2 p k :
  0 <= k -> Z.pos p < 2 ^ k -> Z.pos (digits2_pos p) <= k.
Proof.
  intros Hk H. rewrite digits2_pos_log2.
  apply Z.log2_lt_pow2 in H; lia.
Qed.

Lemma of_Z_small p :
  Z.pos p < 2 ^ 53 ->
  exists m e,
    of_Z (Z.pos p) = S754_finite false m e /\
    valid (S754_finite false m e) = true /\
    e <= 0 /\ Z.pos m = Z.pos p * 2 ^ (- e) /\
    Z.pos (digits2_pos m) + e = Z.pos (digits2_pos p).
Proof.
  intros Hp. pose proof (digits2_pos_lt_pow2 p 53 ltac:(lia) Hp) as Hd.
  unfold of_Z, binary_normalize, binary_round.
  pose proof (shl_align_digits p 0 (fexp prec emax (Z.pos (digits2_pos p) + 0)))
    as Hsd.
  assert (Hf : fexp prec emax (Z.pos (digits2_pos p) + 0)
               = Z.pos (digits2_pos p) - 53).
  { unfold fexp, SpecFloat.emin, prec, emax. lia. }
  rewrite Hf in *.
  assert (Hshape : exists mz ez,
            shl_align p 0 (Z.pos (digits2_pos p) - 53) = (mz, ez) /\
            ez = Z.pos (digits2_pos p) - 53 /\ Z.pos mz = Z.pos p * 2 ^ (- ez)).
  { unfold shl_align.
    destruct (Z.pos (digits2_pos p) - 53 - 0) as [|k|k] eqn:E; [|lia|].
    - exists p, 0. repeat split; [lia|simpl; lia].
    - eexists _, _. split; [reflexivity|]. split; [lia|].
      rewrite pos_iter_xO. f_equal. f_equal. lia. }
  destruct Hshape as (mz & ez & Hal & Hez & Hmz). rewrite Hal in *.
  simpl in Hsd.
  assert (Hc : fexp prec emax (Z.pos (digits2_pos mz) + ez) = ez).
  { unfold fexp, SpecFloat.emin, prec, emax. lia. }
  rewrite (binary_round_aux_canonical false mz ez Hc) by lia.
  exists mz, ez. split; [done|]. split.
  - unfold valid, valid_binary, bounded, canonical_mantissa.
    rewrite Hc, Z.eqb_refl. simpl. apply Z.leb_le. unfold emax, prec. lia.
  - repeat split; lia.
Qed.

Lemma float_to_int_of_Z n :
  0 <= n < 2 ^ 53 ->
  exists x, float_of_int n = Some x /\ valid x = true /\
            float_to_int x = Some n /\ nonneg x = true /\ finite x = true.
Proof.
  intros Hn. unfold float_of_int. destruct n as [|p|p]; [|
|lia].
  - exists pzero. by repeat split.
  - destruct (of_Z_small p) as (m & e & -> & Hv & He & Hm & _); [lia|].
    exists (S754_finite false m e). repeat split; [done|].
    unfold float_to_int. destruct (0 <=? e) eqn:E.
    + apply Z.leb_le in E. assert (e = 0) as -> by lia.
      rewrite Z.shiftl_0_r. f_equal. simpl in Hm. lia.
    + rewrite Z.shiftr_div_pow2 by lia. rewrite Hm.
      rewrite Z.div_mul; [done|]. apply Z.pow_nonzero; lia.
Qed.

(** ** Quotients of integers *)

Lemma div_eucl_div_mod a b : Z.div_eucl a b = (a / b, a mod b).
Proof. unfold Z.div, Z.modulo. by destruct (Z.div_eucl a b). Qed.

Lemma new_location_0 n : new_location n 0 = loc_Exact.
Proof. unfold new_location. by destruct (Z.even n). Qed.

(** [n / n] is [1.0] for every positive integer [n]. *)
Lemma fdiv_exact_self p : fdiv (exact (Z.pos p)) (exact (Z.pos p)) = one.
Proof.
  unfold fdiv, exact, SFdiv, SFdiv_core_binary. cbn [xorb].
  replace (Zdigits2 (Z.pos p) + 0 - (Zdigits2 (Z.pos p) + 0)) with 0 by lia.
  change (Z.min (fexp prec emax 0) (0 - 0)) with (-53).
  change (0 - 0 - -53) with 53.
  rewrite div_eucl_div_mod, Z.shiftl_mul_pow2 by lia.
  rewrite (Z.mul_comm (Z.pos p) (2 ^ 53)), Z.div_mul, Z.mod_mul by lia.
  rewrite new_location_0. reflexivity.
Qed.

Lemma fdiv_exact_finite a b :
  Z.pos a < 2 ^ 53 -> Z.pos b < 2 ^ 53 ->
  exists m e,
    fdiv (exact (Z.pos a)) (exact (Z.pos b)) = S754_finite false m e /\
    e <= 971 /\ -104 <= Z.pos (digits2_pos m) + e <= 108.
Proof.
  intros Ha Hb.
  pose proof (digits2_pos_lt_pow2 a 53 ltac:(lia) Ha) as Hda.
  pose proof (digits2_pos_lt_pow2 b 53 ltac:(lia) Hb) as Hdb.
  unfold fdiv, exact, SFdiv, SFdiv_core_binary. cbn [xorb Zdigits2].
  set (da := Z.pos (digits2_pos a)) in *. set (db := Z.pos (digits2_pos b)) in *.
  assert (Hda1 : 1 <= da) by (subst da; lia).
  assert (Hdb1 : 1 <= db) by (subst db; lia).
  assert (He' : Z.min (fexp prec emax (da + 0 - (db + 0))) (0 - 0) = da - db - 53).
  { unfold fexp, SpecFloat.emin, prec, emax. lia. }
  rewrite He'.
  replace (0 - 0 - (da - db - 53)) with (53 + db - da) by lia.
  destruct (53 + db - da) as [|s|s] eqn:Es; [lia| |lia].
  rewrite div_eucl_div_mod, Z.shiftl_mul_pow2 by lia.
  assert (Hb2 : Z.pos b < 2 ^ db).
  { subst db. rewrite digits2_pos_log2.
    apply Z.log2_lt_pow2; lia. }
  assert (Hpow : 2 ^ db <= 2 ^ Z.pos s) by (apply Z.pow_le_mono_r; lia).
  assert (Hq1 : 0 < Z.pos a * 2 ^ Z.pos s / Z.pos b).
  { apply Z.div_str_pos. nia. }
  assert (Hq2 : Z.pos a * 2 ^ Z.pos s / Z.pos b <= Z.pos a * 2 ^ Z.pos s).
  { apply Z.div_le_upper_bound; [lia|]. nia. }
  destruct (Z.pos a * 2 ^ Z.pos s / Z.pos b) as [|q|q] eqn:Eq; [lia| |lia].
  assert (Hdq : Z.pos (digits2_pos q) <= da + Z.pos s).
  { rewrite digits2_pos_log2. subst da. rewrite digits2_pos_log2.
    apply Z.log2_le_mono in Hq2. rewrite Z.log2_mul_pow2 in Hq2 by lia. lia. }
  destruct (binary_round_aux_finite false q (da - db - 53)
              (new_location (Z.pos b) (Z.pos a * 2 ^ Z.pos s mod Z.pos b)))
    as (m & e & -> & He & Hlo & Hhi).
  - unfold SpecFloat.emin, prec, emax. lia.
  - lia.
  - lia.
  - exists m, e. split; [done|]. split; [done|]. lia.
Qed.

(** The product of two positive finite numbers of moderate magnitude is
    finite. *)
Lemma fmul_finite_bounded m1 e1 m2 e2 :
  -500 <= Z.pos (digits2_pos m1) + e1 <= 500 ->
  -500 <= Z.pos (digits2_pos m2) + e2 <= 500 ->
  e1 + e2 <= 971 ->
  exists m e, fmul (S754_finite false m1 e1) (S754_finite false m2 e2)
              = S754_finite false m e.
Proof.
  intros H1 H2 He. unfold fmul, SFmul. cbn [xorb].
  pose proof (digits2_pos_log2 m1) as Hd1.
  pose proof (digits2_pos_log2 m2) as Hd2.
  pose proof (digits2_pos_log2 (m1 * m2)) as Hd.
  pose proof (Z.log2_mul_below (Z.pos m1) (Z.pos m2) ltac:(lia) ltac:(lia)) as Hbelow.
  pose proof (Z.log2_mul_above (Z.pos m1) (Z.pos m2) ltac:(lia) ltac:(lia)) as Habove.
  change (Z.pos m1 * Z.pos m2) with (Z.pos (m1 * m2)) in *.
  destruct (binary_round_aux_finite false (m1 * m2) (e1 + e2) loc_Exact)
    as (m & e & -> & _); [unfold SpecFloat.emin, prec, emax; lia|lia|lia|].
  by exists m, e.
Qed.

(** ** [chunk_text] without tiktoken *)

Lemma string_length_list s :
  length (String.list_ascii_of_string s) = String.length s.
Proof. induction s as [|a s IH]; simpl; [done|]. by rewrite IH. Qed.

Lemma py_slice_range a b n :
  exists s len, py_slice a b (py_range n) = map Z.of_nat (seq s len) /\
                (s + len <= n)%nat.
Proof.
  unfold py_slice, py_range. rewrite length_map, length_seq.
  set (a' := Z.to_nat (py_clamp (Z.of_nat n) a)).
  set (k := Z.to_nat (py_clamp (Z.of_nat n) b - py_clamp (Z.of_nat n) a)).
  rewrite <- fmap_drop, <- fmap_take, drop_seq, take_seq. simpl.
  exists a', (k `min` (n - a'))%nat. split; [done|].
  assert (a' <= n)%nat; [|lia].
  subst a'. unfold py_clamp. destruct (Z.ltb_spec a 0); lia.
Qed.

Lemma str_slice_all s : str_slice 0 (Z.of_nat (String.length s)) s = s.
Proof.
  unfold str_slice. rewrite py_slice_0 by lia.
  rewrite Nat2Z.id, <- string_length_list, firstn_all.
  apply String.string_of_list_ascii_of_string.
Qed.

Lemma str_slice_empty s :
  str_slice (Z.of_nat (String.length s)) (Z.of_nat (String.length s)) s = "".
Proof.
  unfold str_slice, py_slice. rewrite Z.sub_diag. reflexivity.
Qed.

Lemma float_to_int_nonneg m e :
  exists k, float_to_int (S754_finite false m e) = Some k /\ 0 <= k.
Proof.
  unfold float_to_int. eexists. split; [reflexivity|].
  destruct (0 <=? e).
  - apply Z.shiftl_nonneg. lia.
  - apply Z.shiftr_nonneg. lia.
Qed.

Lemma int_div_times_len a b L :
  0 <= a < 2 ^ 53 -> 0 < b < 2 ^ 53 -> 0 <= L < 2 ^ 53 ->
  exists q x k,
    py_int_truediv a b = Some q /\ float_of_int L = Some x /\
    float_to_int (fmul q x) = Some k /\ 0 <= k /\ (a = 0 -> k = 0).
Proof.
  intros Ha Hb HL. unfold py_int_truediv, float_of_int.
  rewrite (proj2 (Z.eqb_neq b 0)) by lia.
  destruct b as [|b|b]; [lia| |lia].
  assert (Hx : of_Z L = pzero \/
               exists m e, of_Z L = S754_finite false m e /\ e <= 0 /\
                 1 <= Z.pos (digits2_pos m) + e <= 53).
  { destruct L as [|p|p]; [by left| |lia]. right.
    destruct (of_Z_small p) as (m & e & -> & _ & He & _ & Hd); [lia|].
    pose proof (digits2_pos_lt_pow2 p 53 ltac:(lia) ltac:(lia)).
    exists m, e. split; [done|]. lia. }
  destruct a as [|a|a]; [| |lia].
  - change (fdiv (exact 0) (exact (Z.pos b))) with pzero.
    destruct Hx as [Hx|(m & e & Hx & _)]; rewrite Hx.
    + exists pzero, pzero, 0. by split_and!.
    + exists pzero, (S754_finite false m e), 0. by split_and!.
  - destruct (fdiv_exact_finite a b) as (mq & eq & Hq & Heq & Hdq); [lia..|].
    rewrite Hq.
    destruct Hx as [Hx|(m & e & Hx & He & Hd)]; rewrite Hx.
    + exists (S754_finite false mq eq), pzero, 0. by split_and!.
    + destruct (fmul_finite_bounded mq eq m e) as (m' & e' & Hm); [lia..|].
      destruct (float_to_int_nonneg m' e') as (k & Hk & Hk0).
      exists (S754_finite false mq eq), (S754_finite false m e), k. rewrite Hm.
      split_and!; [done|done|done|done|lia].
Qed.

Lemma int_div_self_times_len b L :
  0 < b -> 0 <= L < 2 ^ 53 ->
  exists x, py_int_truediv b b = Some one /\ float_of_int L = Some x /\
            float_to_int (fmul one x) = Some L.
Proof.
  intros Hb HL. unfold py_int_truediv.
  rewrite (proj2 (Z.eqb_neq b 0)) by lia.
  destruct b as [|b|b]; [lia| |lia]. rewrite fdiv_exact_self.
  destruct (float_to_int_of_Z L HL) as (x & Hx & Hv & Hi & _).
  exists x. by rewrite (fmul_one_l x Hv).
Qed.

Lemma py_index_last_seq s len :
  (0 < len)%nat ->
  py_index (map Z.of_nat (seq s len)) (-1) = Ok (Z.of_nat (s + len - 1)).
Proof.
  intros H. unfold py_index. rewrite length_map, length_seq.
  change (-1 <? 0) with true. cbv iota.
  rewrite (proj2 (Z.leb_le _ _)), (proj2 (Z.ltb_lt _ _)) by lia. simpl.
  rewrite list_lookup_fmap, lookup_seq_lt by lia. simpl. do 2 f_equal. lia.
Qed.

Lemma py_index_first_seq s len :
  (0 < len)%nat ->
  py_index (map Z.of_nat (seq s len)) 0 = Ok (Z.of_nat s).
Proof.
  intros H. unfold py_index. rewrite length_map, length_seq.
  change (0 <? 0) with false. cbv iota.
  rewrite (proj2 (Z.leb_le _ _)), (proj2 (Z.ltb_lt _ _)) by lia. simpl.
  rewrite list_lookup_fmap, lookup_seq_lt by lia. simpl. do 2 f_equal. lia.
Qed.

(** The fallback of [_detokenize] on consecutive token numbers
    [s, ..., s + len - 1]: the slice of the text always runs to its end. *)
Lemma detokenize_fallback_range cfg raw s len :
  ENC cfg = None ->
  Z.of_nat (String.length raw) < 2 ^ 53 -> Z.of_nat (s + len) < 2 ^ 53 ->
  exists k,
    0 <= k /\
    _detokenize cfg (map Z.of_nat (seq s len)) raw
    = Some (str_slice k (Z.of_nat (String.length raw)) raw) /\
    (s = 0%nat -> (0 < len)%nat -> k = 0).
Proof.
  intros Henc HL Hs. unfold _detokenize. rewrite Henc.
  destruct len as [|len].
  { exists (Z.of_nat (String.length raw)). simpl.
    rewrite str_slice_empty. repeat split; [lia|lia]. }
  rewrite bool_decide_eq_false_2 by (simpl; discriminate).
  rewrite py_index_last_seq, py_index_first_seq by lia.
  cbn [succeeded mbind option_bind].
  replace (Z.max (Z.of_nat (s + S len - 1) + 1) 1) with (Z.of_nat (s + S len))
    by lia.
  replace (Z.of_nat (s + S len - 1) + 1) with (Z.of_nat (s + S len)) by lia.
  destruct (int_div_times_len (Z.of_nat s) (Z.of_nat (s + S len))
              (Z.of_nat (String.length raw)))
    as (q & x & k & -> & Hx & Hk & Hk0 & Hzero); [lia..|].
  destruct (int_div_self_times_len (Z.of_nat (s + S len))
              (Z.of_nat (String.length raw)))
    as (x' & -> & Hx' & Hend); [lia..|].
  rewrite Hx in Hx'. injection Hx' as <-. rewrite Hx.
  cbn [mbind option_bind]. rewrite Hk. cbn [mbind option_bind].
  rewrite Hend. cbn [mbind option_bind].
  exists k. repeat split; [done|]. intros -> _. by apply Hzero.
Qed.

Lemma py_slice_0_range b n :
  0 <= b ->
  py_slice 0 b (py_range n) = map Z.of_nat (seq 0 (Z.to_nat b `min` n)).
Proof.
  intros Hb. rewrite py_slice_0 by done. unfold py_range.
  by rewrite <- fmap_take, take_seq.
Qed.

Lemma tokenize_fallback cfg raw :
  ENC cfg = None ->
  _tokenize cfg raw
  = Some (py_range (Z.to_nat (Z.max 1 (Z.of_nat (String.length raw) / 4)))).
Proof. intros H. unfold _tokenize. by rewrite H. Qed.

(** X26: without tiktoken the chunks are not windows of the text.  For a
    non-empty text (of fewer than 2^53 characters) [chunk_text] returns at
    least one chunk and does not raise, whatever [target_tokens] and
    [overlap_tokens] are; but the text of every chunk is a slice
    [raw[k:len(raw)]] that runs to the end of the text, because
    [_detokenize] scales by the last token of the window instead of the
    number of tokens of the text; and for [target_tokens >= 1] the first
    chunk's text is the whole text. *)
Theorem chunk_text_without_tiktoken cfg raw source title target overlap :
  ENC cfg = None -> raw <> "" ->
  Z.of_nat (String.length raw) < 2 ^ 53 ->
  exists cs,
    chunk_text cfg raw source title target overlap = Some cs /\
    cs <> [] /\
    (forall c, c ∈ cs ->
       exists k, 0 <= k /\
         c_text c = str_slice k (Z.of_nat (String.length raw)) raw) /\
    (1 <= target -> exists c, cs !! 0%nat = Some c /\ c_text c = raw).
Proof.
  intros Henc Hraw HL.
  set (L := Z.of_nat (String.length raw)) in *.
  assert (HL1 : 1 <= L).
  { subst L. destruct raw; [done|simpl; lia]. }
  set (n := Z.to_nat (Z.max 1 (L / 4))).
  assert (Hn : (1 <= n)%nat /\ Z.of_nat n < 2 ^ 53).
  { subst n. pose proof (Z.div_le_upper_bound L 4 L ltac:(lia) ltac:(lia)).
    pose proof (Z.div_pos L 4 ltac:(lia) ltac:(lia)). lia. }
  assert (Hdetok : forall a b, exists k, 0 <= k /\
            _detokenize cfg (py_slice a b (py_range n)) raw
            = Some (str_slice k L raw)).
  { intros a b. destruct (py_slice_range a b n) as (s & len & -> & Hle).
    destruct (detokenize_fallback_range cfg raw s len Henc HL)
      as (k & Hk & Hd & _); [lia|]. by exists k. }
  unfold chunk_text. rewrite bool_decide_eq_false_2 by done.
  rewrite (tokenize_fallback cfg raw Henc). fold L n.
  cbn [mbind option_bind]. rewrite py_range_step_pos by lia.
  cbn [mbind option_bind]. rewrite py_range_length.
  set (step := Z.max 1 (target - overlap)).
  destruct (ceil_div_bounds (Z.of_nat n) step) as (_ & _ & Hm0); [lia..|].
  assert (Hm : (0 < Z.to_nat ((Z.of_nat n + step - 1) / step))%nat).
  { assert (1 <= (Z.of_nat n + step - 1) / step); [|lia].
    apply Z.div_le_lower_bound; lia. }
  destruct (chunk_loop_total cfg raw source title (py_range n) target
              (map (fun i => Z.of_nat i * step)
                   (seq 0 (Z.to_nat ((Z.of_nat n + step - 1) / step)))) 0)
    as [cs Hcs].
  { intros a b. destruct (Hdetok a b) as (k & _ & ->). done. }
  exists cs. split; [exact Hcs|].
  apply (chunk_loop_spec _ _ _ _ _ _ _ _ 0%nat) in Hcs
    as (_ & Hne & Hat & _).
  split; [by apply Hne|]. split.
  - intros c Hc. apply list_elem_of_lookup in Hc as [j Hj].
    apply Hat, chunk_at_inv in Hj as (_ & _ & Ht).
    destruct (Hdetok (Z.of_nat (0 + j) * step)
                (Z.min (Z.of_nat (0 + j) * step + target)
                       (Z.of_nat (length (py_range n))))) as (k & Hk & Hd).
    rewrite Hd in Ht. injection Ht as <-. by exists k.
  - intros Ht. destruct cs as [|c cs]; [by apply Hne in Hm|].
    exists c. split; [done|].
    specialize (Hat 0%nat c eq_refl). apply chunk_at_inv in Hat as (_ & _ & Hd).
    change (Z.of_nat (0 + 0) * step) with 0 in Hd.
    rewrite Z.add_0_l, py_range_length in Hd.
    rewrite py_slice_0_range in Hd by lia.
    destruct (detokenize_fallback_range cfg raw 0
                (Z.to_nat (Z.min target (Z.of_nat n)) `min` n) Henc HL)
      as (k & _ & Hd' & Hk0); [lia|].
    rewrite Hd' in Hd. injection Hd as <-.
    rewrite Hk0 by lia. apply str_slice_all.
Qed.

Lemma chunk_text_without_tiktoken_witness :
  exists cs,
    chunk_text cfg_fallback "abcdefghijklmnopqrstuvwxyz" "doc" "T" 3 1 = Some cs /\
    cs <> [] /\
    (forall c, c ∈ cs ->
       exists k, 0 <= k /\
         c_text c
         = str_slice k (Z.of_nat (String.length "abcdefghijklmnopqrstuvwxyz"))
                     "abcdefghijklmnopqrstuvwxyz") /\
    (1 <= 3 -> exists c, cs !! 0%nat = Some c /\
                         c_text c = "abcdefghijklmnopqrstuvwxyz").
Proof.
  apply (chunk_text_without_tiktoken cfg_fallback "abcdefghijklmnopqrstuvwxyz"
           "doc" "T" 3 1); [reflexivity|discriminate|].
  vm_compute. reflexivity.
Defined.

(** * Evaluation: [compute_recall] *)

(** X27: [compute_recall] never divides by zero and returns a float for
    every pair of strings (with fewer than 2^53 distinct gold words): [0.0]
    when the gold string has no words or shares none with the answer, and
    exactly [1.0] when the gold string has words and all of them occur in
    the answer. *)
Theorem compute_recall_returns words gold answer :
  Z.of_nat (size (words gold)) < 2 ^ 53 ->
  exists v,
    compute_recall words gold answer = Some v /\
    (words gold ∩ words answer = ∅ -> v = pzero) /\
    (words gold <> ∅ -> words gold ⊆ words answer -> v = one).
Proof.
  intros Hsize. unfold compute_recall.
  destruct (decide (words gold = ∅)) as [He|Hne].
  { rewrite bool_decide_eq_true_2 by done. exists pzero. by split_and!. }
  rewrite bool_decide_eq_false_2 by done.
  assert (Hpos : (0 < size (words gold))%nat).
  { destruct (size (words gold)) eqn:E; [|lia].
    apply size_empty_inv in E. by apply leibniz_equiv in E. }
  assert (Hle : (size (words gold ∩ words answer) <= size (words gold))%nat).
  { apply subseteq_size, intersection_subseteq_l. }
  unfold py_int_truediv. rewrite (proj2 (Z.eqb_neq _ 0)) by lia.
  destruct (Z.of_nat (size (words gold))) as [|b|b] eqn:Eb; [lia| |lia].
  destruct (Z.of_nat (size (words gold ∩ words answer))) as [|a|a] eqn:Ea; [| |lia].
  - exists pzero. split_and!; [done|done|].
    intros _ Hsub. exfalso.
    assert (words gold ∩ words answer = words gold) as Heq
      by by apply subseteq_intersection_1_L.
    rewrite Heq in Ea. lia.
  - destruct (fdiv_exact_finite a b) as (m & e & Hq & _); [lia..|].
    rewrite Hq. eexists. split_and!; [done| |].
    + intros He. rewrite He, size_empty in Ea. discriminate.
    + intros _ Hsub.
      assert (words gold ∩ words answer = words gold) as Heq
      by by apply subseteq_intersection_1_L.
      rewrite Heq in Ea. assert (a = b) as -> by lia.
      by rewrite <- Hq, fdiv_exact_self.
Qed.

Lemma compute_recall_returns_witness :
  exists v,
    compute_recall words_sample "Qdrant stores vectors" "Vectors live in Qdrant"
    = Some v /\
    (words_sample "Qdrant stores vectors" ∩ words_sample "Vectors live in Qdrant"
     = ∅ -> v = pzero) /\
    (words_sample "Qdrant stores vectors" <> ∅ ->
     words_sample "Qdrant stores vectors" ⊆ words_sample "Vectors live in Qdrant" ->
     v = one).
Proof.
  apply (compute_recall_returns words_sample). vm_compute. reflexivity.
Defined.
